(** * transport-shared: the authentication helpers (AuthUtils, Utils)

    A shallow embedding of the token service of the shared package:
    [AuthUtils] (token issuance and verification, expiry helpers, duration
    parsing, token identifiers) and the random generators of [Utils],
    with the part of the package [jsonwebtoken] that they call.  The role
    hierarchy resolver, which no source file implements, is modelled from
    the specification of the package.

    Also embedded, from the same two classes: the authorization header,
    the claims checks, the cache keys and the password rules of
    [AuthUtils]; the validators, the times of day, the array and string
    helpers and [retry] of [Utils].  A JavaScript string is the sequence
    of its code units, here the strings whose code units are below 256.

    Conventions of the embedding.
    - A JavaScript [number] that the code is handed, a count of seconds
      or of minutes, is a [Z]: an integer that a double represents.  The
      arithmetic of the code is the arithmetic of doubles; it is exact
      up to 2^53 in magnitude, and where the code computes a number out
      of an unbounded input, as [parseExpiry] does out of a string, the
      result is rounded to the nearest double or is [Infinity].
    - [Math.floor(Date.now() / 1000)] is the explicit argument [now].
    - What [jsonwebtoken] asks of Node's cryptography is a parameter,
      [Jwt.Crypto], of which nothing is assumed.
    - A call that may throw returns an [outcome]; [try { } catch { }] is
      [try_catch].
    - The static field [AuthUtils.config] is an [option JwtConfig]: it is
      [undefined] until [initialize] has run. *)

From stdpp Require Import base option list strings gmap.
From Stdlib Require Import ZArith QArith Ascii String Lia.

Local Open Scope Z_scope.
Local Set Warnings "-register-all,-clear-no-such-hyp".

(** ** JavaScript values, exceptions and completion of a call *)

Module Js.

(** A value of an object: a JSON value, as [JSON.parse] yields it, or the
    number [Infinity], which a sum or a product overflows to.  An object
    keeps its keys in insertion order.  Fractions and the negative
    infinity, which no computation of the code yields, are left out. *)
Inductive json : Type :=
| JNull
| JBool (b : bool)
| JNum (n : Z)
| JStr (s : string)
| JArr (items : list json)
| JObj (fields : list (string * json))
| JInfinity.

Definition object : Type := list (string * json).

(** [o[key]]; [None] is [undefined]. *)
Fixpoint get (key : string) (o : object) : option json :=
  match o with
  | [] => None
  | (k, v) :: rest => if String.eqb k key then Some v else get key rest
  end.

(** [v.key] on an arbitrary value: only objects carry the claims we read. *)
Definition prop (key : string) (v : json) : option json :=
  match v with
  | JObj fields => get key fields
  | _ => None
  end.

(** [o.key = v] on a fresh copy: replaces in place, else appends. *)
Fixpoint set (key : string) (v : json) (o : object) : object :=
  match o with
  | [] => [(key, v)]
  | (k, w) :: rest =>
      if String.eqb k key then (k, v) :: rest else (k, w) :: set key v rest
  end.

(** Truthiness of a value that may be [undefined]. *)
Definition truthy (v : option json) : bool :=
  match v with
  | None => false
  | Some JNull => false
  | Some (JBool b) => b
  | Some (JNum n) => negb (n =? 0)
  | Some (JStr s) => negb (String.eqb s "")
  | Some (JArr _) => true
  | Some (JObj _) => true
  | Some JInfinity => true
  end.

(** [v === s] for a string [s] *)
Definition is_string (s : string) (v : option json) : bool :=
  match v with
  | Some (JStr t) => String.eqb t s
  | _ => false
  end.

(** [a || b] *)
Definition or_else (a b : option json) : option json :=
  if truthy a then a else b.

(** A number that the code computes: an integer that a double
    represents, or [Infinity]. *)
Inductive number : Type :=
| Finite (n : Z)
| Infinity.

Definition number_json (x : number) : json :=
  match x with
  | Finite n => JNum n
  | Infinity => JInfinity
  end.

(** The exceptions the modelled code can raise. *)
Inductive exn : Type :=
| Error (message : string)
| TypeError (message : string)
| JsonWebTokenError (message : string)
| TokenExpiredError (expiredAt : Z)
| NotBeforeError (date : number).

(** How a call completes. *)
Inductive outcome (A : Type) : Type :=
| Returned (a : A)
| Threw (e : exn).
Arguments Returned {A} a.
Arguments Threw {A} e.

#[export] Instance outcome_ret : MRet outcome := fun A a => Returned a.
#[export] Instance outcome_bind : MBind outcome := fun A B f m =>
  match m with
  | Returned a => f a
  | Threw e => Threw e
  end.

(** [try { body } catch (error) { handler }] *)
Definition try_catch {A} (body : outcome A) (handler : exn -> outcome A)
  : outcome A :=
  match body with
  | Returned a => Returned a
  | Threw e => handler e
  end.

Definition is_digit (c : ascii) : bool :=
  (48 <=? Z.of_nat (nat_of_ascii c)) && (Z.of_nat (nat_of_ascii c) <=? 57).

Definition digit_value (c : ascii) : Z := Z.of_nat (nat_of_ascii c) - 48.

(** The integer that a string of decimal digits writes: the digits are
    accumulated from the left. *)
Fixpoint parseInt_from (acc : Z) (s : string) : Z :=
  match s with
  | EmptyString => acc
  | String c rest => parseInt_from (10 * acc + digit_value c) rest
  end.

Definition parseInt (s : string) : Z := parseInt_from 0 s.

(** *** The arithmetic of doubles

    A double is [m * 2^e] with a mantissa [m] below 2^53 in magnitude and
    an exponent [e] from -1074 on.  An operation of the code returns the
    double nearest to the exact result, the one with the even mantissa
    when two are as near. *)

(** The integer nearest to [n / d], the even one of two that are as near;
    [d] is positive. *)
Definition round_div (n d : Z) : Z :=
  let q := n / d in
  let r := n mod d in
  if 2 * r <? d then q
  else if d <? 2 * r then q + 1
  else if Z.even q then q else q + 1.

(** The [b] with [2^b <= n / d < 2^(b+1)], for positive [n] and [d]. *)
Definition binade (n d : Z) : Z :=
  let c := Z.log2 n - Z.log2 d in
  if (if 0 <=? c then d * 2 ^ c <=? n else d <=? n * 2 ^ (- c))
  then c else c - 1.

(** Mantissa and exponent of the double nearest to [n / d], for [n] not
    negative and [d] positive. *)
Definition nearest_ratio (n d : Z) : Z * Z :=
  let e := Z.max (binade n d - 52) (-1074) in
  (if 0 <=? e then round_div n (d * 2 ^ e) else round_div (n * 2 ^ (- e)) d,
   e).

(** Mantissa and exponent of the double nearest to a rational, below
    2^1024 in magnitude. *)
Definition nearest_double (q : Q) : Z * Z :=
  let n := Qnum q in
  let d := Z.pos (Qden q) in
  if n <? 0
  then let '(m, e) := nearest_ratio (- n) d in (- m, e)
  else nearest_ratio n d.

(** [Math.floor] of the double [m * 2^e] *)
Definition floor_double (x : Z * Z) : Z :=
  let '(m, e) := x in
  if 0 <=? e then m * 2 ^ e else m / 2 ^ (- e).

(** The number that an integer result is rounded to: the nearest double,
    [Infinity] from 2^1024 on.  (A sum or product of the code is never
    below -2^1024: negative overflow is not modelled.) *)
Definition to_double (n : Z) : number :=
  let value := floor_double (nearest_double (inject_Z n)) in
  if 2 ^ 1024 <=? value then Infinity else Finite value.

(** [parseInt(s, 10)] on a string the caller has matched against [\d+]:
    the number nearest to the integer that the digits write.  (The
    language lets an implementation replace the digits after the
    twentieth by zeros; Node does not.) *)
Definition parseInt10 (s : string) : number := to_double (parseInt s).

(** [x * k] for a positive integer [k] *)
Definition number_mul (x : number) (k : Z) : number :=
  match x with
  | Finite n => to_double (n * k)
  | Infinity => Infinity
  end.

(** [a + x] for an integer [a] *)
Definition number_add (a : Z) (x : number) : number :=
  match x with
  | Finite n => to_double (a + n)
  | Infinity => Infinity
  end.

(** The longest prefix of decimal digits, and what follows it. *)
Fixpoint span_digits (s : string) : string * string :=
  match s with
  | EmptyString => (EmptyString, EmptyString)
  | String c rest =>
      if is_digit c
      then let '(ds, tl) := span_digits rest in (String c ds, tl)
      else (EmptyString, s)
  end.

End Js.
Import Js.


(** ** The jsonwebtoken package, as AuthUtils uses it

    [jwt.sign], [jwt.verify] and [jwt.decode] belong to the package
    [jsonwebtoken] (version 9), not to this repository.  They are modelled by
    the package's documented behaviour, in the order in which its code runs
    its checks.  Messages are the package's, without their quote marks;
    [validateAsymmetricKey] has several, which are not told apart.

    A token string is represented by what the package decodes from it:
    the header, the payload, and the text of the third segment, which is
    empty when the token has no signature.

    The package leaves the cryptography to Node's [crypto] and to the
    package [jws].  What it asks of them is a parameter, [Crypto], of
    which nothing is assumed: which strings are key material of an
    asymmetric key, and which signatures verify under which key. *)

Module Jwt.

Inductive token : Type :=
| Malformed (text : string)
| Jws (header : json) (payload : json) (signature : string).

(** [jwt.decode(token, { complete: true })] *)
Record Decoded : Type := {
  header : json;
  payload : json;
  signature_of : string
}.

(** [Malformed] stands for every string that [jwt.decode] answers by
    [null] or by an exception of [JSON.parse]; either way [jwt.verify]
    fails and a caller that reads a property of the result throws. *)
Definition decode (tok : token) : outcome (option Decoded) :=
  match tok with
  | Malformed _ => Returned None
  | Jws h p s =>
      Returned (Some {| header := h; payload := p; signature_of := s |})
  end.

Record Crypto : Type := {
  (** [crypto.createPublicKey(key).asymmetricKeyType] (rsa, rsa-pss, ec,
      ...) when the string is key material of a public key, a private
      key or a certificate; [None] when the call throws. *)
  createPublicKey : string -> option string;
  (** [crypto.createPrivateKey(key).asymmetricKeyType], likewise. *)
  createPrivateKey : string -> option string;
  (** [validateAsymmetricKey(algorithm, key)] of the package returns, for
      an asymmetric key. *)
  validateAsymmetricKey : string -> string -> bool;
  (** [jws.sign]: the signature, by an algorithm under a key, of a header
      and a payload. *)
  jws_sign : string -> string -> json -> json -> string;
  (** [jws.verify(token, algorithm, key)]: the third segment of the token
      is a signature of its first two, by the algorithm under the key. *)
  jws_verify : string -> string -> json -> json -> string -> bool
}.

Record SignOptions : Type := {
  sign_issuer : option string;
  sign_audience : option string;
  expiresIn : option string
}.

Record VerifyOptions : Type := {
  verify_issuer : string;
  verify_audience : string
}.

Definition check (ok : bool) (e : exn) : outcome unit :=
  if ok then Returned tt else Threw e.

Definition is_number (v : option json) : bool :=
  match v with
  | Some (JNum _) | Some JInfinity => true
  | _ => false
  end.

Definition defined {A} (v : option A) : bool :=
  match v with Some _ => true | None => false end.

(** A claim named in the payload must be a number when it is there. *)
Definition number_if_present (v : option json) : bool :=
  negb (defined v) || is_number v.

Section Package.

Variable crypto : Crypto.

Section Sign.

(** The package [ms]: the milliseconds a time span such as [15m] or
    [2 days] stands for, [None] when it does not parse. *)
Variable ms : string -> option Z.

(** [timespan(time, iat)] of the package, for a string [time]. *)
Definition timespan (time : string) (iat : number) : option number :=
  match ms time with
  | Some milliseconds => Some (number_add (milliseconds / 1000) iat)
  | None => None
  end.

(** Copies the option [opt] into the claim [claim]; a claim the payload
    has already is refused. *)
Definition option_to_payload (name claim : string) (opt : option string)
    (payload : object) : outcome object :=
  match opt with
  | None => Returned payload
  | Some v =>
      if defined (get claim payload)
      then Threw (Error ("Bad options." +:+ name
                         +:+ " option. The payload already has an "
                         +:+ claim +:+ " property."))
      else Returned (set claim (JStr v) payload)
  end.

(** [payload.iat || Math.floor(Date.now() / 1000)] *)
Definition timestamp_of (now : Z) (payload : object) : number :=
  match get "iat" payload with
  | Some (JNum t) => if t =? 0 then Finite now else Finite t
  | Some JInfinity => Infinity
  | _ => Finite now
  end.

(** [jwt.sign(payload, secretOrPrivateKey, options)], synchronous, for an
    object payload and a string secret; the algorithm defaults to HS256,
    which wants a key that is no asymmetric key. *)
Definition sign (now : Z) (payload : object) (secret : string)
    (options : SignOptions) : outcome token :=
  check (negb (String.eqb secret ""))
    (Error "secretOrPrivateKey must have a value") ;;
  check (negb (defined (createPrivateKey crypto secret)))
    (Error "secretOrPrivateKey must be a symmetric key when using HS256") ;;
  check (number_if_present (get "iat" payload))
    (Error "iat should be a number of seconds") ;;
  check (number_if_present (get "exp" payload))
    (Error "exp should be a number of seconds") ;;
  check (number_if_present (get "nbf" payload))
    (Error "nbf should be a number of seconds") ;;
  check (negb (defined (get "exp" payload) && defined (expiresIn options)))
    (Error "Bad options.expiresIn option the payload already has an exp property.")
    ;;
  check (match expiresIn options with
         | Some e => negb (String.eqb e "")
         | None => true
         end)
    (Error "expiresIn should be a number of seconds or string representing a timespan")
    ;;
  let timestamp := timestamp_of now payload in
  let payload := set "iat" (number_json timestamp) payload in
  (match expiresIn options with
   | None => Returned payload
   | Some e =>
       match timespan e timestamp with
       | Some t => Returned (set "exp" (number_json t) payload)
       | None =>
           Threw (Error "expiresIn should be a number of seconds or string representing a timespan eg: 1d, 20h, 60")
       end
   end) ≫= fun payload =>
  payload ← option_to_payload "audience" "aud" (sign_audience options) payload;
  payload ← option_to_payload "issuer" "iss" (sign_issuer options) payload;
  let header := JObj [("alg", JStr "HS256"); ("typ", JStr "JWT")] in
  Returned (Jws header (JObj payload)
              (jws_sign crypto "HS256" secret header (JObj payload))).

End Sign.

(** The algorithms [jwt.verify] allows, by the kind of the key, when the
    caller names none. *)
Definition hs_algorithms : list string := ["HS256"; "HS384"; "HS512"].
Definition rsa_key_algorithms : list string :=
  ["RS256"; "RS384"; "RS512"; "PS256"; "PS384"; "PS512"].
Definition ec_key_algorithms : list string := ["ES256"; "ES384"; "ES512"].
Definition pub_key_algorithms : list string :=
  ["RS256"; "RS384"; "RS512"; "PS256"; "PS384"; "PS512"].

(** A string that is key material of an asymmetric key is taken for that
    key, any other string for a secret. *)
Definition algorithms_of (secret : string) : list string :=
  match createPublicKey crypto secret with
  | None => hs_algorithms
  | Some keyType =>
      if String.eqb keyType "rsa" || String.eqb keyType "rsa-pss"
      then rsa_key_algorithms
      else if String.eqb keyType "ec" then ec_key_algorithms
      else pub_key_algorithms
  end.

Definition string_in (s : string) (l : list string) : bool :=
  existsb (String.eqb s) l.

(** The key suits the algorithm: a secret always does, an asymmetric key
    when [validateAsymmetricKey] returns. *)
Definition key_valid (alg secret : string) : bool :=
  match createPublicKey crypto secret with
  | None => true
  | Some _ => validateAsymmetricKey crypto alg secret
  end.

(** [payload.aud] matches the expected audience: it is that string, or an
    array with that string among its items. *)
Definition audience_matches (expected : string) (aud : option json) : bool :=
  match aud with
  | Some (JStr a) => String.eqb expected a
  | Some (JArr items) =>
      existsb (fun t => match t with
                        | JStr a => String.eqb expected a
                        | _ => false
                        end) items
  | _ => false
  end.

Definition issuer_matches (expected : string) (iss : option json) : bool :=
  match iss with
  | Some (JStr i) => String.eqb i expected
  | _ => false
  end.

(** [jwt.verify(token, secretOrPublicKey, { issuer, audience })],
    synchronous, at clock [now], with a string for the key: malformed
    token, presence of signature and key, algorithm, key, signature,
    [nbf], [exp], audience, issuer, in this order.  The two tests of the
    package that the key is symmetric for an HS algorithm and asymmetric
    for the others cannot fail after the test of the algorithm, and are
    left out. *)
Definition verify (now : Z) (tok : token) (secret : string)
    (options : VerifyOptions) : outcome json :=
  match tok with
  | Malformed _ => Threw (JsonWebTokenError "jwt malformed")
  | Jws header payload signature =>
      let hasSignature := negb (String.eqb signature "") in
      check (negb (negb hasSignature && negb (String.eqb secret "")))
        (JsonWebTokenError "jwt signature is required") ;;
      check (negb (hasSignature && String.eqb secret ""))
        (JsonWebTokenError "secret or public key must be provided")
        ;;
      check hasSignature
        (JsonWebTokenError "please specify none in algorithms to verify unsigned tokens")
        ;;
      match prop "alg" header with
      | Some (JStr alg) =>
          check (string_in alg (algorithms_of secret))
            (JsonWebTokenError "invalid algorithm") ;;
          check (key_valid alg secret)
            (Error "the key does not suit the algorithm") ;;
          check (jws_verify crypto alg secret header payload signature)
            (JsonWebTokenError "invalid signature")
      | _ => Threw (JsonWebTokenError "invalid algorithm")
      end ;;
      match prop "nbf" payload with
      | None => Returned tt
      | Some (JNum nbf) =>
          check (negb (now <? nbf)) (NotBeforeError (Finite nbf))
      | Some JInfinity => Threw (NotBeforeError Infinity)
      | Some _ => Threw (JsonWebTokenError "invalid nbf value")
      end ;;
      match prop "exp" payload with
      | None => Returned tt
      | Some (JNum exp) => check (negb (exp <=? now)) (TokenExpiredError exp)
      | Some JInfinity => Returned tt
      | Some _ => Threw (JsonWebTokenError "invalid exp value")
      end ;;
      check (String.eqb (verify_audience options) ""
             || audience_matches (verify_audience options) (prop "aud" payload))
        (JsonWebTokenError "jwt audience invalid") ;;
      check (String.eqb (verify_issuer options) ""
             || issuer_matches (verify_issuer options) (prop "iss" payload))
        (JsonWebTokenError "jwt issuer invalid") ;;
      Returned payload
  end.

End Package.

(** What is asked of the cryptography for a secret to sign a token that
    verifies under it: the secret is no key material of an asymmetric
    key, and the HS256 signatures made under it are not empty and verify
    under it. *)
Definition hmac_secret (crypto : Crypto) (secret : string) : Prop :=
  createPublicKey crypto secret = None
  ∧ ∀ header payload,
      jws_sign crypto "HS256" secret header payload ≠ ""
      ∧ jws_verify crypto "HS256" secret header payload
          (jws_sign crypto "HS256" secret header payload) = true.

End Jwt.

(** ** The shared types that the token service reads *)

Module Types.

(** [User]: the token service reads [id], [email] and [userType] only. *)
Record User : Type := {
  user_id : string;
  user_email : string;
  user_userType : string
}.

Record Role : Type := {
  role_id : string;
  role_name : string;
  displayName : string;
  parentRoleId : option string;
  isSystemRole : bool;
  role_isActive : bool
}.

Record Permission : Type := {
  permission_id : string;
  permission_name : string;
  resource : string;
  action : string;
  contextRequired : bool
}.

(** [UserRole], a role assignment; a [Date] is its time in seconds. *)
Record UserRole : Type := {
  userId : string;
  roleId : string;
  contextType : option string;
  contextId : option string;
  expiresAt : option Z;
  isActive : bool
}.

Record JwtPayload : Type := {
  sub : string;
  email : string;
  userType : string;
  roles : list string;
  permissions : list string;
  iat : Z;
  exp : Z
}.

Record AuthTokens : Type := {
  accessToken : Jwt.token;
  refreshToken : Jwt.token;
  tokens_expiresIn : number;
  tokenType : string
}.

End Types.
Import Types.

(** ** Utils: the random generators

    A generator is a program over two sources of randomness, kept apart:
    [crypto.randomBytes] and [Math.random]. *)

Module Utils.

Inductive gen (A : Type) : Type :=
| Done (a : A)
| RandomBytes (size : nat) (k : list Byte.byte -> gen A)
| MathRandom (k : Q -> gen A).
Arguments Done {A} a.
Arguments RandomBytes {A} size k.
Arguments MathRandom {A} k.

(** Runs a generator against the answers of the two sources. *)
Fixpoint run {A} (g : gen A) (secure : nat -> list Byte.byte)
    (weak : list Q) : A :=
  match g with
  | Done a => a
  | RandomBytes n k => run (k (secure n)) secure weak
  | MathRandom k =>
      match weak with
      | [] => run (k 0%Q) secure []
      | r :: rest => run (k r) secure rest
      end
  end.

Definition hex_digits : string := "0123456789abcdef".

Definition hex_digit (n : N) : ascii :=
  match String.get (N.to_nat n) hex_digits with
  | Some c => c
  | None => "0"%char
  end.

Definition hex_of_byte (b : Byte.byte) : string :=
  let n := Byte.to_N b in
  String (hex_digit (n / 16)) (String (hex_digit (n mod 16)) EmptyString).

(** [buffer.toString("hex")] *)
Fixpoint to_hex (bytes : list Byte.byte) : string :=
  match bytes with
  | [] => EmptyString
  | b :: rest => hex_of_byte b +:+ to_hex rest
  end.

Definition generateRandomString (length : nat) : gen string :=
  RandomBytes length (fun bytes => Done (to_hex bytes)).

(** [code += s[i]]: a character of [s], or the text of [undefined] when
    the index is out of range. *)
Definition append_index (code s : string) (i : Z) : string :=
  if i <? 0 then code +:+ "undefined"
  else match String.get (Z.to_nat i) s with
       | Some c => code +:+ String c EmptyString
       | None => code +:+ "undefined"
       end.

(** The loop of [generateVerificationCode], with [remaining] turns left.
    The product [Math.random() * digits.length] is a double: the one
    nearest to the exact product. *)
Fixpoint generateVerificationCode_loop (remaining : nat) (code : string)
  : gen string :=
  match remaining with
  | O => Done code
  | S n =>
      let digits := "0123456789" in
      MathRandom (fun random =>
        generateVerificationCode_loop n
          (append_index code digits
             (floor_double
                (nearest_double
                   (random * inject_Z (Z.of_nat (String.length digits)))))))
  end.

Definition generateVerificationCode (length : nat) : gen string :=
  generateVerificationCode_loop length "".

End Utils.

(** ** AuthUtils *)

Module AuthUtils.

Record JwtConfig : Type := {
  accessTokenSecret : string;
  refreshTokenSecret : string;
  accessTokenExpiry : string;
  refreshTokenExpiry : string;
  issuer : string;
  audience : string
}.

(** [AuthUtils.config.field]: a [TypeError] while the static field is
    still [undefined]. *)
Definition config {A} (st : option JwtConfig) (field : JwtConfig -> A)
  : outcome A :=
  match st with
  | Some c => Returned (field c)
  | None => Threw (TypeError "Cannot read properties of undefined")
  end.

(** The keys of the table [multipliers]. *)
Inductive unit_letter : Type := unit_s | unit_m | unit_h | unit_d.

(** The character class [[smhd]]. *)
Definition unit_of_ascii (c : ascii) : option unit_letter :=
  if Ascii.eqb c "s" then Some unit_s
  else if Ascii.eqb c "m" then Some unit_m
  else if Ascii.eqb c "h" then Some unit_h
  else if Ascii.eqb c "d" then Some unit_d
  else None.

(** [expiry.match(/^(\d+)([smhd])$/)]: the two groups, or [None] for
    [null].  [\d+] is greedy and no unit letter is a digit, so a match,
    when there is one, splits the string after its longest digit prefix,
    which must not be empty and must leave exactly one unit letter. *)
Definition match_expiry (expiry : string) : option (string * unit_letter) :=
  match span_digits expiry with
  | (EmptyString, _) => None
  | (ds, String u EmptyString) =>
      match unit_of_ascii u with
      | Some unit => Some (ds, unit)
      | None => None
      end
  | (_, _) => None
  end.

Definition multipliers (unit : unit_letter) : Z :=
  match unit with
  | unit_s => 1
  | unit_m => 60
  | unit_h => 3600
  | unit_d => 86400
  end.

Definition parseExpiry (expiry : string) : outcome number :=
  match match_expiry expiry with
  | None => Threw (Error ("Invalid expiry format: " +:+ expiry))
  | Some (digits, unit) =>
      let value := parseInt10 digits in
      Returned (number_mul value (multipliers unit))
  end.

(** The object literal [payload] of [generateTokens]. *)
Definition accessTokenPayload (now : Z) (accessTokenExpiry : number)
    (user : User) (roles : list Role) (permissions : list Permission)
  : object :=
  [ ("sub", JStr (user_id user));
    ("email", JStr (user_email user));
    ("userType", JStr (user_userType user));
    ("roles", JArr (map (fun role => JStr (role_name role)) roles));
    ("permissions",
       JArr (map (fun permission => JStr (permission_name permission))
                 permissions));
    ("iat", JNum now);
    ("exp", number_json (number_add now accessTokenExpiry)) ].

(** The object literal [refreshTokenPayload] of [generateTokens]. *)
Definition refreshTokenPayload (now : Z) (refreshTokenExpiry : number)
    (user : User) : object :=
  [ ("sub", JStr (user_id user));
    ("type", JStr "refresh");
    ("iat", JNum now);
    ("exp", number_json (number_add now refreshTokenExpiry)) ].

Section Tokens.

(** Node's cryptography and the package [ms], as [jsonwebtoken] asks
    them. *)
Variable crypto : Jwt.Crypto.
Variable ms : string -> option Z.

Definition generateTokens (st : option JwtConfig) (now : Z) (user : User)
    (roles : list Role) (permissions : list Permission)
  : outcome AuthTokens :=
  accessExpiry ← config st accessTokenExpiry;
  accessTokenExpiry ← parseExpiry accessExpiry;
  refreshExpiry ← config st refreshTokenExpiry;
  refreshTokenExpiry ← parseExpiry refreshExpiry;
  let payload :=
    accessTokenPayload now accessTokenExpiry user roles permissions in
  accessSecret ← config st accessTokenSecret;
  iss ← config st issuer;
  aud ← config st audience;
  accessToken ←
    Jwt.sign crypto ms now payload accessSecret
      {| Jwt.sign_issuer := Some iss;
         Jwt.sign_audience := Some aud;
         Jwt.expiresIn := Some accessExpiry |};
  let refreshPayload := refreshTokenPayload now refreshTokenExpiry user in
  refreshSecret ← config st refreshTokenSecret;
  refreshToken ←
    Jwt.sign crypto ms now refreshPayload refreshSecret
      {| Jwt.sign_issuer := Some iss;
         Jwt.sign_audience := Some aud;
         Jwt.expiresIn := Some refreshExpiry |};
  Returned {| accessToken := accessToken;
              refreshToken := refreshToken;
              tokens_expiresIn := accessTokenExpiry;
              tokenType := "Bearer" |}.

Definition verify_options (c : JwtConfig) : Jwt.VerifyOptions :=
  {| Jwt.verify_issuer := issuer c; Jwt.verify_audience := audience c |}.

(** [null] is [None]. *)
Definition verifyAccessToken (st : option JwtConfig) (now : Z)
    (token : Jwt.token) : outcome (option json) :=
  try_catch
    (secret ← config st accessTokenSecret;
     options ← config st verify_options;
     decoded ← Jwt.verify crypto now token secret options;
     Returned (Some decoded))
    (fun error => Returned None).

(** What [verifyRefreshToken] returns; a field may be [undefined]. *)
Record RefreshClaims : Type := {
  refresh_sub : option json;
  refresh_type : option json
}.

Definition verifyRefreshToken (st : option JwtConfig) (now : Z)
    (token : Jwt.token) : outcome (option RefreshClaims) :=
  try_catch
    (secret ← config st refreshTokenSecret;
     options ← config st verify_options;
     decoded ← Jwt.verify crypto now token secret options;
     if negb (is_string "refresh" (prop "type" decoded))
     then Returned None
     else Returned (Some {| refresh_sub := prop "sub" decoded;
                            refresh_type := prop "type" decoded |}))
    (fun error => Returned None).

End Tokens.

Definition isTokenExpired (now : Z) (payload : JwtPayload) : bool :=
  exp payload <? now.

Definition getTimeToExpiry (now : Z) (payload : JwtPayload) : Z :=
  Z.max 0 (exp payload - now).

(** The default value of [thresholdSeconds]. *)
Definition default_thresholdSeconds : Z := 300.

Definition shouldRefreshToken (now : Z) (payload : JwtPayload)
    (thresholdSeconds : Z) : bool :=
  let timeToExpiry := getTimeToExpiry now payload in
  timeToExpiry <=? thresholdSeconds.

Definition generateSecureToken (length : nat) : Utils.gen string :=
  Utils.generateRandomString length.

Definition generateEmailVerificationToken : Utils.gen string :=
  Utils.generateRandomString 32.

Definition generatePasswordResetToken : Utils.gen string :=
  Utils.generateRandomString 32.

Definition generatePhoneVerificationCode : Utils.gen string :=
  Utils.generateVerificationCode 6.

Definition generateSessionId : Utils.gen string :=
  Utils.generateRandomString 64.

Definition generateCsrfToken : Utils.gen string :=
  Utils.generateRandomString 32.

Section ExtractTokenId.

(** [crypto.createHash('sha256').update(token).digest('hex')] of the
    token string. *)
Variable sha256_hex : Jwt.token -> string.

(** [decoded.sub] on the object that a complete decoding returns: it has
    the properties [header], [payload] and [signature] and no other. *)
Definition decoded_sub (decoded : Jwt.Decoded) : option json := None.

(** The result is a value that may be [undefined] ([None]). *)
Definition extractTokenId (token : Jwt.token) : outcome (option json) :=
  try_catch
    (decoded ← Jwt.decode token;
     match decoded with
     | None => Threw (TypeError "Cannot read properties of null")
     | Some decoded =>
         Returned (or_else (prop "jti" (Jwt.header decoded))
                           (decoded_sub decoded))
     end)
    (fun error =>
       Returned (Some (JStr (String.substring 0 16 (sha256_hex token))))).

End ExtractTokenId.

End AuthUtils.

(** ** The role hierarchy resolver *)

Module Resolver.

(** Modelled from the spec: a node of the role graph (the sources have
    the type [Role] only): a role with the names of the permissions
    attached to it directly. *)
Record RoleNode : Type := {
  node_role : Role;
  node_permissions : list string
}.

(** Modelled from the spec: the [CyclicRoleHierarchy] condition;
    [FuelExhausted] is the bound of the walk giving out. *)
Inductive failure : Type :=
| CyclicRoleHierarchy
| FuelExhausted.

Inductive result (A : Type) : Type :=
| Ok (a : A)
| Failed (f : failure).
Arguments Ok {A} a.
Arguments Failed {A} f.

(** Modelled from the spec: a scope [(contextType, contextId)]. *)
Definition context : Type := string * option string.

(** Modelled from the spec: what the resolver returns, the set of
    permission names and, for each permission that requires a context,
    the scopes in which it holds. *)
Record Resolution : Type := {
  effectivePermissions : gset string;
  contextsOf : gmap string (gset context)
}.

(** Modelled from the spec: the effectiveness rule of a role assignment
    (no source file defines it): active, and without expiry or expiring
    after [now]. *)
Definition effective (now : Z) (a : UserRole) : bool :=
  isActive a &&
  match expiresAt a with
  | None => true
  | Some t => now <? t
  end.

(** Modelled from the spec: an assignment with [contextId] set and
    [contextType] unset is rejected before it is considered. *)
Definition well_scoped (a : UserRole) : bool :=
  match contextId a, contextType a with
  | Some _, None => false
  | _, _ => true
  end.

(** Modelled from the spec: the scope an assignment carries, if any. *)
Definition context_of (a : UserRole) : option context :=
  match contextType a with
  | Some t => Some (t, contextId a)
  | None => None
  end.

(** Modelled from the spec: the walk up the parent chain of a role (no
    source file defines [resolveEffectivePermissions]).  It collects the
    permissions attached to each role it visits, stops at a role without
    parent (or absent from the graph), and fails with
    [CyclicRoleHierarchy] when it meets a role of its visited set.  The
    loop is bounded by [fuel] turns. *)
Fixpoint walk (roleGraph : gmap string RoleNode) (fuel : nat)
    (visited : gset string) (role : string) (collected : list string)
  : result (list string) :=
  match fuel with
  | O => Failed FuelExhausted
  | S fuel =>
      if decide (role ∈ visited) then Failed CyclicRoleHierarchy
      else
        match roleGraph !! role with
        | None => Ok collected
        | Some node =>
            let collected := collected ++ node_permissions node in
            match parentRoleId (node_role node) with
            | None => Ok collected
            | Some parent =>
                walk roleGraph fuel ({[role]} ∪ visited) parent collected
            end
        end
  end.

(** Modelled from the spec: the grants of a list of assignments, that is
    each permission met on the walk of an assignment, with the scope of
    that assignment; the first failing walk fails the whole. *)
Fixpoint grants (roleGraph : gmap string RoleNode) (fuel : nat)
    (assignments : list UserRole)
  : result (list (string * option context)) :=
  match assignments with
  | [] => Ok []
  | a :: rest =>
      match walk roleGraph fuel ∅ (roleId a) [] with
      | Failed f => Failed f
      | Ok names =>
          match grants roleGraph fuel rest with
          | Failed f => Failed f
          | Ok more => Ok (map (fun name => (name, context_of a)) names ++ more)
          end
      end
  end.

(** Modelled from the spec: the scopes of the grants of a permission. *)
Definition scopes_of (name : string)
    (granted : list (string * option context)) : list context :=
  omap (fun g => if String.eqb (fst g) name then snd g else None) granted.

(** Modelled from the spec: a permission flagged [contextRequired] counts
    only when a grant of it carries a scope. *)
Definition included (permissionCatalog : gmap string Permission)
    (granted : list (string * option context)) (name : string) : bool :=
  match permissionCatalog !! name with
  | Some p =>
      if contextRequired p
      then match scopes_of name granted with [] => false | _ => true end
      else true
  | None => true
  end.

(** Modelled from the spec: the flag [contextRequired] of the catalog;
    a name the catalog does not have requires none. *)
Definition requires_context (permissionCatalog : gmap string Permission)
    (name : string) : bool :=
  match permissionCatalog !! name with
  | Some p => contextRequired p
  | None => false
  end.

(** Modelled from the spec: [resolveEffectivePermissions] (absent from the
    sources).  Every walk starts with an empty visited set and as many
    turns as the graph has roles, plus one. *)
Definition resolveEffectivePermissions (userId : string)
    (assignments : list UserRole) (roleGraph : gmap string RoleNode)
    (permissionCatalog : gmap string Permission) (now : Z)
  : result Resolution :=
  let considered :=
    filter (fun a => effective now a && well_scoped a = true) assignments in
  match grants roleGraph (S (size roleGraph)) considered with
  | Failed f => Failed f
  | Ok granted =>
      let names := filter (fun n => included permissionCatalog granted n = true)
                          (map fst granted) in
      Ok {| effectivePermissions := list_to_set names;
            contextsOf :=
              list_to_map
                (map (fun n => (n, list_to_set (scopes_of n granted)))
                     (filter (fun n => requires_context permissionCatalog n = true)
                             names)) |}
  end.

(** The parent of a role, when the graph has the role and the role has
    a parent. *)
Definition parent_of (roleGraph : gmap string RoleNode) (role : string)
  : option string :=
  match roleGraph !! role with
  | Some node => parentRoleId (node_role node)
  | None => None
  end.

(** The [n]-th role of the parent chain that starts at [role]. *)
Fixpoint ancestor (roleGraph : gmap string RoleNode) (n : nat)
    (role : string) : option string :=
  match n with
  | O => Some role
  | S n =>
      match parent_of roleGraph role with
      | Some parent => ancestor roleGraph n parent
      | None => None
      end
  end.

(** The parent chain of [role] comes back to a role it has been at. *)
Definition revisits (roleGraph : gmap string RoleNode) (role : string)
  : Prop :=
  ∃ (i j : nat) (r : string),
    (i < j)%nat ∧ ancestor roleGraph i role = Some r
    ∧ ancestor roleGraph j role = Some r.

End Resolver.

(** ** Statements the theorems compare the code with *)

Module Spec.

(** [denotes ds n]: the decimal numeral [ds] (digits, at least one) writes
    the integer [n]. *)
Inductive denotes : string -> Z -> Prop :=
| denotes_digit c :
    is_digit c = true -> denotes (String c EmptyString) (digit_value c)
| denotes_snoc ds c n :
    denotes ds n -> is_digit c = true ->
    denotes (ds +:+ String c EmptyString) (10 * n + digit_value c).

(** The strings [<decimal integer><unit>], unit among s, m, h, d. *)
Definition duration_form (s : string) : Prop :=
  ∃ ds n u, denotes ds n ∧ s = ds +:+ u ∧ u ∈ ["s"; "m"; "h"; "d"].

(** The range of the answers of [Math.random]: from 0 to [1 - 2^-53], the
    largest double below 1. *)
Definition random_answer (r : Q) : Prop :=
  (0 <= r)%Q ∧ (r <= 1 - (1 # 9007199254740992))%Q.

(** A generator that never asks [Math.random]. *)
Inductive csprng_only {A} : Utils.gen A -> Prop :=
| csprng_done a : csprng_only (Utils.Done a)
| csprng_bytes n k :
    (∀ bytes, csprng_only (k bytes)) -> csprng_only (Utils.RandomBytes n k).

End Spec.
Import Spec.

(** ** Sample data *)

Module Examples.
Import AuthUtils.

(** A configuration whose two secrets are the same string. *)
Definition shared_secret_config : JwtConfig :=
  {| accessTokenSecret := "one-secret";
     refreshTokenSecret := "one-secret";
     accessTokenExpiry := "15m";
     refreshTokenExpiry := "7d";
     issuer := "transport-auth";
     audience := "transport-api" |}.

(** A stand-in for the cryptography, enough to run the samples: no
    string is taken for key material of an asymmetric key, and a
    signature is the names of the algorithm and of the key that made
    it. *)
Definition sample_crypto : Jwt.Crypto :=
  {| Jwt.createPublicKey := fun _ => None;
     Jwt.createPrivateKey := fun _ => None;
     Jwt.validateAsymmetricKey := fun _ _ => true;
     Jwt.jws_sign := fun alg key _ _ => alg +:+ "." +:+ key;
     Jwt.jws_verify := fun alg key _ _ signature =>
       String.eqb signature (alg +:+ "." +:+ key) |}.

(** The package [ms] on the two spans of the sample configuration. *)
Definition sample_ms (span : string) : option Z :=
  if String.eqb span "15m" then Some 900000
  else if String.eqb span "7d" then Some 604800000
  else None.

Definition passenger : User :=
  {| user_id := "user-1";
     user_email := "rider@example.com";
     user_userType := "PASSENGER" |}.

(** The refresh token of [passenger], issued at second 1000 for seven
    days: the claims of [refreshTokenPayload] with audience and issuer,
    signed, as [sample_crypto] signs, with the refresh secret. *)
Definition refresh_token : Jwt.token :=
  Jwt.Jws (JObj [("alg", JStr "HS256"); ("typ", JStr "JWT")])
    (JObj [("sub", JStr "user-1"); ("type", JStr "refresh");
           ("iat", JNum 1000); ("exp", JNum 605800);
           ("aud", JStr "transport-api"); ("iss", JStr "transport-auth")])
    "HS256.one-secret".

Definition passenger_role : Role :=
  {| role_id := "role-1"; role_name := "passenger";
     displayName := "Passenger"; parentRoleId := None;
     isSystemRole := true; role_isActive := true |}.

Definition booking_create : Permission :=
  {| permission_id := "permission-1"; permission_name := "booking.create";
     resource := "booking"; action := "create"; contextRequired := false |}.

(** The access token of [passenger], issued at second 1000 for fifteen
    minutes: the claims of [accessTokenPayload] with audience and issuer,
    signed, as [sample_crypto] signs, with the access secret. *)
Definition access_token : Jwt.token :=
  Jwt.Jws (JObj [("alg", JStr "HS256"); ("typ", JStr "JWT")])
    (JObj [("sub", JStr "user-1"); ("email", JStr "rider@example.com");
           ("userType", JStr "PASSENGER");
           ("roles", JArr [JStr "passenger"]);
           ("permissions", JArr [JStr "booking.create"]);
           ("iat", JNum 1000); ("exp", JNum 1900);
           ("aud", JStr "transport-api"); ("iss", JStr "transport-auth")])
    "HS256.one-secret".

(** The header that [jwt.sign] writes. *)
Definition signed_header : json :=
  JObj [("alg", JStr "HS256"); ("typ", JStr "JWT")].

Definition payload_with_jti : json :=
  JObj [("sub", JStr "user-1"); ("jti", JStr "token-42");
        ("iat", JNum 1000); ("exp", JNum 1900)].

Definition payload_without_jti : json :=
  JObj [("sub", JStr "user-1"); ("iat", JNum 1000); ("exp", JNum 1900)].

(** A signed token whose payload has the identifier claim [jti]. *)
Definition token_with_jti : Jwt.token :=
  Jwt.Jws signed_header payload_with_jti "HS256.one-secret".

(** A signed token without identifier claim. *)
Definition token_without_jti : Jwt.token :=
  Jwt.Jws signed_header payload_without_jti "HS256.one-secret".

(** A stand-in for the digest, enough to run [extractTokenId]. *)
Definition sample_digest (token : Jwt.token) : string :=
  "9f86d081884c7d659a2feaa0c55ad015a3bf4f1b2b0b822cd15d6c15b0f00a08".

Definition expiring_payload : JwtPayload :=
  {| sub := "user-1"; email := "rider@example.com"; userType := "PASSENGER";
     roles := ["passenger"]; permissions := ["booking.create"];
     iat := 1000; exp := 1900 |}.

Definition role (id : string) (parent : option string) : Role :=
  {| role_id := id; role_name := id; displayName := id;
     parentRoleId := parent; isSystemRole := false; role_isActive := true |}.

Definition node (id : string) (parent : option string)
    (names : list string) : Resolver.RoleNode :=
  {| Resolver.node_role := role id parent;
     Resolver.node_permissions := names |}.

(** A with parent B, B with parent C, C without parent. *)
Definition chain_graph : gmap string Resolver.RoleNode :=
  <["A" := node "A" (Some "B") ["trip.override"]]>
  (<["B" := node "B" (Some "C") ["trip.assign"]]>
  (<["C" := node "C" None ["trip.view"]]> ∅)).

(** The same graph with the parent of C set back to A. *)
Definition cyclic_graph : gmap string Resolver.RoleNode :=
  <["C" := node "C" (Some "A") ["trip.view"]]> chain_graph.

(** An active assignment of role A, without scope and without expiry. *)
Definition holds_A : UserRole :=
  {| userId := "user-1"; roleId := "A"; contextType := None;
     contextId := None; expiresAt := None; isActive := true |}.

End Examples.

(** ** JavaScript strings

    A string is the sequence of its UTF-16 code units; the embedding has
    the strings whose code units are all below 256, one [ascii] per code
    unit. *)

Module JsString.

(** [s.split(sep)] for a separator of one character. *)
Fixpoint split (sep : ascii) (s : string) : list string :=
  match s with
  | EmptyString => [EmptyString]
  | String c rest =>
      if Ascii.eqb c sep then EmptyString :: split sep rest
      else match split sep rest with
           | part :: parts => String c part :: parts
           | [] => [String c EmptyString]
           end
  end.

(** The index that [slice] makes of a relative position: counted from the
    end when negative, and kept within the string. *)
Definition clamp_index (len i : Z) : Z :=
  if i <? 0 then Z.max (len + i) 0 else Z.min i len.

(** [s.slice(start, end)] *)
Definition slice (s : string) (start end_ : Z) : string :=
  let len := Z.of_nat (String.length s) in
  let from := clamp_index len start in
  let to := clamp_index len end_ in
  String.substring (Z.to_nat from) (Z.to_nat (Z.max (to - from) 0)) s.

(** [s.includes(c)] for one character, as the tests [/[class]/.test(s)]
    need it: some character of [s] is in the class. *)
Definition has_char (class : ascii -> bool) (s : string) : bool :=
  existsb class (list_ascii_of_string s).

(** Every character of [s] is in the class. *)
Definition all_chars (class : ascii -> bool) (s : string) : bool :=
  forallb class (list_ascii_of_string s).

(** [sep] does not occur in [s]. *)
Definition free_of (sep : ascii) (s : string) : bool :=
  negb (has_char (Ascii.eqb sep) s).

Definition in_range (lo hi c : ascii) : bool :=
  (nat_of_ascii lo <=? nat_of_ascii c)%nat && (nat_of_ascii c <=? nat_of_ascii hi)%nat.

(** The lower-case form of an ASCII letter; any other code unit below 256
    is the canonical form of no ASCII letter and stays as it is. *)
Definition lower_ascii (c : ascii) : ascii :=
  if in_range "A" "Z" c then ascii_of_nat (nat_of_ascii c + 32) else c.

(** Does [s] start with [pattern], a lower-case ASCII text, when case is
    ignored?  This is [/^pattern/i.test(s)]. *)
Fixpoint starts_with_ci (pattern s : string) : bool :=
  match pattern, s with
  | EmptyString, _ => true
  | String p pattern, String c s =>
      Ascii.eqb (lower_ascii c) p && starts_with_ci pattern s
  | String _ _, EmptyString => false
  end.

End JsString.

(** ** AuthUtils: the authorization header, the claims checks, the keys
    and the password rules *)

Module Access.
Import JsString.

(** [authHeader] may be [undefined] ([None]); the result may be [null]. *)
Definition extractTokenFromHeader (authHeader : option string)
  : option string :=
  match authHeader with
  | None => None
  | Some EmptyString => None
  | Some authHeader =>
      let parts := split " " authHeader in
      match parts with
      | [scheme; token] =>
          if String.eqb scheme "Bearer" then Some token else None
      | _ => None
      end
  end.

(** [array.includes(x)] on strings *)
Definition includes (array : list string) (x : string) : bool :=
  existsb (String.eqb x) array.

Definition hasPermission (payload : JwtPayload) (permission : string) : bool :=
  includes (permissions payload) permission.

Definition hasRole (payload : JwtPayload) (role : string) : bool :=
  includes (roles payload) role.

Definition hasAnyRole (payload : JwtPayload) (roles : list string) : bool :=
  existsb (fun role => includes (Types.roles payload) role) roles.

Definition hasAllRoles (payload : JwtPayload) (roles : list string) : bool :=
  forallb (fun role => includes (Types.roles payload) role) roles.

Definition hasAnyPermission (payload : JwtPayload)
    (permissions : list string) : bool :=
  existsb (fun permission => includes (Types.permissions payload) permission)
          permissions.

Definition hasAllPermissions (payload : JwtPayload)
    (permissions : list string) : bool :=
  forallb (fun permission => includes (Types.permissions payload) permission)
          permissions.

Definition generateRateLimitKey (identifier action : string) : string :=
  "rate_limit:" +:+ action +:+ ":" +:+ identifier.

Definition generateAttemptKey (identifier action : string) : string :=
  "attempts:" +:+ action +:+ ":" +:+ identifier.

Definition generateBlacklistKey (tokenId : string) : string :=
  "blacklist:" +:+ tokenId.

End Access.

Module Password.
Import JsString.

Record Strength : Type := {
  isValid : bool;
  errors : list string
}.

Definition is_lower (c : ascii) : bool := in_range "a" "z" c.
Definition is_upper (c : ascii) : bool := in_range "A" "Z" c.

(** The quotation mark, which a string of this file cannot hold. *)
Definition quotation_mark : ascii := ascii_of_nat 34.

(** The class of special characters of the sixth test: the thirty
    punctuation marks it lists, the quotation mark and the backslash
    among them. *)
Definition is_special (c : ascii) : bool :=
  existsb (Ascii.eqb c)
    (quotation_mark
       :: list_ascii_of_string "!@#$%^&*()_+-=[]{};':\|,.<>/?").

(** A line terminator, which [.] does not match. *)
Definition line_terminator (c : ascii) : bool :=
  Ascii.eqb c (ascii_of_nat 10) || Ascii.eqb c (ascii_of_nat 13).

(** [/^(.)\1+$/.test(s)]: one character that is no line terminator, then
    the same character again, once or more, up to the end. *)
Definition repeated_character (s : string) : bool :=
  match s with
  | String c (String d rest) =>
      negb (line_terminator c)
      && forallb (Ascii.eqb c) (d :: list_ascii_of_string rest)
  | _ => false
  end.

(** [/^(123|abc|qwer)/i.test(s)] *)
Definition common_sequence (s : string) : bool :=
  starts_with_ci "123" s || starts_with_ci "abc" s || starts_with_ci "qwer" s.

(** [/^(password|letmein|admin)/i.test(s)] *)
Definition common_password (s : string) : bool :=
  starts_with_ci "password" s || starts_with_ci "letmein" s
  || starts_with_ci "admin" s.

(** The array [commonPatterns], in its order. *)
Definition commonPatterns : list (string -> bool) :=
  [repeated_character; common_sequence; common_password].

(** [if (test) errors.push(message)] *)
Definition push_if (test : bool) (message : string) (errors : list string)
  : list string :=
  if test then errors ++ [message] else errors.

Definition validatePasswordStrength (password : string) : Strength :=
  let length := Z.of_nat (String.length password) in
  let errors := [] in
  let errors := push_if (length <? 8)
                  "Password must be at least 8 characters long" errors in
  let errors := push_if (128 <? length)
                  "Password must be less than 128 characters long" errors in
  let errors := push_if (negb (has_char is_lower password))
                  "Password must contain at least one lowercase letter" errors in
  let errors := push_if (negb (has_char is_upper password))
                  "Password must contain at least one uppercase letter" errors in
  let errors := push_if (negb (has_char is_digit password))
                  "Password must contain at least one number" errors in
  let errors := push_if (negb (has_char is_special password))
                  "Password must contain at least one special character" errors in
  let errors := push_if (existsb (fun pattern => pattern password) commonPatterns)
                  "Password contains a common pattern and is not secure" errors in
  {| isValid := bool_decide (List.length errors = 0%nat); errors := errors |}.

End Password.

(** ** Utils: arrays and strings *)

Module Collections.
Import JsString.

(** [array.slice(start, end)] *)
Definition slice {T} (array : list T) (start end_ : Z) : list T :=
  let len := Z.of_nat (List.length array) in
  let from := clamp_index len start in
  let to := clamp_index len end_ in
  take (Z.to_nat (Z.max (to - from) 0)) (drop (Z.to_nat from) array).

(** The loop of [chunk], for an integer [size]: [i] is the loop variable
    and [chunks] the array built so far.  [None] says that [fuel] turns
    did not end the loop. *)
Fixpoint chunk_loop {T} (fuel : nat) (array : list T) (size i : Z)
    (chunks : list (list T)) : option (list (list T)) :=
  match fuel with
  | O => None
  | S fuel =>
      if i <? Z.of_nat (List.length array)
      then chunk_loop fuel array size (i + size)
             (chunks ++ [slice array i (i + size)])
      else Some chunks
  end.

Definition chunk {T} (fuel : nat) (array : list T) (size : Z)
  : option (list (list T)) :=
  chunk_loop fuel array size 0 [].

(** [[...new Set(array)]]: the elements in the order in which the set
    took them in, each once.  The equality of the set is the equality
    of [T]. *)
Definition unique `{EqDecision T} (array : list T) : list T :=
  fold_left (fun set x => if decide (x ∈ set) then set else set ++ [x])
            array [].

Section GroupBy.
Context {T : Type}.

(** The names of the properties that an object literal inherits from its
    prototype ([constructor], [toString], ...). *)
Variable inherited : string -> bool.

(** One turn of the reducer: [groups[groupKey]] reads an own property,
    else an inherited one, which is no array and has no [push]. *)
Definition groupBy_step (key : T -> string) (groups : gmap string (list T))
    (item : T) : outcome (gmap string (list T)) :=
  let groupKey := key item in
  match groups !! groupKey with
  | Some group => Returned (<[groupKey := group ++ [item]]> groups)
  | None =>
      if inherited groupKey
      then Threw (TypeError "groups[groupKey].push is not a function")
      else Returned (<[groupKey := [item]]> groups)
  end.

Fixpoint groupBy_from (groups : gmap string (list T)) (array : list T)
    (key : T -> string) : outcome (gmap string (list T)) :=
  match array with
  | [] => Returned groups
  | item :: rest =>
      groups ← groupBy_step key groups item;
      groupBy_from groups rest key
  end.

Definition groupBy (array : list T) (key : T -> string)
  : outcome (gmap string (list T)) :=
  groupBy_from ∅ array key.

End GroupBy.

(** [text.slice(0, length - suffix.length) + suffix], for an integer
    [length]. *)
Definition truncate (text : string) (length : Z) (suffix : string) : string :=
  if Z.of_nat (String.length text) <=? length then text
  else JsString.slice text 0 (length - Z.of_nat (String.length suffix))
       +:+ suffix.

(** The default value of [suffix]. *)
Definition default_suffix : string := "...".

(** The items of an array that have the key [k], in order. *)
Definition with_key {T} (key : T -> string) (k : string) (array : list T)
  : list T :=
  filter (fun item => key item = k) array.

(** What the theorems compare [unique] with: the first occurrence of
    each element, in order. *)
Fixpoint first_occurrences `{EqDecision T} (l : list T) : list T :=
  match l with
  | [] => []
  | x :: l => x :: filter (fun y => y ≠ x) (first_occurrences l)
  end.

End Collections.

(** ** Regular expressions

    The expressions of [Utils] that have no back-reference, written as
    they stand in the source.  [test] is [RegExp.prototype.test] for an
    expression anchored by [^] and [$] and without the multi-line flag:
    the whole string has to match. *)

Module Regex.

Inductive regex : Type :=
| Void
| Empty
| Class (member : ascii -> bool)
| Seq (r1 r2 : regex)
| Alt (r1 r2 : regex)
| Star (r : regex).

(** [c] *)
Definition Char (c : ascii) : regex := Class (Ascii.eqb c).
(** [r+] *)
Definition Plus (r : regex) : regex := Seq r (Star r).
(** [r?] *)
Definition Opt (r : regex) : regex := Alt r Empty.
(** [r{n}] *)
Fixpoint Repeat (n : nat) (r : regex) : regex :=
  match n with
  | O => Empty
  | S n => Seq r (Repeat n r)
  end.
(** [r{0,n}] *)
Fixpoint UpTo (n : nat) (r : regex) : regex :=
  match n with
  | O => Empty
  | S n => Opt (Seq r (UpTo n r))
  end.
(** [r{lo,hi}] *)
Definition Between (lo hi : nat) (r : regex) : regex :=
  Seq (Repeat lo r) (UpTo (hi - lo) r).

(** Does the expression match the empty string? *)
Fixpoint nullable (r : regex) : bool :=
  match r with
  | Void => false
  | Empty => true
  | Class _ => false
  | Seq r1 r2 => nullable r1 && nullable r2
  | Alt r1 r2 => nullable r1 || nullable r2
  | Star _ => true
  end.

(** What is left to match after the character [c]. *)
Fixpoint derive (c : ascii) (r : regex) : regex :=
  match r with
  | Void => Void
  | Empty => Void
  | Class member => if member c then Empty else Void
  | Seq r1 r2 =>
      if nullable r1
      then Alt (Seq (derive c r1) r2) (derive c r2)
      else Seq (derive c r1) r2
  | Alt r1 r2 => Alt (derive c r1) (derive c r2)
  | Star r => Seq (derive c r) (Star r)
  end.

Fixpoint test (r : regex) (s : string) : bool :=
  match s with
  | EmptyString => nullable r
  | String c rest => test (derive c r) rest
  end.

(** The strings of an expression. *)
Inductive lang : regex -> string -> Prop :=
| lang_empty : lang Empty EmptyString
| lang_class member c : member c = true -> lang (Class member) (String c EmptyString)
| lang_seq r1 r2 s1 s2 : lang r1 s1 -> lang r2 s2 -> lang (Seq r1 r2) (s1 +:+ s2)
| lang_alt_l r1 r2 s : lang r1 s -> lang (Alt r1 r2) s
| lang_alt_r r1 r2 s : lang r2 s -> lang (Alt r1 r2) s
| lang_star_nil r : lang (Star r) EmptyString
| lang_star_more r s1 s2 :
    lang r s1 -> lang (Star r) s2 -> lang (Star r) (s1 +:+ s2).

(** [s] with [f] applied to each character. *)
Fixpoint map_chars (f : ascii -> ascii) (s : string) : string :=
  match s with
  | EmptyString => EmptyString
  | String c rest => String (f c) (map_chars f rest)
  end.

(** Every class of the expression gives the same answer on [c] and on
    [f c]. *)
Fixpoint blind_to (f : ascii -> ascii) (r : regex) : Prop :=
  match r with
  | Void | Empty => True
  | Class member => ∀ c, member (f c) = member c
  | Seq r1 r2 | Alt r1 r2 => blind_to f r1 ∧ blind_to f r2
  | Star r => blind_to f r
  end.

End Regex.

(** ** Utils: the validators and the times of day *)

Module Validation.
Import JsString Regex.

Definition digit : regex := Class is_digit.
Definition range (lo hi : ascii) : regex := Class (in_range lo hi).

(** A character that [\s] matches, among the code units below 256. *)
Definition is_space (c : ascii) : bool :=
  existsb (fun n => Nat.eqb (nat_of_ascii c) n) [9; 10; 11; 12; 13; 32; 160]%nat.

(** A character that is neither white space nor the at sign. *)
Definition plain (c : ascii) : bool := negb (is_space c || Ascii.eqb c "@").

(** [[^\s@]] *)
Definition not_space_at : regex := Class plain.

(** [/^[^\s@]+@[^\s@]+\.[^\s@]+$/] *)
Definition emailRegex : regex :=
  Seq (Plus not_space_at)
    (Seq (Char "@")
       (Seq (Plus not_space_at) (Seq (Char ".") (Plus not_space_at)))).

Definition isValidEmail (email : string) : bool := test emailRegex email.

(** [/^\+?[1-9]\d{1,14}$/] *)
Definition phoneRegex : regex :=
  Seq (Opt (Char "+")) (Seq (range "1" "9") (Between 1 14 digit)).

Definition isValidPhone (phone : string) : bool := test phoneRegex phone.

(** [[0-9a-f]] under the flag [i] *)
Definition is_hex (c : ascii) : bool :=
  is_digit c || in_range "a" "f" c || in_range "A" "F" c.

Definition hex : regex := Class is_hex.

(** [[89ab]] under the flag [i] *)
Definition is_variant (c : ascii) : bool :=
  existsb (Ascii.eqb c) (list_ascii_of_string "89abAB").

Definition variant : regex := Class is_variant.

(** [/^[0-9a-f]{8}-[0-9a-f]{4}-[1-5][0-9a-f]{3}-[89ab][0-9a-f]{3}-[0-9a-f]{12}$/i] *)
Definition uuidRegex : regex :=
  Seq (Repeat 8 hex)
    (Seq (Char "-")
       (Seq (Repeat 4 hex)
          (Seq (Char "-")
             (Seq (range "1" "5")
                (Seq (Repeat 3 hex)
                   (Seq (Char "-")
                      (Seq variant
                         (Seq (Repeat 3 hex)
                            (Seq (Char "-") (Repeat 12 hex)))))))))).

Definition isValidUUID (uuid : string) : bool := test uuidRegex uuid.

(** [/^([0-1][0-9]|2[0-3]):[0-5][0-9](:[0-5][0-9])?$/] *)
Definition timeRegex : regex :=
  Seq (Alt (Seq (range "0" "1") (range "0" "9"))
           (Seq (Char "2") (range "0" "3")))
    (Seq (Char ":")
       (Seq (range "0" "5")
          (Seq (range "0" "9")
             (Opt (Seq (Char ":") (Seq (range "0" "5") (range "0" "9"))))))).

Definition isValidTime (timeString : string) : bool :=
  test timeRegex timeString.

End Validation.

(** ** Utils: times of day

    The numbers of this module are integers up to 2^53 in magnitude:
    there the quotient, the remainder, the product and the sum that the
    code computes in doubles are exact, and [toString] writes every
    digit.  Beyond, the code rounds, and from 10^21 on it writes an
    exponent. *)

Module Times.
Import JsString.

(** The character of a decimal digit. *)
Definition digit_char (d : Z) : ascii := ascii_of_nat (48 + Z.to_nat d).

(** The decimal digits of [n], at most [fuel] of them, before [tail]. *)
Fixpoint digits_from (fuel : nat) (n : Z) (tail : string) : string :=
  match fuel with
  | O => tail
  | S fuel =>
      let tail := String (digit_char (n mod 10)) tail in
      if n <? 10 then tail else digits_from fuel (n / 10) tail
  end.

(** [n.toString()] for an integer: its decimal digits, after a minus
    sign when it is negative.  A number below [2^k] has at most [k]
    digits. *)
Definition toString (n : Z) : string :=
  if n <? 0
  then String "-" (digits_from (S (Z.to_nat (Z.log2 (- n)))) (- n) EmptyString)
  else digits_from (S (Z.to_nat (Z.log2 n))) n EmptyString.

(** [count] characters taken from the copies of [filler], one after the
    other; [current] is what is left of the copy in use. *)
Fixpoint fill (count : nat) (filler current : string) : string :=
  match count with
  | O => EmptyString
  | S count =>
      match current with
      | String c rest => String c (fill count filler rest)
      | EmptyString =>
          match filler with
          | String c rest => String c (fill count filler rest)
          | EmptyString => EmptyString
          end
      end
  end.

(** [s.padStart(targetLength, padString)] *)
Definition padStart (s : string) (targetLength : nat) (padString : string)
  : string :=
  if (targetLength <=? String.length s)%nat then s
  else fill (targetLength - String.length s) padString padString +:+ s.

Definition minutesToTime (minutes : Z) : string :=
  let hours := minutes / 60 in
  let mins := Z.rem minutes 60 in
  padStart (toString hours) 2 "0" +:+ ":" +:+ padStart (toString mins) 2 "0".

Section TimeToMinutes.

(** The conversion [Number] of a string; [None] is [NaN]. *)
Variable Number : string -> option Z.

(** [hours * 60 + minutes], [NaN] as soon as one of the two is [NaN] or
    [undefined]. *)
Definition timeToMinutes (timeString : string) : option Z :=
  match map Number (split ":" timeString) with
  | hours :: minutes :: _ =>
      match hours, minutes with
      | Some hours, Some minutes => Some (hours * 60 + minutes)
      | _, _ => None
      end
  | _ => None
  end.

End TimeToMinutes.

(** The two digits of a number below 100. *)
Definition two_digits (n : Z) : string :=
  String (digit_char (n / 10)) (String (digit_char (n mod 10)) EmptyString).

(** The text [HH:MM] of an hour and a minute. *)
Definition clock (hours minutes : Z) : string :=
  two_digits hours +:+ ":" +:+ two_digits minutes.

End Times.

(** ** Utils: retrying an asynchronous call

    [await] runs the calls of [fn] and the delays one after the other, so
    [retry] is a loop over the way each call settles.  The delays awaited
    are kept in a log. *)

Module Async.

(** How the promise of [retry] settles.  A rejection carries the value
    thrown, which may be [undefined] ([None]). *)
Inductive settled (T E : Type) : Type :=
| Fulfilled (value : T)
| Rejected (reason : option E).
Arguments Fulfilled {T E} value.
Arguments Rejected {T E} reason.

Section Retry.
Context {T E : Type}.

(** [fn]: how its call number [k], counted from 0, settles: with a value
    or with an error. *)
Variable fn : nat -> T + E.

(** The loop of [retry] at the test [attempt <= maxAttempts], for an
    integer [maxAttempts]: [calls] counts the calls of [fn] made so far,
    [waited] is the log of the delays.  [None] says that [fuel] turns did
    not end the loop. *)
Fixpoint retry_loop (fuel : nat) (maxAttempts delayMs attempt : Z)
    (calls : nat) (lastError : option E) (waited : list Z)
  : option (settled T E * list Z) :=
  match fuel with
  | O => None
  | S fuel =>
      if attempt <=? maxAttempts then
        match fn calls with
        | inl value => Some (Fulfilled value, waited)
        | inr error =>
            if attempt =? maxAttempts
            then Some (Rejected (Some error), waited)
            else retry_loop fuel maxAttempts delayMs (attempt + 1) (S calls)
                   (Some error) (waited ++ [delayMs * attempt])
        end
      else Some (Rejected lastError, waited)
  end.

Definition retry (maxAttempts delayMs : Z)
  : option (settled T E * list Z) :=
  retry_loop (S (Z.to_nat maxAttempts)) maxAttempts delayMs 1 0 None [].

End Retry.

(** The default values of [maxAttempts] and [delayMs]. *)
Definition default_maxAttempts : Z := 3.
Definition default_delayMs : Z := 1000.

End Async.

(** ** More sample data *)

Module Scenarios.
Import AuthUtils.

(** A configuration with two different secrets. *)
Definition separate_config : JwtConfig :=
  {| accessTokenSecret := "access-secret";
     refreshTokenSecret := "refresh-secret";
     accessTokenExpiry := "15m";
     refreshTokenExpiry := "7d";
     issuer := "transport-auth";
     audience := "transport-api" |}.

(** The claims of the access token of [Examples.passenger]. *)
Definition access_claims : json :=
  JObj [("sub", JStr "user-1"); ("email", JStr "rider@example.com");
        ("userType", JStr "PASSENGER");
        ("roles", JArr [JStr "passenger"]);
        ("permissions", JArr [JStr "booking.create"]);
        ("iat", JNum 1000); ("exp", JNum 1900);
        ("aud", JStr "transport-api"); ("iss", JStr "transport-auth")].

(** These claims signed under the access secret of [separate_config]. *)
Definition separate_access_token : Jwt.token :=
  Jwt.Jws Examples.signed_header access_claims
    "HS256.access-secret".

(** The claims of a refresh token, and these claims signed under the
    refresh secret of [separate_config]. *)
Definition refresh_claims : json :=
  JObj [("sub", JStr "user-1"); ("type", JStr "refresh");
        ("iat", JNum 1000); ("exp", JNum 605800);
        ("aud", JStr "transport-api"); ("iss", JStr "transport-auth")].

Definition separate_refresh_token : Jwt.token :=
  Jwt.Jws Examples.signed_header refresh_claims
    "HS256.refresh-secret".

(** Six answers of [Math.random]. *)
Definition random_answers : list Q :=
  [(3152519739159347 # 4503599627370496)%Q; (1 # 2)%Q;
   (9007199254740991 # 9007199254740992)%Q; (0 # 1)%Q; (1 # 4)%Q;
   (1 # 8)%Q].

End Scenarios.

(** ** Strings *)

Section Strings.

Lemma append_nil_l s : "" +:+ s = s.
Proof. reflexivity. Qed.

Lemma append_cons c s1 s2 : String c s1 +:+ s2 = String c (s1 +:+ s2).
Proof. reflexivity. Qed.

Lemma append_nil_r s : s +:+ "" = s.
Proof.
  induction s as [|c s IH]; [reflexivity|]. now rewrite append_cons, IH.
Qed.

Lemma append_assoc s1 s2 s3 : (s1 +:+ s2) +:+ s3 = s1 +:+ (s2 +:+ s3).
Proof.
  induction s1 as [|c s1 IH]; [reflexivity|].
  now rewrite !append_cons, IH.
Qed.

Lemma length_append s1 s2 :
  String.length (s1 +:+ s2) = (String.length s1 + String.length s2)%nat.
Proof.
  induction s1 as [|c s1 IH]; [reflexivity|].
  rewrite append_cons. simpl. now rewrite IH.
Qed.

End Strings.

(** ** Doubles *)

Section Doubles.

Lemma round_div_1 n : round_div n 1 = n.
Proof.
  unfold round_div. rewrite Z.div_1_r, Z.mod_1_r. reflexivity.
Qed.

(** A quotient below [k + 1/2] is rounded to [k] at most. *)
Lemma round_div_le n d k :
  0 < d -> 2 * n < (2 * k + 1) * d -> round_div n d <= k.
Proof.
  intros Hd Hn. unfold round_div.
  pose proof (Z.div_mod n d ltac:(lia)) as Heq.
  pose proof (Z.mod_pos_bound n d Hd) as Hr.
  set (q := n / d) in *. set (r := n mod d) in *.
  destruct (2 * r <? d) eqn:H1; [apply Z.ltb_lt in H1; nia|].
  apply Z.ltb_ge in H1.
  destruct (d <? 2 * r) eqn:H2; [apply Z.ltb_lt in H2; nia|].
  apply Z.ltb_ge in H2. destruct (Z.even q); nia.
Qed.

Lemma round_div_nonneg n d : 0 < d -> 0 <= n -> 0 <= round_div n d.
Proof.
  intros Hd Hn. unfold round_div.
  pose proof (Z.div_pos n d Hn Hd).
  destruct (2 * (n mod d) <? d); [lia|].
  destruct (d <? 2 * (n mod d)); [lia|]. destruct (Z.even (n / d)); lia.
Qed.

Lemma binade_integer n : 0 < n -> binade n 1 = Z.log2 n.
Proof.
  intros Hn. unfold binade. change (Z.log2 1) with 0. rewrite Z.sub_0_r.
  pose proof (Z.log2_nonneg n). pose proof (Z.log2_spec n Hn).
  replace (0 <=? Z.log2 n) with true by (symmetry; apply Z.leb_le; lia).
  replace (1 * 2 ^ Z.log2 n <=? n) with true
    by (symmetry; apply Z.leb_le; lia).
  reflexivity.
Qed.

(** The integers up to 2^53 are doubles. *)
Lemma to_double_exact n : 0 <= n <= 2 ^ 53 -> to_double n = Finite n.
Proof.
  intros [H0 H53].
  destruct (Z.eq_dec n 0) as [->|Hne]; [reflexivity|].
  destruct (Z.eq_dec n (2 ^ 53)) as [->|Hlt]; [vm_compute; reflexivity|].
  assert (0 < n < 2 ^ 53) as [Hpos Hn] by lia.
  assert (Z.log2 n < 53) as Hlog by (apply Z.log2_lt_pow2; lia).
  pose proof (Z.log2_nonneg n) as Hlog0.
  unfold to_double, nearest_double. simpl Qnum. simpl Qden.
  replace (n <? 0) with false by (symmetry; apply Z.ltb_ge; lia).
  unfold nearest_ratio. rewrite binade_integer by assumption.
  rewrite Z.max_l by lia.
  assert (floor_double
            (if 0 <=? Z.log2 n - 52
             then round_div n (1 * 2 ^ (Z.log2 n - 52))
             else round_div (n * 2 ^ (- (Z.log2 n - 52))) 1,
             Z.log2 n - 52) = n) as ->.
  { unfold floor_double.
    destruct (0 <=? Z.log2 n - 52) eqn:He.
    - apply Z.leb_le in He. replace (Z.log2 n - 52) with 0 by lia.
      change (1 * 2 ^ 0) with 1. rewrite round_div_1. lia.
    - rewrite round_div_1. apply Z.div_mul.
      apply Z.pow_nonzero; [lia|]. apply Z.leb_gt in He. lia. }
  replace (2 ^ 1024 <=? n) with false; [reflexivity|].
  symmetry. apply Z.leb_gt.
  apply Z.lt_trans with (2 ^ 53); [exact Hn|]. now apply Z.pow_lt_mono_r.
Qed.

(** A ratio below 16 is in the binade of 8 at most. *)
Lemma binade_below_16 n d : 0 < d -> 0 <= n -> n < 16 * d -> binade n d <= 3.
Proof.
  intros Hd Hn Hlt. unfold binade.
  assert (Z.log2 n <= 4 + Z.log2 d) as Hc.
  { replace (4 + Z.log2 d) with (Z.log2 (d * 2 ^ 4))
      by (rewrite Z.log2_mul_pow2; lia).
    apply Z.log2_le_mono. change (2 ^ 4) with 16. lia. }
  set (c := Z.log2 n - Z.log2 d) in *.
  destruct (Z.eq_dec c 4) as [Hc4|Hc4].
  - rewrite Hc4. change (0 <=? 4) with true. cbv iota.
    change (2 ^ 4) with 16.
    replace (d * 16 <=? n) with false by (symmetry; apply Z.leb_gt; lia).
    cbv iota. lia.
  - destruct (if 0 <=? c then d * 2 ^ c <=? n else d <=? n * 2 ^ (- c)); lia.
Qed.

(** The product by 10 of a rational up to [1 - 2^-53], the largest
    double below 1, is rounded to a double below 10. *)
Lemma floor_times_10 (r : Q) :
  (0 <= r)%Q -> (r <= 1 - (1 # 9007199254740992))%Q ->
  0 <= floor_double (nearest_double (r * inject_Z 10)) <= 9.
Proof.
  destruct r as [a p]. unfold Qle. simpl Qnum. simpl Qden.
  intros H0 H1. rewrite Z.mul_1_r in H0.
  unfold nearest_double. simpl Qnum. simpl Qden.
  rewrite Pos.mul_1_r. set (d := Z.pos p) in *.
  assert (0 < d) as Hd by (unfold d; lia).
  replace (a * 10 <? 0) with false by (symmetry; apply Z.ltb_ge; lia).
  unfold nearest_ratio.
  pose proof (binade_below_16 (a * 10) d Hd ltac:(lia)) as Hb.
  assert (a * 10 < 16 * d) as Hlt by lia. specialize (Hb Hlt).
  set (e := Z.max (binade (a * 10) d - 52) (-1074)).
  assert (e <= -49) as He by (unfold e; lia).
  replace (0 <=? e) with false by (symmetry; apply Z.leb_gt; lia).
  unfold floor_double.
  replace (0 <=? e) with false by (symmetry; apply Z.leb_gt; lia).
  set (k := - e). assert (49 <= k) as Hk by (unfold k; lia).
  assert (2 ^ 49 <= 2 ^ k) as Hpow by (apply Z.pow_le_mono_r; lia).
  set (P := 2 ^ k) in *. change (2 ^ 49) with 562949953421312 in Hpow.
  pose proof (round_div_nonneg (a * 10 * P) d Hd ltac:(nia)) as Hm0.
  assert (round_div (a * 10 * P) d <= 10 * P - 1) as Hm.
  { apply round_div_le; [exact Hd|]. nia. }
  split.
  - apply Z.div_pos; lia.
  - apply Z.lt_succ_r, Z.div_lt_upper_bound; lia.
Qed.

End Doubles.

(** ** Durations *)

Section ParseExpiry.
Import AuthUtils.

Lemma parseInt_from_app ds1 ds2 : ∀ acc,
  parseInt_from acc (ds1 +:+ ds2) = parseInt_from (parseInt_from acc ds1) ds2.
Proof.
  induction ds1 as [|c ds1 IH]; intros acc; [reflexivity|].
  rewrite append_cons. simpl. apply IH.
Qed.

Lemma pow10_succ (n : nat) : 10 ^ Z.of_nat (n + 1) = 10 * 10 ^ Z.of_nat n.
Proof. rewrite Nat2Z.inj_add, Z.pow_add_r by lia. simpl Z.of_nat. lia. Qed.

Lemma denotes_parseInt ds n :
  denotes ds n -> ∀ acc,
  parseInt_from acc ds = acc * 10 ^ Z.of_nat (String.length ds) + n.
Proof.
  induction 1 as [c Hc|ds c n Hd IH Hc]; intros acc.
  - simpl. lia.
  - rewrite parseInt_from_app, IH. simpl parseInt_from.
    rewrite length_append. simpl String.length. rewrite pow10_succ. lia.
Qed.

Lemma denotes_nonempty ds n : denotes ds n -> ds ≠ EmptyString.
Proof.
  destruct 1 as [c Hc|ds c n Hd Hc]; [discriminate|].
  destruct ds; discriminate.
Qed.

Lemma denotes_span ds n :
  denotes ds n -> ∀ tl, span_digits (ds +:+ tl) =
    (ds +:+ fst (span_digits tl), snd (span_digits tl)).
Proof.
  induction 1 as [c Hc|ds c n Hd IH Hc]; intros tl.
  - rewrite append_cons, append_nil_l. simpl. rewrite Hc.
    destruct (span_digits tl); reflexivity.
  - rewrite append_assoc, IH. rewrite append_cons, append_nil_l.
    simpl. rewrite Hc. destruct (span_digits tl) as [a b]. simpl.
    now rewrite append_assoc.
Qed.

Lemma denotes_cons c ds n :
  is_digit c = true -> denotes ds n ->
  denotes (String c ds) (digit_value c * 10 ^ Z.of_nat (String.length ds) + n).
Proof.
  intros Hc H. induction H as [c' Hc'|ds c' n Hd IH Hc'].
  - change (String c (String c' EmptyString))
      with (String c EmptyString +:+ String c' EmptyString).
    replace (digit_value c * 10 ^ Z.of_nat (String.length (String c' EmptyString))
             + digit_value c') with (10 * digit_value c + digit_value c')
      by (simpl; lia).
    constructor; [constructor|]; assumption.
  - rewrite <- append_cons.
    rewrite length_append. simpl String.length. rewrite pow10_succ.
    replace (digit_value c * (10 * 10 ^ Z.of_nat (String.length ds))
             + (10 * n + digit_value c'))
      with (10 * (digit_value c * 10 ^ Z.of_nat (String.length ds) + n)
            + digit_value c') by lia.
    constructor; assumption.
Qed.

Lemma span_digits_denotes s : ∀ ds tl,
  span_digits s = (ds, tl) -> ds ≠ EmptyString ->
  s = ds +:+ tl ∧ ∃ n, denotes ds n.
Proof.
  induction s as [|c s IH]; intros ds tl; simpl.
  - intros [= <- <-] Hne. contradiction.
  - destruct (is_digit c) eqn:Hc.
    + destruct (span_digits s) as [ds' tl'] eqn:Hs. intros [= <- <-] _.
      destruct ds' as [|c' ds'].
      * assert (s = tl') as ->.
        { destruct s as [|c0 s0]; simpl in Hs.
          - now injection Hs.
          - destruct (is_digit c0); [destruct (span_digits s0)|];
              now injection Hs. }
        split; [reflexivity|]. eexists. now constructor.
      * destruct (IH _ _ eq_refl) as [-> [n Hd]]; [discriminate|].
        split; [reflexivity|]. eexists. apply (denotes_cons c _ _ Hc Hd).
    + intros [= <- <-] Hne. contradiction.
Qed.

Lemma unit_of_ascii_in u unit :
  unit_of_ascii u = Some unit ->
  String u EmptyString ∈ ["s"; "m"; "h"; "d"].
Proof.
  unfold unit_of_ascii.
  destruct (Ascii.eqb u "s") eqn:E1; [apply Ascii.eqb_eq in E1; subst; set_solver|].
  destruct (Ascii.eqb u "m") eqn:E2; [apply Ascii.eqb_eq in E2; subst; set_solver|].
  destruct (Ascii.eqb u "h") eqn:E3; [apply Ascii.eqb_eq in E3; subst; set_solver|].
  destruct (Ascii.eqb u "d") eqn:E4; [apply Ascii.eqb_eq in E4; subst; set_solver|].
  discriminate.
Qed.

Lemma unit_not_digit u unit : unit_of_ascii u = Some unit -> is_digit u = false.
Proof.
  unfold unit_of_ascii.
  destruct (Ascii.eqb u "s") eqn:E1; [apply Ascii.eqb_eq in E1; now subst|].
  destruct (Ascii.eqb u "m") eqn:E2; [apply Ascii.eqb_eq in E2; now subst|].
  destruct (Ascii.eqb u "h") eqn:E3; [apply Ascii.eqb_eq in E3; now subst|].
  destruct (Ascii.eqb u "d") eqn:E4; [apply Ascii.eqb_eq in E4; now subst|].
  discriminate.
Qed.

Lemma match_expiry_form s ds unit :
  match_expiry s = Some (ds, unit) -> duration_form s.
Proof.
  unfold match_expiry. destruct (span_digits s) as [ds' tl] eqn:Hs.
  destruct ds' as [|c ds']; [discriminate|].
  destruct tl as [|u [|? ?]]; try discriminate.
  destruct (unit_of_ascii u) as [unit'|] eqn:Hu; [|discriminate].
  intros _.
  destruct (span_digits_denotes _ _ _ Hs) as [-> [n Hd]]; [discriminate|].
  exists (String c ds'), n, (String u EmptyString).
  split; [exact Hd|]. split; [reflexivity|]. eapply unit_of_ascii_in, Hu.
Qed.

Lemma match_expiry_denotes ds n u unit :
  denotes ds n -> unit_of_ascii u = Some unit ->
  match_expiry (ds +:+ String u EmptyString) = Some (ds, unit).
Proof.
  intros Hd Hu. unfold match_expiry. rewrite (denotes_span _ _ Hd).
  simpl. rewrite (unit_not_digit _ _ Hu). simpl. rewrite append_nil_r.
  pose proof (denotes_nonempty _ _ Hd).
  destruct ds; [contradiction|]. now rewrite Hu.
Qed.

Lemma parseInt_denotes ds n : denotes ds n -> parseInt ds = n.
Proof.
  intros Hd. unfold parseInt. rewrite (denotes_parseInt _ _ Hd). lia.
Qed.

Lemma denotes_nonneg_value ds n : denotes ds n -> 0 <= n.
Proof.
  assert (∀ c, is_digit c = true -> 0 <= digit_value c) as Hdigit.
  { intros c Hc. unfold is_digit in Hc. unfold digit_value.
    apply andb_true_iff in Hc as [Hc _]. apply Z.leb_le in Hc. lia. }
  induction 1 as [c Hc|ds c n Hd IH Hc]; [now apply Hdigit|].
  specialize (Hdigit c Hc). lia.
Qed.

Lemma multipliers_positive unit : 1 <= multipliers unit.
Proof. destruct unit; simpl; lia. Qed.

(** What [parseExpiry] computes on a string of the form: the product,
    rounded twice. *)
Lemma parseExpiry_rounded ds n u unit :
  denotes ds n -> unit_of_ascii u = Some unit ->
  parseExpiry (ds +:+ String u EmptyString)
  = Returned (number_mul (to_double n) (multipliers unit)).
Proof.
  intros Hd Hu. unfold parseExpiry.
  rewrite (match_expiry_denotes _ _ _ _ Hd Hu).
  unfold parseInt10. now rewrite (parseInt_denotes _ _ Hd).
Qed.

Lemma parseExpiry_denotes ds n u unit :
  denotes ds n -> unit_of_ascii u = Some unit ->
  n * multipliers unit <= 2 ^ 53 ->
  parseExpiry (ds +:+ String u EmptyString)
  = Returned (Finite (n * multipliers unit)).
Proof.
  intros Hd Hu Hle. rewrite (parseExpiry_rounded _ _ _ _ Hd Hu).
  pose proof (denotes_nonneg_value _ _ Hd) as Hn.
  pose proof (multipliers_positive unit) as Hm.
  rewrite to_double_exact by nia. simpl number_mul.
  rewrite to_double_exact by nia. reflexivity.
Qed.

Lemma duration_form_match s : duration_form s -> is_Some (match_expiry s).
Proof.
  intros (ds & n & u & Hd & -> & Hu).
  repeat (apply elem_of_cons in Hu as [->|Hu];
          [erewrite match_expiry_denotes; eauto; reflexivity|]).
  now apply elem_of_nil in Hu.
Qed.

(** C6, as amended. For every string [<decimal integer n><unit>] with unit
    s, m, h or d, [parseExpiry] returns n, n*60, n*3600 or n*86400 seconds
    as doubles give them: [n] rounded to the nearest double, and the
    product rounded again.  That is the number of seconds itself whenever
    it is at most 2^53.  For every string that is not of the form
    [parseExpiry] throws the error "Invalid expiry format" and returns no
    value. *)
Theorem parseExpiry_correct :
  (∀ ds n, denotes ds n ->
     parseExpiry (ds +:+ "s") = Returned (number_mul (to_double n) 1)
     ∧ parseExpiry (ds +:+ "m") = Returned (number_mul (to_double n) 60)
     ∧ parseExpiry (ds +:+ "h") = Returned (number_mul (to_double n) 3600)
     ∧ parseExpiry (ds +:+ "d") = Returned (number_mul (to_double n) 86400))
  ∧ (∀ ds n, denotes ds n ->
       (n * 1 <= 2 ^ 53 ->
        parseExpiry (ds +:+ "s") = Returned (Finite (n * 1)))
       ∧ (n * 60 <= 2 ^ 53 ->
          parseExpiry (ds +:+ "m") = Returned (Finite (n * 60)))
       ∧ (n * 3600 <= 2 ^ 53 ->
          parseExpiry (ds +:+ "h") = Returned (Finite (n * 3600)))
       ∧ (n * 86400 <= 2 ^ 53 ->
          parseExpiry (ds +:+ "d") = Returned (Finite (n * 86400))))
  ∧ (∀ s, ¬ duration_form s ->
       parseExpiry s = Threw (Error ("Invalid expiry format: " +:+ s))).
Proof.
  split; [|split].
  - intros ds n Hd. repeat split.
    + apply (parseExpiry_rounded ds n "s" unit_s Hd eq_refl).
    + apply (parseExpiry_rounded ds n "m" unit_m Hd eq_refl).
    + apply (parseExpiry_rounded ds n "h" unit_h Hd eq_refl).
    + apply (parseExpiry_rounded ds n "d" unit_d Hd eq_refl).
  - intros ds n Hd. repeat split.
    + apply (parseExpiry_denotes ds n "s" unit_s Hd eq_refl).
    + apply (parseExpiry_denotes ds n "m" unit_m Hd eq_refl).
    + apply (parseExpiry_denotes ds n "h" unit_h Hd eq_refl).
    + apply (parseExpiry_denotes ds n "d" unit_d Hd eq_refl).
  - intros s Hs. unfold parseExpiry.
    destruct (match_expiry s) as [[ds unit]|] eqn:Hm; [|reflexivity].
    exfalso. apply Hs. eapply match_expiry_form, Hm.
Qed.

Lemma parseExpiry_correct_witness :
  denotes "15" 15
  ∧ parseExpiry "15m" = Returned (Finite (15 * 60))
  ∧ ¬ duration_form "15"
  ∧ parseExpiry "15" = Threw (Error "Invalid expiry format: 15").
Proof.
  assert (denotes "15" 15) as Hd.
  { apply (denotes_snoc "1" "5" 1); [apply (denotes_digit "1")|]; reflexivity. }
  assert (¬ duration_form "15") as Hn.
  { intros H. apply duration_form_match in H. destruct H as [x H].
    vm_compute in H. discriminate H. }
  split; [exact Hd|]. split.
  - apply (proj1 (proj2 (proj1 (proj2 parseExpiry_correct) "15" 15 Hd))).
    vm_compute. discriminate.
  - split; [exact Hn|]. apply (proj2 (proj2 parseExpiry_correct) "15" Hn).
Defined.

(** C6, the claim as it is written fails above 2^53, where the seconds
    are rounded: the numeral 9007199254740993, which is 2^53 + 1, reads
    as 2^53, and 17592186044417 days, a numeral below 2^53, give 128
    seconds more than the product. *)
Lemma parseExpiry_rounds :
  denotes "9007199254740993" 9007199254740993
  ∧ parseExpiry "9007199254740993s" = Returned (Finite 9007199254740992)
  ∧ parseExpiry "9007199254740993s"
     ≠ Returned (Finite (9007199254740993 * 1))
  ∧ denotes "17592186044417" 17592186044417
  ∧ parseExpiry "17592186044417d" = Returned (Finite 1519964874237628928)
  ∧ parseExpiry "17592186044417d"
     ≠ Returned (Finite (17592186044417 * 86400)).
Proof.
  assert (∀ s, (∃ n, denotes s n) -> denotes s (parseInt s)) as Hd.
  { intros s [n H]. now rewrite (parseInt_denotes _ _ H). }
  assert (∀ s, fst (span_digits s) = s -> s ≠ EmptyString ->
               ∃ n, denotes s n) as Hspan.
  { intros s Hs Hne.
    destruct (span_digits s) as [ds tl] eqn:E. simpl in Hs. subst ds.
    destruct (span_digits_denotes _ _ _ E Hne) as [_ H]. exact H. }
  split; [apply (Hd "9007199254740993"), Hspan; [reflexivity|discriminate]|].
  split; [vm_compute; reflexivity|].
  split; [vm_compute; discriminate|].
  split; [apply (Hd "17592186044417"), Hspan; [reflexivity|discriminate]|].
  split; [vm_compute; reflexivity|]. vm_compute. discriminate.
Qed.

Example parseExpiry_7d : parseExpiry "7d" = Returned (Finite 604800).
Proof. reflexivity. Qed.

Example parseExpiry_leading_zero :
  parseExpiry "007h" = Returned (Finite 25200).
Proof. reflexivity. Qed.

(** A numeral of 310 digits is read as [Infinity]. *)
Example parseExpiry_overflow :
  parseExpiry (String "1" (string_of_list_ascii (repeat "0"%char 309))
               +:+ "s")
  = Returned Infinity.
Proof. vm_compute. reflexivity. Qed.

Example parseExpiry_negative :
  parseExpiry "-5m" = Threw (Error "Invalid expiry format: -5m").
Proof. reflexivity. Qed.

Example parseExpiry_two_units :
  parseExpiry "5ms" = Threw (Error "Invalid expiry format: 5ms").
Proof. reflexivity. Qed.

End ParseExpiry.

(** ** Expiry arithmetic *)

Section Expiry.
Import AuthUtils.

Lemma getTimeToExpiry_nonneg now payload : 0 <= getTimeToExpiry now payload.
Proof. unfold getTimeToExpiry. lia. Qed.

Lemma isTokenExpired_iff now payload :
  isTokenExpired now payload = true <-> exp payload < now.
Proof. unfold isTokenExpired. apply Z.ltb_lt. Qed.

Lemma shouldRefreshToken_iff now payload thresholdSeconds :
  shouldRefreshToken now payload thresholdSeconds = true
  <-> Z.max 0 (exp payload - now) <= thresholdSeconds.
Proof. unfold shouldRefreshToken, getTimeToExpiry. apply Z.leb_le. Qed.

(** C3. [isTokenExpired] answers [true] exactly when [exp] is strictly
    before the current time: at the second [now = exp], which the claim
    counts as expired, it still answers [false]. *)
Theorem isTokenExpired_boundary :
  ∀ now payload,
    (isTokenExpired now payload = true <-> exp payload < now)
    ∧ isTokenExpired (exp payload) payload = false
    ∧ isTokenExpired (exp payload - 1) payload = false.
Proof.
  intros now payload. split; [apply isTokenExpired_iff|].
  unfold isTokenExpired. split; apply Z.ltb_ge; lia.
Qed.






Lemma isTokenExpired_boundary_witness :
  isTokenExpired 1900 Examples.expiring_payload = false
  ∧ isTokenExpired 1901 Examples.expiring_payload = true.
Proof.
  split.
  - apply (proj1 (proj2 (isTokenExpired_boundary 0 Examples.expiring_payload))).
  - apply (proj1 (isTokenExpired_boundary 1901 Examples.expiring_payload)).
    simpl. lia.
Defined.

End Expiry.

(** ** The random generators *)

Section Generators.
Import AuthUtils.

Lemma generateRandomString_csprng length :
  csprng_only (Utils.generateRandomString length).
Proof. unfold Utils.generateRandomString. constructor. intros. constructor. Qed.

Lemma to_hex_length bytes :
  String.length (Utils.to_hex bytes) = (2 * List.length bytes)%nat.
Proof.
  induction bytes as [|b bytes IH]; [reflexivity|].
  simpl Utils.to_hex. unfold Utils.hex_of_byte.
  rewrite !append_cons, append_nil_l. simpl. rewrite IH. lia.
Qed.

Lemma generateVerificationCode_weak n code secure1 secure2 weak :
  Utils.run (Utils.generateVerificationCode_loop n code) secure1 weak
  = Utils.run (Utils.generateVerificationCode_loop n code) secure2 weak.
Proof.
  revert code weak. induction n as [|n IH]; intros code weak; [reflexivity|].
  simpl. destruct weak as [|r weak]; apply IH.
Qed.

(** C7. The e-mail verification token, the password reset token, the
    session identifier and the CSRF token take all their randomness from
    [crypto.randomBytes]; the 6-digit phone verification code does not: it
    asks [Math.random], and is a function of its answers alone. *)
Theorem generators_randomness :
  csprng_only generateEmailVerificationToken
  ∧ csprng_only generatePasswordResetToken
  ∧ csprng_only generateSessionId
  ∧ csprng_only generateCsrfToken
  ∧ ¬ csprng_only generatePhoneVerificationCode
  ∧ (∀ secure1 secure2 weak,
       Utils.run generatePhoneVerificationCode secure1 weak
       = Utils.run generatePhoneVerificationCode secure2 weak).
Proof.
  do 4 (split; [apply generateRandomString_csprng|]). split.
  - intros H. inversion H.
  - intros. apply generateVerificationCode_weak.
Qed.

End Generators.

(** ** Objects *)

(** Closes [key ∉ keys] for literal strings. *)
Ltac not_a_key :=
  let H := fresh in
  intros H;
  repeat (apply elem_of_cons in H as [H|H]; [discriminate H|]);
  now apply elem_of_nil in H.

Section Objects.

Lemma get_set_eq key v o : get key (set key v o) = Some v.
Proof.
  induction o as [|[k w] o IH]; simpl.
  - now rewrite String.eqb_refl.
  - destruct (String.eqb k key) eqn:E; simpl; rewrite E; [reflexivity|exact IH].
Qed.

Lemma get_set_ne key key' v o :
  key ≠ key' -> get key' (set key v o) = get key' o.
Proof.
  intros Hne. induction o as [|[k w] o IH]; simpl.
  - destruct (String.eqb key key') eqn:E; [|reflexivity].
    apply String.eqb_eq in E. contradiction.
  - destruct (String.eqb k key) eqn:E; simpl.
    + apply String.eqb_eq in E. subst k.
      destruct (String.eqb key key') eqn:E'; [|reflexivity].
      apply String.eqb_eq in E'. contradiction.
    + now rewrite IH.
Qed.

End Objects.

(** ** Issuing tokens *)

Section Issuing.
Import AuthUtils.
Variable crypto : Jwt.Crypto.
Variable ms : string -> option Z.

(** [jwt.sign] refuses a payload that has [exp] when the options have
    [expiresIn]. *)
Lemma sign_exp_and_expiresIn now payload secret iss aud span :
  Jwt.defined (get "exp" payload) = true ->
  ∃ e, Jwt.sign crypto ms now payload secret
         {| Jwt.sign_issuer := iss; Jwt.sign_audience := aud;
            Jwt.expiresIn := Some span |} = Threw e.
Proof.
  intros Hexp. unfold Jwt.sign.
  destruct (Jwt.check (negb (String.eqb secret "")) _) as [[]|e]; [|eauto].
  destruct (Jwt.check (negb (Jwt.defined (Jwt.createPrivateKey crypto secret))) _)
    as [[]|e]; [|eauto].
  destruct (Jwt.check (Jwt.number_if_present (get "iat" payload)) _)
    as [[]|e]; [|eauto].
  destruct (Jwt.check (Jwt.number_if_present (get "exp" payload)) _)
    as [[]|e]; [|eauto].
  destruct (Jwt.check (Jwt.number_if_present (get "nbf" payload)) _)
    as [[]|e]; [|eauto].
  simpl. rewrite Hexp. simpl. eauto.
Qed.

(** C1. [generateTokens] returns no token pair, whatever its inputs: it
    throws while the configuration is unset or an expiry string does not
    parse, and otherwise inside [jwt.sign], which is handed a payload that
    has [exp] together with the option [expiresIn]. *)
Theorem generateTokens_throws :
  ∀ st now user roles permissions,
    ∃ e, generateTokens crypto ms st now user roles permissions = Threw e.
Proof.
  intros st now user roles permissions. unfold generateTokens.
  destruct st as [c|]; [|simpl; eauto]. simpl.
  destruct (parseExpiry (accessTokenExpiry c)) as [a|e]; [|simpl; eauto].
  simpl. destruct (parseExpiry (refreshTokenExpiry c)) as [r|e]; [|simpl; eauto].
  simpl.
  destruct (sign_exp_and_expiresIn now
              (accessTokenPayload now a user roles permissions)
              (accessTokenSecret c) (Some (issuer c)) (Some (audience c))
              (accessTokenExpiry c) eq_refl) as [e He].
  rewrite He. simpl. eauto.
Qed.

(** Without [expiresIn], [jwt.sign] accepts the payloads of
    [generateTokens] under a secret that is no asymmetric key, and the
    token verifies until its [exp]. *)
Lemma sign_verify now0 now payload secret iss aud tok t e :
  Jwt.hmac_secret crypto secret ->
  Jwt.sign crypto ms now0 payload secret
    {| Jwt.sign_issuer := Some iss; Jwt.sign_audience := Some aud;
       Jwt.expiresIn := None |} = Returned tok ->
  get "iat" payload = Some (JNum t) ->
  get "exp" payload = Some (JNum e) -> now < e ->
  get "nbf" payload = None ->
  ∃ claims,
    Jwt.verify crypto now tok secret
      {| Jwt.verify_issuer := iss; Jwt.verify_audience := aud |}
    = Returned (JObj claims)
    ∧ get "iss" claims = Some (JStr iss)
    ∧ get "aud" claims = Some (JStr aud)
    ∧ ∀ key, key ∉ ["iat"; "aud"; "iss"] -> get key claims = get key payload.
Proof.
  intros [Hpublic Hmac] Hsign Hiat Hexp Hnow Hnbf. unfold Jwt.sign in Hsign.
  destruct (String.eqb secret "") eqn:Hsecret; [discriminate|]. simpl in Hsign.
  destruct (Jwt.defined (Jwt.createPrivateKey crypto secret)); [discriminate|].
  simpl in Hsign.
  destruct (Jwt.number_if_present (get "iat" payload)); [|discriminate].
  simpl in Hsign.
  destruct (Jwt.number_if_present (get "exp" payload)); [|discriminate].
  simpl in Hsign.
  destruct (Jwt.number_if_present (get "nbf" payload)); [|discriminate].
  simpl in Hsign. rewrite andb_false_r in Hsign. simpl in Hsign.
  unfold Jwt.timestamp_of in Hsign. rewrite Hiat in Hsign.
  set (timestamp := if t =? 0 then Finite now0 else Finite t) in Hsign.
  assert (∃ t', number_json timestamp = JNum t') as [t' Ht'].
  { unfold timestamp. destruct (t =? 0); eexists; reflexivity. }
  rewrite Ht' in Hsign.
  set (p1 := set "iat" (JNum t') payload) in Hsign.
  unfold Jwt.option_to_payload in Hsign.
  destruct (Jwt.defined (get "aud" p1)) eqn:Haud; [discriminate|].
  simpl in Hsign.
  destruct (Jwt.defined (get "iss" (set "aud" (JStr aud) p1))) eqn:Hiss;
    [discriminate|].
  simpl in Hsign. injection Hsign as <-.
  set (claims := set "iss" (JStr iss) (set "aud" (JStr aud) p1)).
  assert (∀ key, key ∉ ["iat"; "aud"; "iss"] -> get key claims = get key payload)
    as Hkeep.
  { intros key Hkey. unfold claims, p1.
    rewrite !get_set_ne; [reflexivity|..]; intros <-; apply Hkey; set_solver. }
  assert (get "iss" claims = Some (JStr iss)) as Hi by apply get_set_eq.
  assert (get "aud" claims = Some (JStr aud)) as Ha.
  { unfold claims. rewrite get_set_ne by discriminate. apply get_set_eq. }
  exists claims. split; [|auto].
  set (header := JObj [("alg", JStr "HS256"); ("typ", JStr "JWT")]).
  destruct (Hmac header (JObj claims)) as [Hsigned Hvalid].
  unfold Jwt.verify.
  replace (String.eqb (Jwt.jws_sign crypto "HS256" secret header (JObj claims)) "")
    with false by (symmetry; now apply String.eqb_neq).
  rewrite Hsecret. simpl.
  unfold Jwt.algorithms_of, Jwt.key_valid. rewrite Hpublic. simpl.
  rewrite Hvalid. simpl.
  rewrite (Hkeep "nbf"), Hnbf by not_a_key.
  rewrite (Hkeep "exp"), Hexp by not_a_key.
  simpl. replace (e <=? now) with false by (symmetry; apply Z.leb_gt; lia).
  simpl. rewrite Ha, Hi. simpl. rewrite !String.eqb_refl, !orb_true_r.
  reflexivity.
Qed.

(** One second before [exp] a token signed for the configuration is
    accepted by [verifyAccessToken], with the claims it was signed over. *)
Lemma verifyAccessToken_before_exp c now0 payload tok t e :
  Jwt.hmac_secret crypto (accessTokenSecret c) ->
  Jwt.sign crypto ms now0 payload (accessTokenSecret c)
    {| Jwt.sign_issuer := Some (issuer c);
       Jwt.sign_audience := Some (audience c);
       Jwt.expiresIn := None |} = Returned tok ->
  get "iat" payload = Some (JNum t) ->
  get "exp" payload = Some (JNum e) -> get "nbf" payload = None ->
  ∃ claims,
    verifyAccessToken crypto (Some c) (e - 1) tok
    = Returned (Some (JObj claims))
    ∧ get "sub" claims = get "sub" payload
    ∧ get "roles" claims = get "roles" payload
    ∧ get "permissions" claims = get "permissions" payload.
Proof.
  intros Hkey Hsign Hiat Hexp Hnbf.
  destruct (sign_verify now0 (e - 1) payload _ _ _ tok t e Hkey Hsign Hiat
              Hexp ltac:(lia) Hnbf) as (claims & Hv & _ & _ & Hkeep).
  exists claims. unfold verifyAccessToken. simpl.
  unfold verify_options. rewrite Hv. simpl.
  split; [reflexivity|]. repeat split; apply Hkeep; not_a_key.
Qed.

End Issuing.

(** ** Verifying tokens *)

Section Verification.
Import AuthUtils.
Variable crypto : Jwt.Crypto.

Lemma bind_Returned {A B} (m : outcome A) (f : A -> outcome B) b :
  m ≫= f = Returned b -> ∃ a, m = Returned a ∧ f a = Returned b.
Proof. destruct m as [a|e]; [eauto|discriminate]. Qed.

Lemma check_Returned ok e u : Jwt.check ok e = Returned u -> ok = true.
Proof. now destruct ok. Qed.

Lemma verifyAccessToken_eq c now token :
  verifyAccessToken crypto (Some c) now token
  = match Jwt.verify crypto now token (accessTokenSecret c) (verify_options c)
    with
    | Returned decoded => Returned (Some decoded)
    | Threw _ => Returned None
    end.
Proof.
  unfold verifyAccessToken. simpl.
  now destruct (Jwt.verify crypto now token (accessTokenSecret c)
                  (verify_options c)).
Qed.

Lemma verifyRefreshToken_eq c now token :
  verifyRefreshToken crypto (Some c) now token
  = match Jwt.verify crypto now token (refreshTokenSecret c) (verify_options c)
    with
    | Returned decoded =>
        if is_string "refresh" (prop "type" decoded)
        then Returned (Some {| refresh_sub := prop "sub" decoded;
                               refresh_type := prop "type" decoded |})
        else Returned None
    | Threw _ => Returned None
    end.
Proof.
  unfold verifyRefreshToken. simpl.
  destruct (Jwt.verify crypto now token (refreshTokenSecret c)
              (verify_options c)) as [d|e]; simpl; [|reflexivity].
  now destruct (is_string "refresh" (prop "type" d)).
Qed.

(** C5. On every token string and in every state of the configuration,
    [verifyAccessToken] and [verifyRefreshToken] return, a decoded result
    or [null], and throw nothing; whatever makes [jwt.verify] fail, a
    missing discriminator and an unset configuration too, the result is
    the same [null]. *)
Theorem verification_recovers_locally :
  ∀ st now token,
    (∃ r, verifyAccessToken crypto st now token = Returned r)
    ∧ (∃ r, verifyRefreshToken crypto st now token = Returned r)
    ∧ (∀ c e, st = Some c ->
         Jwt.verify crypto now token (accessTokenSecret c) (verify_options c)
         = Threw e ->
         verifyAccessToken crypto st now token = Returned None)
    ∧ (∀ c e, st = Some c ->
         Jwt.verify crypto now token (refreshTokenSecret c) (verify_options c)
         = Threw e ->
         verifyRefreshToken crypto st now token = Returned None)
    ∧ (∀ c decoded, st = Some c ->
         Jwt.verify crypto now token (refreshTokenSecret c) (verify_options c)
         = Returned decoded ->
         is_string "refresh" (prop "type" decoded) = false ->
         verifyRefreshToken crypto st now token = Returned None)
    ∧ (st = None ->
         verifyAccessToken crypto st now token = Returned None
         ∧ verifyRefreshToken crypto st now token = Returned None).
Proof.
  intros st now token. repeat apply conj.
  - destruct st as [c|]; [|now eexists]. rewrite verifyAccessToken_eq.
    destruct (Jwt.verify _ _ _ _ _); now eexists.
  - destruct st as [c|]; [|now eexists]. rewrite verifyRefreshToken_eq.
    destruct (Jwt.verify _ _ _ _ _) as [d|]; [|now eexists].
    destruct (is_string _ _); now eexists.
  - intros c e -> He. now rewrite verifyAccessToken_eq, He.
  - intros c e -> He. now rewrite verifyRefreshToken_eq, He.
  - intros c d -> Hd Ht. now rewrite verifyRefreshToken_eq, Hd, Ht.
  - now intros ->.
Qed.

(** What a successful [jwt.verify] has checked. *)
Lemma verify_Returned now token secret options decoded :
  Jwt.verify crypto now token secret options = Returned decoded ->
  ∃ header signature alg,
    token = Jwt.Jws header decoded signature
    ∧ signature ≠ "" ∧ secret ≠ ""
    ∧ prop "alg" header = Some (JStr alg)
    ∧ alg ∈ Jwt.algorithms_of crypto secret
    ∧ Jwt.key_valid crypto alg secret = true
    ∧ Jwt.jws_verify crypto alg secret header decoded signature = true
    ∧ (∀ nbf, prop "nbf" decoded = Some (JNum nbf) -> nbf <= now)
    ∧ prop "nbf" decoded ≠ Some JInfinity
    ∧ (∀ e, prop "exp" decoded = Some (JNum e) -> now < e)
    ∧ (Jwt.verify_audience options ≠ "" ->
       Jwt.audience_matches (Jwt.verify_audience options) (prop "aud" decoded)
       = true)
    ∧ (Jwt.verify_issuer options ≠ "" ->
       prop "iss" decoded = Some (JStr (Jwt.verify_issuer options))).
Proof.
  destruct token as [text|header payload signature]; [discriminate|].
  unfold Jwt.verify. intros H.
  apply bind_Returned in H as ([] & _ & H).
  apply bind_Returned in H as ([] & Hsecret & H).
  apply bind_Returned in H as ([] & Hsigned & H).
  apply bind_Returned in H as ([] & Halg & H).
  apply bind_Returned in H as ([] & Hnbf & H).
  apply bind_Returned in H as ([] & Hexp & H).
  apply bind_Returned in H as ([] & Haud & H).
  apply bind_Returned in H as ([] & Hiss & H).
  injection H as <-.
  destruct (prop "alg" header) as [[| | |a| | |]|] eqn:Hheader;
    try discriminate.
  apply bind_Returned in Halg as ([] & Hin & Halg).
  apply bind_Returned in Halg as ([] & Hkey & Hsig).
  apply check_Returned in Hsig, Hkey, Hin, Haud, Hiss, Hsigned, Hsecret.
  apply negb_true_iff in Hsigned. rewrite Hsigned in Hsecret.
  simpl in Hsecret. apply negb_true_iff in Hsecret.
  exists header, signature, a. split; [reflexivity|].
  split; [now apply String.eqb_neq|]. split; [now apply String.eqb_neq|].
  split; [exact Hheader|]. split.
  { unfold Jwt.string_in in Hin. apply existsb_exists in Hin as (x & Hx & He).
    apply String.eqb_eq in He. subst x. now apply list_elem_of_In. }
  split; [exact Hkey|]. split; [exact Hsig|]. split.
  { intros nbf Hn. rewrite Hn in Hnbf. apply check_Returned in Hnbf.
    apply negb_true_iff, Z.ltb_ge in Hnbf. exact Hnbf. }
  split; [intros Hn; rewrite Hn in Hnbf; discriminate|]. split.
  { intros e He. rewrite He in Hexp. apply check_Returned in Hexp.
    apply negb_true_iff, Z.leb_gt in Hexp. exact Hexp. }
  split.
  - intros Hne. apply orb_true_iff in Haud as [Hempty|Hm]; [|exact Hm].
    now apply String.eqb_eq in Hempty.
  - intros Hne. apply orb_true_iff in Hiss as [Hempty|Hm].
    + now apply String.eqb_eq in Hempty.
    + unfold Jwt.issuer_matches in Hm.
      destruct (prop "iss" payload) as [[| | |i| | |]|]; try discriminate.
      apply String.eqb_eq in Hm. now subst i.
Qed.

Lemma verify_signed now token secret options decoded :
  Jwt.verify crypto now token secret options = Returned decoded ->
  ∃ header signature, token = Jwt.Jws header decoded signature.
Proof.
  intros H. apply verify_Returned in H as (h & g & a & -> & _). eauto.
Qed.

(** C2. [verifyAccessToken] reads no discriminator. When the access secret
    and the refresh secret are the same string, every token that
    [verifyRefreshToken] accepts as a refresh token is accepted by
    [verifyAccessToken] as well, which returns its claims, [type] equal to
    "refresh" included. *)
Theorem verifyAccessToken_accepts_refresh_token :
  ∀ c now token claims,
    accessTokenSecret c = refreshTokenSecret c ->
    verifyRefreshToken crypto (Some c) now token = Returned (Some claims) ->
    ∃ decoded,
      verifyAccessToken crypto (Some c) now token = Returned (Some decoded)
      ∧ prop "type" decoded = Some (JStr "refresh").
Proof.
  intros c now token claims Hsecret. rewrite verifyRefreshToken_eq.
  rewrite verifyAccessToken_eq, Hsecret.
  destruct (Jwt.verify crypto now token (refreshTokenSecret c)
              (verify_options c)) as [d|e]; [|discriminate].
  unfold is_string.
  destruct (prop "type" d) as [[| | |t| | |]|] eqn:Ht; try discriminate.
  destruct (String.eqb t "refresh") eqn:Et; [|discriminate].
  apply String.eqb_eq in Et. subst t. intros _. now exists d.
Qed.

(** A token without the discriminator is refused by [verifyRefreshToken],
    whatever the secrets. *)
Lemma verifyRefreshToken_rejects_access_token c now token decoded :
  verifyAccessToken crypto (Some c) now token = Returned (Some decoded) ->
  is_string "refresh" (prop "type" decoded) = false ->
  verifyRefreshToken crypto (Some c) now token = Returned None.
Proof.
  rewrite verifyRefreshToken_eq, verifyAccessToken_eq.
  destruct (Jwt.verify crypto now token (accessTokenSecret c) _) as [d|] eqn:Ha;
    [|discriminate].
  intros [= ->] Htype.
  destruct (Jwt.verify crypto now token (refreshTokenSecret c) _) as [d'|]
    eqn:Hr; [|reflexivity].
  apply verify_signed in Ha as (h & g & ->).
  apply verify_signed in Hr as (h' & g' & [= _ -> _]).
  now rewrite Htype.
Qed.

(** [jwt.verify] refuses a token from the second [exp] on. *)
Lemma verify_expired now header payload signature secret options e :
  prop "exp" payload = Some (JNum e) -> e <= now ->
  ∃ err,
    Jwt.verify crypto now (Jwt.Jws header payload signature) secret options
    = Threw err.
Proof.
  intros Hexp Hle.
  destruct (Jwt.verify crypto now (Jwt.Jws header payload signature) secret
              options) as [d|err] eqn:H; [|eauto].
  apply verify_Returned in H
    as (h & g & a & [= _ <- _] & _ & _ & _ & _ & _ & _ & _ & _ & Hlt & _).
  specialize (Hlt e Hexp). lia.
Qed.

Lemma verifyRefreshToken_expired st now header payload signature e :
  prop "exp" payload = Some (JNum e) -> e <= now ->
  verifyRefreshToken crypto st now (Jwt.Jws header payload signature)
  = Returned None.
Proof.
  intros Hexp Hle. destruct st as [c|]; [|reflexivity].
  rewrite verifyRefreshToken_eq.
  destruct (verify_expired now header payload signature (refreshTokenSecret c)
              (verify_options c) e Hexp Hle) as [err ->].
  reflexivity.
Qed.

Lemma verifyAccessToken_expired st now header payload signature e :
  prop "exp" payload = Some (JNum e) -> e <= now ->
  verifyAccessToken crypto st now (Jwt.Jws header payload signature)
  = Returned None.
Proof.
  intros Hexp Hle. destruct st as [c|]; [|reflexivity].
  rewrite verifyAccessToken_eq.
  destruct (verify_expired now header payload signature (accessTokenSecret c)
              (verify_options c) e Hexp Hle) as [err ->].
  reflexivity.
Qed.

End Verification.

(** ** Token identifiers *)

Section TokenIds.
Import AuthUtils.
Variable sha256_hex : Jwt.token -> string.

(** The hash is the answer for the strings that do not decode. *)
Lemma extractTokenId_malformed text :
  extractTokenId sha256_hex (Jwt.Malformed text)
  = Returned (Some (JStr (String.substring 0 16
                            (sha256_hex (Jwt.Malformed text))))).
Proof. reflexivity. Qed.

(** An identifier in the header is returned. *)
Lemma extractTokenId_header_jti header payload sig :
  truthy (prop "jti" header) = true ->
  extractTokenId sha256_hex (Jwt.Jws header payload sig)
  = Returned (prop "jti" header).
Proof.
  intros H. unfold extractTokenId. simpl. unfold or_else. now rewrite H.
Qed.

(** C8. For a token that decodes and whose header has no [jti] (the
    header [jwt.sign] writes has [alg] and [typ] only), [extractTokenId]
    returns [undefined] whatever the payload: not the identifier claim
    [jti] of the payload when there is one, and not the hash of the token
    when there is none.  The hash is returned for the strings that do not
    decode. *)
Theorem extractTokenId_decodable_undefined :
  ∀ header payload sig,
    prop "jti" header = None ->
    extractTokenId sha256_hex (Jwt.Jws header payload sig) = Returned None
    ∧ extractTokenId sha256_hex (Jwt.Jws header payload sig)
      ≠ Returned (Some (JStr (String.substring 0 16
                   (sha256_hex (Jwt.Jws header payload sig)))))
    ∧ (∀ id, prop "jti" payload = Some id ->
         extractTokenId sha256_hex (Jwt.Jws header payload sig)
         ≠ Returned (Some id)).
Proof.
  intros header payload sig H.
  assert (extractTokenId sha256_hex (Jwt.Jws header payload sig)
          = Returned None) as ->.
  { unfold extractTokenId. simpl. unfold or_else. now rewrite H. }
  repeat split; intros; discriminate.
Qed.

End TokenIds.

(** ** The role hierarchy resolver *)

Section Hierarchy.
Import Resolver.
Variable roleGraph : gmap string RoleNode.

Lemma walk_fuel fuel : ∀ visited role collected,
  (size (dom roleGraph ∖ visited) < fuel)%nat ->
  walk roleGraph fuel visited role collected ≠ Failed FuelExhausted.
Proof.
  induction fuel as [|fuel IH]; intros visited role collected Hsize; [lia|].
  simpl. destruct (decide (role ∈ visited)) as [Hin|Hnotin]; [discriminate|].
  destruct (roleGraph !! role) as [node|] eqn:Hrole; [|discriminate].
  destruct (parentRoleId (node_role node)) as [parent|]; [|discriminate].
  apply IH.
  assert (role ∈ dom roleGraph) as Hdom by (apply elem_of_dom; eauto).
  assert (dom roleGraph ∖ ({[role]} ∪ visited) ⊂ dom roleGraph ∖ visited)
    as Hsub by set_solver.
  apply subset_size in Hsub. lia.
Qed.

(** The bound does not shape the result: a walk that ends within its
    turns ends the same way with more of them. *)
Lemma walk_more_fuel fuel : ∀ extra visited role collected,
  walk roleGraph fuel visited role collected ≠ Failed FuelExhausted ->
  walk roleGraph (fuel + extra) visited role collected
  = walk roleGraph fuel visited role collected.
Proof.
  induction fuel as [|fuel IH]; intros extra visited role collected H;
    [now contradict H|].
  simpl in *. destruct (decide (role ∈ visited)); [reflexivity|].
  destruct (roleGraph !! role) as [node|]; [|reflexivity].
  destruct (parentRoleId (node_role node)); [|reflexivity].
  now apply IH.
Qed.

Lemma walk_enough_fuel role collected :
  walk roleGraph (S (size roleGraph)) ∅ role collected ≠ Failed FuelExhausted.
Proof.
  apply walk_fuel. rewrite difference_empty_L, size_dom. lia.
Qed.

Lemma grants_enough_fuel assignments :
  grants roleGraph (S (size roleGraph)) assignments ≠ Failed FuelExhausted.
Proof.
  induction assignments as [|a rest IH]; [discriminate|].
  cbn [grants]. pose proof (walk_enough_fuel (roleId a) []) as Hw.
  destruct (walk roleGraph (S (size roleGraph)) ∅ (roleId a) []) as [names|f].
  - destruct (grants roleGraph (S (size roleGraph)) rest) as [more|f];
      [discriminate|]. congruence.
  - congruence.
Qed.

Lemma ancestor_add a : ∀ b role,
  ancestor roleGraph (a + b) role
  = match ancestor roleGraph a role with
    | Some r => ancestor roleGraph b r
    | None => None
    end.
Proof.
  induction a as [|a IH]; intros b role; [reflexivity|].
  simpl. destruct (parent_of roleGraph role); [apply IH|reflexivity].
Qed.

Lemma ancestor_loop d r :
  ancestor roleGraph d r = Some r ->
  ∀ k, ancestor roleGraph (k * d) r = Some r.
Proof.
  intros Hd. induction k as [|k IH]; [reflexivity|].
  simpl. now rewrite ancestor_add, Hd.
Qed.

Lemma revisits_unending role :
  revisits roleGraph role -> ∀ n, is_Some (ancestor roleGraph n role).
Proof.
  intros (i & j & r & Hlt & Hi & Hj) n.
  assert (ancestor roleGraph (j - i) r = Some r) as Hd.
  { replace j with (i + (j - i))%nat in Hj by lia.
    now rewrite ancestor_add, Hi in Hj. }
  assert (ancestor roleGraph (i + n * (j - i)) role = Some r) as Hfar.
  { rewrite ancestor_add, Hi. now apply ancestor_loop. }
  replace (i + n * (j - i))%nat with (n + (i + n * (j - i) - n))%nat in Hfar
    by nia.
  rewrite ancestor_add in Hfar.
  destruct (ancestor roleGraph n role); [eauto|discriminate].
Qed.

Lemma walk_unending fuel : ∀ visited role collected names,
  (∀ n, is_Some (ancestor roleGraph n role)) ->
  walk roleGraph fuel visited role collected ≠ Ok names.
Proof.
  induction fuel as [|fuel IH]; intros visited role collected names Hchain;
    [discriminate|].
  simpl. destruct (decide (role ∈ visited)); [discriminate|].
  pose proof (Hchain 1%nat) as [p Hp]. simpl in Hp. unfold parent_of in Hp.
  destruct (roleGraph !! role) as [node|] eqn:Hrole; [|discriminate].
  destruct (parentRoleId (node_role node)) as [parent|] eqn:Hparent;
    [|discriminate].
  apply IH. intros k. specialize (Hchain (S k)). simpl in Hchain.
  unfold parent_of in Hchain. now rewrite Hrole, Hparent in Hchain.
Qed.

Lemma walk_cyclic role collected :
  revisits roleGraph role ->
  walk roleGraph (S (size roleGraph)) ∅ role collected
  = Failed CyclicRoleHierarchy.
Proof.
  intros Hrev.
  pose proof (walk_enough_fuel role collected) as Hfuel.
  pose proof (walk_unending (S (size roleGraph)) ∅ role collected) as Hok.
  destruct (walk roleGraph (S (size roleGraph)) ∅ role collected) as [names|[|]].
  - exfalso. eapply Hok; [now apply revisits_unending|reflexivity].
  - reflexivity.
  - congruence.
Qed.

Lemma grants_cyclic assignments a :
  a ∈ assignments -> revisits roleGraph (roleId a) ->
  grants roleGraph (S (size roleGraph)) assignments
  = Failed CyclicRoleHierarchy.
Proof.
  intros Hin Hrev. induction assignments as [|b rest IH];
    [now apply elem_of_nil in Hin|].
  cbn [grants]. apply elem_of_cons in Hin as [<-|Hin].
  - now rewrite walk_cyclic.
  - pose proof (walk_enough_fuel (roleId b) []) as Hw.
    destruct (walk roleGraph (S (size roleGraph)) ∅ (roleId b) [])
      as [names|[|]]; [|reflexivity|congruence].
    now rewrite IH.
Qed.

(** C4. [resolveEffectivePermissions] comes to an end on every input: it
    returns a resolution or fails with [CyclicRoleHierarchy], and its
    bounded walk never runs out of turns.  When the parent chain of the
    role of an assignment it considers comes back to a role it has been
    at, the result is the failure [CyclicRoleHierarchy]. *)
Theorem resolveEffectivePermissions_terminates :
  ∀ userId assignments permissionCatalog now,
    ((∃ resolution,
        resolveEffectivePermissions userId assignments roleGraph
          permissionCatalog now = Ok resolution)
     ∨ resolveEffectivePermissions userId assignments roleGraph
         permissionCatalog now = Failed CyclicRoleHierarchy)
    ∧ (∀ a, a ∈ assignments -> effective now a = true ->
         well_scoped a = true -> revisits roleGraph (roleId a) ->
         resolveEffectivePermissions userId assignments roleGraph
           permissionCatalog now = Failed CyclicRoleHierarchy).
Proof.
  intros userId assignments permissionCatalog now.
  unfold resolveEffectivePermissions.
  set (considered := filter _ assignments). split.
  - pose proof (grants_enough_fuel considered) as Hfuel.
    destruct (grants roleGraph (S (size roleGraph)) considered) as [g|[|]];
      [left; eauto|now right|congruence].
  - intros a Hin Heff Hscope Hrev.
    rewrite (grants_cyclic considered a); [reflexivity| |exact Hrev].
    apply list_elem_of_filter. split; [|exact Hin].
    now rewrite Heff, Hscope.
Qed.

End Hierarchy.

(** ** The theorems at the sample data *)

Section Samples.
Import AuthUtils Examples.

Example generateTokens_sample :
  generateTokens sample_crypto sample_ms (Some shared_secret_config) 1000 passenger [] []
  = Threw (Error "Bad options.expiresIn option the payload already has an exp property.").
Proof. reflexivity. Qed.

Example generateTokens_unset :
  generateTokens sample_crypto sample_ms None 1000 passenger [] []
  = Threw (TypeError "Cannot read properties of undefined").
Proof. reflexivity. Qed.

(** [refresh_token] is what [jwt.sign] makes of [refreshTokenPayload] when
    it is not given [expiresIn]. *)
Example refresh_token_signed :
  Jwt.sign sample_crypto sample_ms 1000 (refreshTokenPayload 1000 (Finite 604800) passenger)
    (refreshTokenSecret shared_secret_config)
    {| Jwt.sign_issuer := Some (issuer shared_secret_config);
       Jwt.sign_audience := Some (audience shared_secret_config);
       Jwt.expiresIn := None |}
  = Returned refresh_token.
Proof. reflexivity. Qed.

Lemma verifyAccessToken_accepts_refresh_token_witness :
  accessTokenSecret shared_secret_config
  = refreshTokenSecret shared_secret_config
  ∧ verifyRefreshToken sample_crypto (Some shared_secret_config) 2000 refresh_token
    = Returned (Some {| refresh_sub := Some (JStr "user-1");
                        refresh_type := Some (JStr "refresh") |})
  ∧ ∃ decoded,
      verifyAccessToken sample_crypto (Some shared_secret_config) 2000 refresh_token
      = Returned (Some decoded)
      ∧ prop "type" decoded = Some (JStr "refresh").
Proof.
  split; [reflexivity|]. split; [reflexivity|].
  apply (verifyAccessToken_accepts_refresh_token sample_crypto
           shared_secret_config 2000
           refresh_token _ eq_refl eq_refl).
Defined.

Example verifyAccessToken_refresh_token :
  verifyAccessToken sample_crypto (Some shared_secret_config) 2000 refresh_token
  = Returned (Some (JObj [("sub", JStr "user-1"); ("type", JStr "refresh");
                          ("iat", JNum 1000); ("exp", JNum 605800);
                          ("aud", JStr "transport-api");
                          ("iss", JStr "transport-auth")])).
Proof. reflexivity. Qed.

(** [access_token] is what [jwt.sign] makes of [accessTokenPayload] when
    it is not given [expiresIn]. *)
Example access_token_signed :
  Jwt.sign sample_crypto sample_ms 1000
    (accessTokenPayload 1000 (Finite 900) passenger [passenger_role]
       [booking_create])
    (accessTokenSecret shared_secret_config)
    {| Jwt.sign_issuer := Some (issuer shared_secret_config);
       Jwt.sign_audience := Some (audience shared_secret_config);
       Jwt.expiresIn := None |}
  = Returned access_token.
Proof. reflexivity. Qed.

(** One second before [exp] the access token is accepted; at the second
    [exp] the verifier refuses it, as expired, while [isTokenExpired] does
    not yet call its payload expired. *)
Example expiry_second :
  (∃ claims,
     verifyAccessToken sample_crypto (Some shared_secret_config) 1899 access_token
     = Returned (Some claims)
     ∧ prop "sub" claims = Some (JStr "user-1")
     ∧ prop "roles" claims = Some (JArr [JStr "passenger"])
     ∧ prop "permissions" claims = Some (JArr [JStr "booking.create"]))
  ∧ Jwt.verify sample_crypto 1900 access_token (accessTokenSecret shared_secret_config)
      (verify_options shared_secret_config) = Threw (TokenExpiredError 1900)
  ∧ verifyAccessToken sample_crypto (Some shared_secret_config) 1900 access_token
    = Returned None
  ∧ isTokenExpired 1899 expiring_payload = false
  ∧ isTokenExpired 1900 expiring_payload = false
  ∧ isTokenExpired 1901 expiring_payload = true.
Proof.
  split; [eexists; repeat split; reflexivity|]. repeat split; reflexivity.
Qed.

(** The access token has no discriminator: [verifyRefreshToken] refuses
    it although the two secrets are the same. *)
Example verifyRefreshToken_access_token :
  verifyRefreshToken sample_crypto (Some shared_secret_config) 1500 access_token
  = Returned None.
Proof. reflexivity. Qed.

Lemma verification_recovers_locally_witness :
  Jwt.verify sample_crypto 2000 (Jwt.Malformed "not a token")
    (accessTokenSecret shared_secret_config)
    (verify_options shared_secret_config)
  = Threw (JsonWebTokenError "jwt malformed")
  ∧ verifyAccessToken sample_crypto (Some shared_secret_config) 2000
      (Jwt.Malformed "not a token") = Returned None
  ∧ verifyRefreshToken sample_crypto (Some shared_secret_config) 2000
      (Jwt.Malformed "not a token") = Returned None
  ∧ verifyRefreshToken sample_crypto (Some shared_secret_config) 1500 access_token
    = Returned None
  ∧ verifyAccessToken sample_crypto None 2000 refresh_token = Returned None.
Proof.
  pose proof (verification_recovers_locally sample_crypto (Some shared_secret_config) 2000
                (Jwt.Malformed "not a token")) as (_ & _ & Ha & Hr & _).
  pose proof (verification_recovers_locally sample_crypto (Some shared_secret_config) 1500
                access_token) as (_ & _ & _ & _ & Ht & _).
  pose proof (verification_recovers_locally sample_crypto None 2000 refresh_token)
    as (_ & _ & _ & _ & _ & Hn).
  split; [reflexivity|]. split; [|split; [|split]].
  - apply (Ha shared_secret_config _ eq_refl eq_refl).
  - apply (Hr shared_secret_config _ eq_refl eq_refl).
  - apply (Ht shared_secret_config _ eq_refl eq_refl eq_refl).
  - apply (Hn eq_refl).
Defined.

Lemma extractTokenId_decodable_undefined_witness :
  prop "jti" signed_header = None
  ∧ prop "jti" payload_with_jti = Some (JStr "token-42")
  ∧ extractTokenId sample_digest token_with_jti = Returned None
  ∧ extractTokenId sample_digest token_with_jti
    ≠ Returned (Some (JStr "token-42"))
  ∧ extractTokenId sample_digest token_without_jti = Returned None
  ∧ extractTokenId sample_digest token_without_jti
    ≠ Returned (Some (JStr "9f86d081884c7d65")).
Proof.
  assert (prop "jti" signed_header = None) as Hh by reflexivity.
  pose proof (extractTokenId_decodable_undefined sample_digest signed_header
                payload_with_jti "HS256.one-secret" Hh)
    as (Hwith & _ & Hid).
  pose proof (extractTokenId_decodable_undefined sample_digest signed_header
                payload_without_jti "HS256.one-secret" Hh)
    as (Hwithout & Hhash & _).
  split; [exact Hh|]. split; [reflexivity|]. split; [exact Hwith|].
  split; [exact (Hid _ eq_refl)|]. split; [exact Hwithout|exact Hhash].
Defined.

Example extractTokenId_undecodable :
  extractTokenId sample_digest (Jwt.Malformed "not a token")
  = Returned (Some (JStr "9f86d081884c7d65")).
Proof. reflexivity. Qed.

Example revisits_cyclic_graph : Resolver.revisits cyclic_graph "A".
Proof. exists 0%nat, 3%nat, "A". split; [lia|]. split; reflexivity. Qed.

Lemma resolveEffectivePermissions_terminates_witness :
  holds_A ∈ [holds_A]
  ∧ Resolver.effective 5000 holds_A = true
  ∧ Resolver.well_scoped holds_A = true
  ∧ Resolver.revisits cyclic_graph (roleId holds_A)
  ∧ Resolver.resolveEffectivePermissions "user-1" [holds_A] cyclic_graph ∅ 5000
    = Resolver.Failed Resolver.CyclicRoleHierarchy.
Proof.
  assert (Resolver.revisits cyclic_graph (roleId holds_A)) as Hrev.
  { exists 0%nat, 3%nat, "A". split; [lia|]. split; reflexivity. }
  split; [apply list_elem_of_here|]. split; [reflexivity|].
  split; [reflexivity|]. split; [exact Hrev|].
  apply (proj2 (resolveEffectivePermissions_terminates cyclic_graph "user-1"
                  [holds_A] ∅ 5000) holds_A
           (list_elem_of_here _ _) eq_refl eq_refl Hrev).
Defined.

Example resolve_cyclic_graph :
  Resolver.resolveEffectivePermissions "user-1" [holds_A] cyclic_graph ∅ 5000
  = Resolver.Failed Resolver.CyclicRoleHierarchy.
Proof. vm_compute. reflexivity. Qed.

Example resolve_chain_graph :
  ∃ resolution,
    Resolver.resolveEffectivePermissions "user-1" [holds_A] chain_graph ∅ 5000
    = Resolver.Ok resolution
    ∧ Resolver.effectivePermissions resolution
      = {["trip.override"; "trip.assign"; "trip.view"]}.
Proof. eexists. split; [reflexivity|]. vm_compute. reflexivity. Qed.

End Samples.

(** ** The authorization header *)

Section Header.
Import JsString Access.

Lemma free_of_cons sep c s :
  free_of sep (String c s) = negb (Ascii.eqb sep c) && free_of sep s.
Proof. unfold free_of, has_char. simpl. now rewrite negb_orb. Qed.

Lemma split_nonempty sep s : split sep s ≠ [].
Proof.
  induction s as [|c s IH]; [discriminate|]. simpl.
  destruct (Ascii.eqb c sep); [discriminate|].
  destruct (split sep s); [contradiction|discriminate].
Qed.

Lemma split_free sep s : free_of sep s = true -> split sep s = [s].
Proof.
  induction s as [|c s IH]; [reflexivity|].
  rewrite free_of_cons. intros [Hc Hs]%andb_true_iff. simpl.
  rewrite Ascii.eqb_sym. apply negb_true_iff in Hc. rewrite Hc.
  now rewrite (IH Hs).
Qed.

Lemma split_app sep a b :
  free_of sep a = true ->
  split sep (a +:+ String sep b) = a :: split sep b.
Proof.
  induction a as [|c a IH].
  - intros _. rewrite append_nil_l. simpl. now rewrite Ascii.eqb_refl.
  - rewrite free_of_cons. intros [Hc Ha]%andb_true_iff.
    rewrite append_cons. simpl. rewrite Ascii.eqb_sym.
    apply negb_true_iff in Hc. rewrite Hc. now rewrite (IH Ha).
Qed.

Lemma split_one sep s b :
  split sep s = [b] -> s = b ∧ free_of sep b = true.
Proof.
  revert b. induction s as [|c s IH]; intros b; simpl.
  - now intros [= <-].
  - destruct (Ascii.eqb c sep) eqn:Hc.
    + intros [= _ Hs]. now apply split_nonempty in Hs.
    + destruct (split sep s) as [|p ps] eqn:Hs.
      { now apply split_nonempty in Hs. }
      intros [= <- ->]. destruct (IH p eq_refl) as [-> Hp].
      split; [reflexivity|]. now rewrite free_of_cons, Ascii.eqb_sym, Hc.
Qed.

Lemma split_two sep s a b :
  split sep s = [a; b] ->
  s = a +:+ String sep b ∧ free_of sep a = true ∧ free_of sep b = true.
Proof.
  revert a. induction s as [|c s IH]; intros a; [discriminate|]. simpl.
  destruct (Ascii.eqb c sep) eqn:Hc.
  - apply Ascii.eqb_eq in Hc. subst c. intros [= <- Hs].
    apply split_one in Hs as [-> Hb]. now rewrite append_nil_l.
  - destruct (split sep s) as [|p ps] eqn:Hs; [discriminate|].
    intros [= <- ->]. destruct (IH p eq_refl) as (-> & Hp & Hb).
    split; [reflexivity|]. split; [|exact Hb].
    now rewrite free_of_cons, Ascii.eqb_sym, Hc.
Qed.

(** X1. [extractTokenFromHeader] returns a token exactly for the headers
    [Bearer], one space, and a text without spaces, and that text is the
    token; the text may be empty.  Any other header, the absent and the
    empty one too, gives [null]. *)
Theorem extractTokenFromHeader_bearer :
  ∀ authHeader token,
    extractTokenFromHeader authHeader = Some token
    <-> authHeader = Some ("Bearer " +:+ token) ∧ free_of " " token = true.
Proof.
  intros [h|] token; [|split; [discriminate|now intros [? _]]].
  split.
  - destruct h as [|c h]; [discriminate|]. unfold extractTokenFromHeader.
    destruct (split " " (String c h)) as [|scheme [|t [|? ?]]] eqn:Hs;
      try discriminate.
    destruct (String.eqb scheme "Bearer") eqn:Hb; [|discriminate].
    apply String.eqb_eq in Hb. subst scheme. intros [= <-].
    apply split_two in Hs as (-> & _ & Ht). now split.
  - intros [[= ->] Ht].
    change ("Bearer " +:+ token) with ("Bearer" +:+ String " " token).
    unfold extractTokenFromHeader.
    change ("Bearer" +:+ String " " token)
      with (String "B" ("earer" +:+ String " " token)) at 1.
    cbv iota beta.
    change (String "B" ("earer" +:+ String " " token))
      with ("Bearer" +:+ String " " token).
    rewrite split_app by reflexivity. rewrite (split_free _ _ Ht).
    reflexivity.
Qed.

End Header.

(** ** Role and permission checks *)

Section Checks.
Import Access.

Lemma includes_elem_of array x : includes array x = true <-> x ∈ array.
Proof.
  unfold includes. rewrite existsb_exists. split.
  - intros (y & Hy & ->%String.eqb_eq). now apply list_elem_of_In.
  - intros H. exists x. split; [now apply list_elem_of_In|apply String.eqb_refl].
Qed.

(** X2. [hasAllRoles] holds exactly when every role asked for is among the
    roles of the payload, and [hasAnyRole] exactly when one is; so with no
    role asked for the first holds and the second fails, each agrees with
    [hasRole] on a single role, and a list that is not empty and passes
    [hasAllRoles] passes [hasAnyRole]. *)
Theorem role_checks :
  ∀ payload wanted,
    (hasAllRoles payload wanted = true
     <-> ∀ role, role ∈ wanted -> role ∈ roles payload)
    ∧ (hasAnyRole payload wanted = true
       <-> ∃ role, role ∈ wanted ∧ role ∈ roles payload)
    ∧ hasAllRoles payload [] = true
    ∧ hasAnyRole payload [] = false
    ∧ (∀ role, hasAllRoles payload [role] = hasRole payload role
               ∧ hasAnyRole payload [role] = hasRole payload role)
    ∧ (wanted ≠ [] -> hasAllRoles payload wanted = true ->
       hasAnyRole payload wanted = true).
Proof.
  intros payload wanted.
  assert (hasAllRoles payload wanted = true
          <-> ∀ role, role ∈ wanted -> role ∈ roles payload) as Hall.
  { unfold hasAllRoles. rewrite forallb_forall. split.
    - intros H role Hin. apply includes_elem_of, H. now apply list_elem_of_In.
    - intros H role Hin. apply includes_elem_of, H. now apply list_elem_of_In. }
  assert (hasAnyRole payload wanted = true
          <-> ∃ role, role ∈ wanted ∧ role ∈ roles payload) as Hany.
  { unfold hasAnyRole. rewrite existsb_exists. split.
    - intros (role & Hin & H). exists role.
      split; [now apply list_elem_of_In|now apply includes_elem_of].
    - intros (role & Hin & H). exists role.
      split; [now apply list_elem_of_In|now apply includes_elem_of]. }
  split; [exact Hall|]. split; [exact Hany|].
  split; [reflexivity|]. split; [reflexivity|]. split.
  - intros role. unfold hasAllRoles, hasAnyRole, hasRole. simpl.
    now rewrite andb_true_r, orb_false_r.
  - intros Hne H. apply Hany. destruct wanted as [|role rest]; [contradiction|].
    exists role. split; [apply list_elem_of_here|].
    apply Hall; [exact H|apply list_elem_of_here].
Qed.

(** X3. The same for permissions: [hasAllPermissions] holds exactly when
    every permission asked for is in the payload, [hasAnyPermission]
    exactly when one is. *)
Theorem permission_checks :
  ∀ payload wanted,
    (hasAllPermissions payload wanted = true
     <-> ∀ permission, permission ∈ wanted -> permission ∈ permissions payload)
    ∧ (hasAnyPermission payload wanted = true
       <-> ∃ permission, permission ∈ wanted ∧ permission ∈ permissions payload)
    ∧ hasAllPermissions payload [] = true
    ∧ hasAnyPermission payload [] = false
    ∧ (∀ permission,
         hasAllPermissions payload [permission] = hasPermission payload permission
         ∧ hasAnyPermission payload [permission] = hasPermission payload permission)
    ∧ (wanted ≠ [] -> hasAllPermissions payload wanted = true ->
       hasAnyPermission payload wanted = true).
Proof.
  intros payload wanted.
  assert (hasAllPermissions payload wanted = true
          <-> ∀ p, p ∈ wanted -> p ∈ permissions payload) as Hall.
  { unfold hasAllPermissions. rewrite forallb_forall. split.
    - intros H p Hin. apply includes_elem_of, H. now apply list_elem_of_In.
    - intros H p Hin. apply includes_elem_of, H. now apply list_elem_of_In. }
  assert (hasAnyPermission payload wanted = true
          <-> ∃ p, p ∈ wanted ∧ p ∈ permissions payload) as Hany.
  { unfold hasAnyPermission. rewrite existsb_exists. split.
    - intros (p & Hin & H). exists p.
      split; [now apply list_elem_of_In|now apply includes_elem_of].
    - intros (p & Hin & H). exists p.
      split; [now apply list_elem_of_In|now apply includes_elem_of]. }
  split; [exact Hall|]. split; [exact Hany|].
  split; [reflexivity|]. split; [reflexivity|]. split.
  - intros p. unfold hasAllPermissions, hasAnyPermission, hasPermission. simpl.
    now rewrite andb_true_r, orb_false_r.
  - intros Hne H. apply Hany. destruct wanted as [|p rest]; [contradiction|].
    exists p. split; [apply list_elem_of_here|].
    apply Hall; [exact H|apply list_elem_of_here].
Qed.

End Checks.

(** ** Keys *)

Section Keys.
Import JsString Access.

Lemma append_sep_inj sep a1 b1 a2 b2 :
  free_of sep a1 = true -> free_of sep a2 = true ->
  a1 +:+ String sep b1 = a2 +:+ String sep b2 -> a1 = a2 ∧ b1 = b2.
Proof.
  intros H1 H2 Heq. pose proof (f_equal (split sep) Heq) as Hs.
  rewrite !split_app in Hs by assumption. injection Hs as -> _.
  split; [reflexivity|]. apply String.app_inj in Heq. now injection Heq.
Qed.

(** X4. On actions that hold no colon, [generateRateLimitKey] and
    [generateAttemptKey] are injective: equal keys come from the same
    identifier and the same action.  An action with a colon breaks this:
    two different pairs then share a key. *)
Theorem rate_limit_keys_injective :
  (∀ identifier1 action1 identifier2 action2,
     free_of ":" action1 = true -> free_of ":" action2 = true ->
     (generateRateLimitKey identifier1 action1
      = generateRateLimitKey identifier2 action2
      -> identifier1 = identifier2 ∧ action1 = action2)
     ∧ (generateAttemptKey identifier1 action1
        = generateAttemptKey identifier2 action2
        -> identifier1 = identifier2 ∧ action1 = action2))
  ∧ generateRateLimitKey "b" "login:a" = generateRateLimitKey "a:b" "login"
  ∧ generateAttemptKey "b" "login:a" = generateAttemptKey "a:b" "login".
Proof.
  split; [|split; reflexivity].
  intros i1 a1 i2 a2 H1 H2. unfold generateRateLimitKey, generateAttemptKey.
  split; intros Heq; apply String.app_inj in Heq;
    apply (append_sep_inj ":" a1 i1 a2 i2 H1 H2) in Heq as [-> ->]; now split.
Qed.

Lemma rate_limit_keys_injective_witness :
  free_of ":" "login" = true
  ∧ (generateRateLimitKey "user-1" "login" = generateRateLimitKey "user-1" "login"
     -> "user-1" = "user-1" ∧ "login" = "login").
Proof.
  split; [reflexivity|].
  apply (proj1 rate_limit_keys_injective "user-1" "login" "user-1" "login"
           eq_refl eq_refl).
Defined.

(** X5. The three kinds of key never meet: whatever the arguments, a rate
    limit key, an attempt key and a blacklist key are three different
    strings; and [generateBlacklistKey] is injective. *)
Theorem key_namespaces :
  ∀ identifier action identifier' action' tokenId tokenId',
    generateRateLimitKey identifier action
      ≠ generateAttemptKey identifier' action'
    ∧ generateRateLimitKey identifier action ≠ generateBlacklistKey tokenId
    ∧ generateAttemptKey identifier' action' ≠ generateBlacklistKey tokenId
    ∧ (generateBlacklistKey tokenId = generateBlacklistKey tokenId'
       -> tokenId = tokenId').
Proof.
  intros i a i' a' t t'.
  repeat split; try (intros H; apply (f_equal (String.get 0)) in H;
                     vm_compute in H; discriminate H).
  unfold generateBlacklistKey. intros H. now apply String.app_inj in H.
Qed.

End Keys.

(** ** Password rules *)

Section PasswordRules.
Import JsString Password.

Lemma push_if_nil test message errors :
  push_if test message errors = [] <-> test = false ∧ errors = [].
Proof.
  unfold push_if. destruct test.
  - split; [|now intros [? _]]. intros H. now destruct errors.
  - split; [now intros ->|now intros [_ ->]].
Qed.

Lemma has_char_cons class c s :
  has_char class (String c s) = class c || has_char class s.
Proof. reflexivity. Qed.

(** A string of one repeated character has all its characters in a
    class or none. *)
Lemma repeated_character_class class1 class2 s :
  repeated_character s = true ->
  has_char class1 s = true -> has_char class2 s = true ->
  ∃ c, class1 c = true ∧ class2 c = true.
Proof.
  destruct s as [|c [|d rest]]; try discriminate.
  unfold repeated_character. intros [_ Hall]%andb_true_iff H1 H2.
  assert (∀ class, has_char class (String c (String d rest)) = true ->
                   class c = true) as Hc.
  { intros class H. rewrite has_char_cons in H.
    apply orb_true_iff in H as [H|H]; [exact H|].
    unfold has_char in H. apply existsb_exists in H as (x & Hx & Hcx).
    rewrite forallb_forall in Hall. specialize (Hall x Hx).
    apply Ascii.eqb_eq in Hall. now subst x. }
  exists c. split; auto.
Qed.

Lemma lower_not_upper c : is_lower c = true -> is_upper c = true -> False.
Proof.
  unfold is_lower, is_upper, in_range.
  intros [H1 _]%andb_true_iff [_ H2]%andb_true_iff.
  apply Nat.leb_le in H1, H2. change (nat_of_ascii "a") with 97%nat in H1.
  change (nat_of_ascii "Z") with 90%nat in H2. lia.
Qed.

(** X6. [validatePasswordStrength] accepts a password exactly when it has 8
    to 128 characters, both bounds included, a lower-case letter, an
    upper-case letter, a digit and a special character, and begins, case
    ignored, with none of 123, abc, qwer, password, letmein, admin.  The
    pattern of one repeated character never decides: a password with a
    lower-case and an upper-case letter cannot match it. *)
Theorem validatePasswordStrength_accepts :
  ∀ password,
    (isValid (validatePasswordStrength password) = true
     <-> 8 <= Z.of_nat (String.length password) <= 128
         ∧ has_char is_lower password = true
         ∧ has_char is_upper password = true
         ∧ has_char is_digit password = true
         ∧ has_char is_special password = true
         ∧ common_sequence password = false
         ∧ common_password password = false)
    ∧ (isValid (validatePasswordStrength password) = true
       <-> errors (validatePasswordStrength password) = [])
    ∧ (has_char is_lower password = true ->
       has_char is_upper password = true ->
       repeated_character password = false).
Proof.
  intros password.
  assert (has_char is_lower password = true ->
          has_char is_upper password = true ->
          repeated_character password = false) as Hrep.
  { intros Hl Hu. destruct (repeated_character password) eqn:Hr; [|reflexivity].
    destruct (repeated_character_class _ _ _ Hr Hl Hu) as (c & H1 & H2).
    destruct (lower_not_upper c H1 H2). }
  assert (isValid (validatePasswordStrength password) = true
          <-> errors (validatePasswordStrength password) = []) as Hvalid.
  { unfold validatePasswordStrength. cbn [isValid errors].
    rewrite bool_decide_eq_true. split.
    - intros H. now apply length_zero_iff_nil.
    - now intros ->. }
  split; [|split; [exact Hvalid|exact Hrep]].
  rewrite Hvalid. unfold validatePasswordStrength. cbn [errors].
  rewrite !push_if_nil. unfold commonPatterns. cbn [existsb].
  rewrite !negb_false_iff, !orb_false_iff, Z.ltb_ge, Z.ltb_ge.
  split.
  - intros ((_ & Hs & Hp & _) & Hsp & Hd & Hu & Hl & Hmax & Hmin & _).
    repeat split; assumption || lia.
  - intros (Hlen & Hl & Hu & Hd & Hsp & Hs & Hp).
    repeat split; try assumption; try lia. now apply Hrep.
Qed.

End PasswordRules.

(** ** Arrays in chunks *)

Section Chunks.
Import JsString Collections.
Context {T : Type}.

Lemma slice_chunk (array : list T) (i size : nat) :
  (i < List.length array)%nat -> (0 < size)%nat ->
  slice array (Z.of_nat i) (Z.of_nat i + Z.of_nat size)
  = take size (drop i array).
Proof.
  intros Hi Hs. unfold slice, clamp_index.
  replace (Z.of_nat i <? 0) with false by (symmetry; apply Z.ltb_ge; lia).
  replace (Z.of_nat i + Z.of_nat size <? 0) with false
    by (symmetry; apply Z.ltb_ge; lia).
  replace (Z.to_nat (Z.min (Z.of_nat i) (Z.of_nat (List.length array))))
    with i by lia.
  destruct (decide (i + size <= List.length array)%nat) as [Hle|Hgt].
  - f_equal. lia.
  - rewrite !take_ge; [reflexivity|rewrite length_drop; lia|rewrite length_drop; lia].
Qed.

Lemma chunk_loop_enough (array : list T) (size : nat) :
  (0 < size)%nat ->
  ∀ fuel i chunks,
    (List.length array - i < fuel)%nat ->
    ∃ rest,
      chunk_loop fuel array (Z.of_nat size) (Z.of_nat i) chunks
      = Some (chunks ++ rest)
      ∧ List.concat rest = drop i array
      ∧ ∀ k c, rest !! k = Some c ->
               c = take size (drop (i + k * size) array)
               ∧ (i + k * size < List.length array)%nat.
Proof.
  intros Hs. induction fuel as [|fuel IH]; intros i chunks Hfuel; [lia|].
  simpl. destruct (Z.of_nat i <? Z.of_nat (List.length array)) eqn:Hi.
  - apply Z.ltb_lt in Hi.
    replace (Z.of_nat i + Z.of_nat size) with (Z.of_nat (i + size)) by lia.
    destruct (IH (i + size)%nat
                (chunks ++ [slice array (Z.of_nat i) (Z.of_nat (i + size))]))
      as (rest & Hrun & Hcat & Hk); [lia|].
    exists (slice array (Z.of_nat i) (Z.of_nat (i + size)) :: rest).
    split; [now rewrite Hrun, <- app_assoc|].
    replace (Z.of_nat (i + size)) with (Z.of_nat i + Z.of_nat size) by lia.
    rewrite slice_chunk by lia. split.
    + simpl. rewrite Hcat, <- drop_drop. apply take_drop.
    + intros [|k] c; simpl.
      * intros [= <-]. rewrite Nat.add_0_r. split; [reflexivity|lia].
      * intros Hc. destruct (Hk k c Hc) as [-> Hlt].
        replace (i + size + k * size)%nat with (i + (size + k * size))%nat by lia.
        split; [reflexivity|lia].
  - exists []. rewrite app_nil_r. apply Z.ltb_ge in Hi.
    split; [reflexivity|]. split.
    + rewrite drop_ge by lia. reflexivity.
    + intros k c Hc. discriminate Hc.
Qed.

Lemma chunk_loop_more_fuel (array : list T) size extra :
  ∀ fuel i chunks result,
    chunk_loop fuel array size i chunks = Some result ->
    chunk_loop (fuel + extra) array size i chunks = Some result.
Proof.
  induction fuel as [|fuel IH]; intros i chunks result; [discriminate|].
  simpl. destruct (i <? Z.of_nat (List.length array)); [apply IH|trivial].
Qed.

(** X7. For a size of at least one, the loop of [chunk] ends within as many
    turns as the array has elements, plus one, and with any more; the
    chunks, put end to end, are the array; chunk number [k] is the [size]
    elements from index [k * size] on (fewer at the end of the array), so
    no chunk is empty and none is longer than [size]. *)
Theorem chunk_partition :
  ∀ (array : list T) (size : nat),
    (0 < size)%nat ->
    ∃ chunks,
      (∀ fuel, (List.length array < fuel)%nat ->
               chunk fuel array (Z.of_nat size) = Some chunks)
      ∧ List.concat chunks = array
      ∧ (∀ k c, chunks !! k = Some c ->
                c = take size (drop (k * size) array)
                ∧ (0 < List.length c <= size)%nat).
Proof.
  intros array size Hs.
  destruct (chunk_loop_enough array size Hs (S (List.length array)) 0 [])
    as (chunks & Hrun & Hcat & Hk); [lia|].
  exists chunks. split; [|split].
  - intros fuel Hfuel.
    replace fuel with (S (List.length array) + (fuel - S (List.length array)))%nat
      by lia.
    apply chunk_loop_more_fuel. exact Hrun.
  - exact Hcat.
  - intros k c Hc. destruct (Hk k c Hc) as [-> Hlt]. simpl in *.
    split; [reflexivity|]. rewrite length_take, length_drop. lia.
Qed.

(** X8. With a size of zero or less and an array that is not empty, the loop
    of [chunk] never ends: the loop variable never reaches the length. *)
Theorem chunk_never_ends :
  ∀ (array : list T) (size : Z) (fuel : nat),
    size <= 0 -> array ≠ [] -> chunk fuel array size = None.
Proof.
  intros array size fuel Hs Hne. unfold chunk.
  assert (∀ fuel i chunks, i <= 0 ->
            chunk_loop fuel array size i chunks = None) as H.
  { clear fuel. induction fuel as [|fuel IH]; intros i chunks Hi; [reflexivity|].
    simpl. replace (i <? Z.of_nat (List.length array)) with true.
    - apply IH. lia.
    - symmetry. apply Z.ltb_lt. destruct array; [contradiction|]. simpl. lia. }
  now apply H.
Qed.

End Chunks.

Lemma chunk_partition_witness :
  (0 < 2)%nat
  ∧ ∃ chunks,
      Collections.chunk 6 [1; 2; 3; 4; 5] 2 = Some chunks
      ∧ List.concat chunks = [1; 2; 3; 4; 5].
Proof.
  assert (0 < 2)%nat as Hs by lia. split; [exact Hs|].
  destruct (chunk_partition [1; 2; 3; 4; 5] 2 Hs) as (chunks & Hrun & Hcat & _).
  exists chunks. split; [|exact Hcat].
  apply (Hrun 6%nat). simpl. lia.
Defined.

Lemma chunk_never_ends_witness :
  0 <= 0 ∧ [1; 2; 3] ≠ ([] : list Z) ∧ Collections.chunk 100 [1; 2; 3] 0 = None.
Proof.
  split; [lia|]. split; [discriminate|].
  apply (chunk_never_ends [1; 2; 3] 0 100); [lia|discriminate].
Defined.

(** ** Arrays without repetition *)

Section Unique.
Import Collections.
Context `{EqDecision T}.

Lemma filter_not_in_app (acc : list T) x (l : list T) :
  filter (fun y => y ∉ acc ++ [x]) l
  = filter (fun y => y ∉ acc) (filter (fun y => y ≠ x) l).
Proof.
  rewrite list_filter_filter. apply list_filter_iff. intros y.
  rewrite elem_of_app, list_elem_of_singleton. tauto.
Qed.

Lemma filter_not_in_absorb (acc : list T) x (l : list T) :
  x ∈ acc ->
  filter (fun y => y ∉ acc) (filter (fun y => y ≠ x) l)
  = filter (fun y => y ∉ acc) l.
Proof.
  intros Hx. apply list_filter_filter_l. intros y Hy ->. contradiction.
Qed.

Lemma unique_from (l : list T) : ∀ acc,
  fold_left (fun set x => if decide (x ∈ set) then set else set ++ [x]) l acc
  = acc ++ filter (fun y => y ∉ acc) (first_occurrences l).
Proof.
  induction l as [|x l IH]; intros acc; [now rewrite app_nil_r|].
  cbn [fold_left first_occurrences]. rewrite IH, filter_cons.
  destruct (decide (x ∈ acc)) as [Hin|Hnotin].
  - destruct (decide (x ∉ acc)); [contradiction|].
    now rewrite filter_not_in_absorb.
  - destruct (decide (x ∉ acc)); [|contradiction].
    rewrite <- app_assoc. simpl. now rewrite filter_not_in_app.
Qed.

Lemma unique_first_occurrences (l : list T) : unique l = first_occurrences l.
Proof.
  unfold unique. rewrite unique_from. simpl.
  induction (first_occurrences l) as [|y r IH]; [reflexivity|].
  rewrite filter_cons. destruct (decide (y ∉ [])) as [_|H]; [now rewrite IH|].
  exfalso. apply H. apply not_elem_of_nil.
Qed.

Lemma first_occurrences_elem (l : list T) x :
  x ∈ first_occurrences l <-> x ∈ l.
Proof.
  induction l as [|y l IH]; [reflexivity|]. simpl.
  rewrite !elem_of_cons, list_elem_of_filter, IH.
  destruct (decide (x = y)) as [->|Hne]; [tauto|]. tauto.
Qed.

Lemma first_occurrences_NoDup (l : list T) : NoDup (first_occurrences l).
Proof.
  induction l as [|y l IH]; [constructor|]. simpl. constructor.
  - intros [H _]%list_elem_of_filter. now apply H.
  - now apply NoDup_filter.
Qed.

Lemma first_occurrences_id (l : list T) :
  NoDup l -> first_occurrences l = l.
Proof.
  induction 1 as [|x l Hx Hnd IH]; [reflexivity|]. simpl. rewrite IH.
  f_equal. clear IH Hnd. induction l as [|y l IHl]; [reflexivity|].
  rewrite filter_cons_True.
  - f_equal. apply IHl. intros Hin. apply Hx. now apply list_elem_of_further.
  - intros ->. apply Hx, list_elem_of_here.
Qed.

(** X9. [unique] keeps the first occurrence of each element, in the order of
    the array: the head, then the rest made unique without the head.  So
    its result has no repetition and the same elements as the array; it
    returns the array itself exactly when the array has no repetition, and
    applying it twice changes nothing more. *)
Theorem unique_first :
  ∀ (array : list T),
    unique array = first_occurrences array
    ∧ NoDup (unique array)
    ∧ (∀ x, x ∈ unique array <-> x ∈ array)
    ∧ (unique array = array <-> NoDup array)
    ∧ unique (unique array) = unique array.
Proof.
  intros array. rewrite !unique_first_occurrences.
  split; [reflexivity|]. split; [apply first_occurrences_NoDup|].
  split; [intros x; apply first_occurrences_elem|]. split.
  - split; [|apply first_occurrences_id].
    intros <-. apply first_occurrences_NoDup.
  - apply first_occurrences_id, first_occurrences_NoDup.
Qed.

End Unique.

(** ** Arrays in groups *)

Section Groups.
Import Collections.
Context {T : Type}.
Variable inherited : string -> bool.
Variable key : T -> string.

Lemma groupBy_from_own (array : list T) : ∀ groups,
  (∀ item, item ∈ array -> inherited (key item) = false) ->
  ∃ result,
    groupBy_from inherited groups array key = Returned result
    ∧ ∀ k, result !! k
           = match with_key key k array with
             | [] => groups !! k
             | items => Some (default [] (groups !! k) ++ items)
             end.
Proof.
  induction array as [|item rest IH]; intros groups Hown.
  - exists groups. split; [reflexivity|]. intros k. reflexivity.
  - cbn [groupBy_from]. unfold groupBy_step.
    assert (inherited (key item) = false) as Hitem
      by (apply Hown, list_elem_of_here).
    assert (∀ x, x ∈ rest -> inherited (key x) = false) as Hrest
      by (intros x Hx; apply Hown; now apply list_elem_of_further).
    destruct (groups !! key item) as [group|] eqn:Hg.
    + simpl. destruct (IH (<[key item := group ++ [item]]> groups) Hrest)
        as (result & Hrun & Hk).
      exists result. split; [exact Hrun|]. intros k. rewrite Hk.
      unfold with_key. rewrite filter_cons.
      destruct (decide (key item = k)) as [<-|Hne].
      * rewrite lookup_insert_eq, Hg. simpl.
        destruct (filter _ rest); [reflexivity|].
        now rewrite <- app_assoc.
      * now rewrite lookup_insert_ne.
    + rewrite Hitem. simpl.
      destruct (IH (<[key item := [item]]> groups) Hrest)
        as (result & Hrun & Hk).
      exists result. split; [exact Hrun|]. intros k. rewrite Hk.
      unfold with_key. rewrite filter_cons.
      destruct (decide (key item = k)) as [<-|Hne].
      * rewrite lookup_insert_eq, Hg. simpl.
        destruct (filter _ rest); reflexivity.
      * now rewrite lookup_insert_ne.
Qed.

(** X10. When no key is the name of an inherited property, [groupBy] returns
    an object that has, under each key, the items of that key in the
    order of the array, and no property for a key that no item has. *)
Theorem groupBy_groups :
  ∀ (array : list T),
    (∀ item, item ∈ array -> inherited (key item) = false) ->
    ∃ groups,
      groupBy inherited array key = Returned groups
      ∧ ∀ k, groups !! k = match with_key key k array with
                           | [] => None
                           | items => Some items
                           end.
Proof.
  intros array Hown.
  destruct (groupBy_from_own array ∅ Hown) as (groups & Hrun & Hk).
  exists groups. split; [exact Hrun|]. intros k. rewrite Hk, lookup_empty.
  reflexivity.
Qed.

Lemma groupBy_from_inherited (array : list T) : ∀ groups,
  (∀ k, is_Some (groups !! k) -> inherited k = false) ->
  (∃ item, item ∈ array ∧ inherited (key item) = true) ->
  groupBy_from inherited groups array key
  = Threw (TypeError "groups[groupKey].push is not a function").
Proof.
  induction array as [|item rest IH]; intros groups Hinv (bad & Hin & Hbad).
  - now apply elem_of_nil in Hin.
  - cbn [groupBy_from]. unfold groupBy_step.
    destruct (groups !! key item) as [group|] eqn:Hg.
    + assert (inherited (key item) = false) as Hitem by (apply Hinv; eauto).
      simpl. apply IH.
      * intros k [g Hk]. destruct (decide (key item = k)) as [<-|Hne];
          [exact Hitem|]. rewrite lookup_insert_ne in Hk by assumption.
        apply Hinv. eauto.
      * apply elem_of_cons in Hin as [->|Hin]; [congruence|eauto].
    + destruct (inherited (key item)) eqn:Hitem; [reflexivity|].
      simpl. apply IH.
      * intros k [g Hk]. destruct (decide (key item = k)) as [<-|Hne];
          [exact Hitem|]. rewrite lookup_insert_ne in Hk by assumption.
        apply Hinv. eauto.
      * apply elem_of_cons in Hin as [->|Hin]; [congruence|eauto].
Qed.

(** X11. When the key of some item is the name of an inherited property,
    [groupBy] throws a [TypeError]: the inherited value is taken for the
    group and has no [push]. *)
Theorem groupBy_inherited_key :
  ∀ (array : list T) item,
    item ∈ array -> inherited (key item) = true ->
    groupBy inherited array key
    = Threw (TypeError "groups[groupKey].push is not a function").
Proof.
  intros array item Hin Hbad. apply groupBy_from_inherited; [|eauto].
  intros k [g Hk]. now rewrite lookup_empty in Hk.
Qed.

End Groups.

Lemma groupBy_groups_witness :
  (∀ item, item ∈ ["apple"; "avocado"; "banana"] ->
           String.eqb (String.substring 0 1 item) "constructor" = false)
  ∧ ∃ groups,
      Collections.groupBy (fun k => String.eqb k "constructor")
        ["apple"; "avocado"; "banana"] (String.substring 0 1)
      = Returned groups
      ∧ groups !! "a" = Some ["apple"; "avocado"]
      ∧ groups !! "c" = None.
Proof.
  assert (∀ item, item ∈ ["apple"; "avocado"; "banana"] ->
            String.eqb (String.substring 0 1 item) "constructor" = false) as H.
  { intros item Hin.
    repeat (apply elem_of_cons in Hin as [->|Hin]; [reflexivity|]).
    now apply elem_of_nil in Hin. }
  split; [exact H|].
  destruct (groupBy_groups (fun k => String.eqb k "constructor")
              (String.substring 0 1) ["apple"; "avocado"; "banana"] H)
    as (groups & Hrun & Hk).
  exists groups. split; [exact Hrun|]. split; rewrite Hk; reflexivity.
Defined.

Lemma groupBy_inherited_key_witness :
  "constructor" ∈ ["apple"; "constructor"]
  ∧ Collections.groupBy (fun k => String.eqb k "constructor")
      ["apple"; "constructor"] (fun item => item)
    = Threw (TypeError "groups[groupKey].push is not a function").
Proof.
  assert ("constructor" ∈ ["apple"; "constructor"]) as Hin
    by apply list_elem_of_further, list_elem_of_here.
  split; [exact Hin|].
  apply (groupBy_inherited_key (fun k => String.eqb k "constructor")
           (fun item => item) _ "constructor" Hin eq_refl).
Defined.

(** ** Truncated text *)

Section Truncate.
Import JsString Collections.

Lemma length_substring_0 n s :
  String.length (String.substring 0 n s) = Nat.min n (String.length s).
Proof.
  revert s. induction n as [|n IH]; intros [|c s]; simpl; try reflexivity.
  now rewrite IH.
Qed.

Lemma length_slice_0 text e :
  Z.of_nat (String.length (JsString.slice text 0 e))
  = Z.max 0 (clamp_index (Z.of_nat (String.length text)) e).
Proof.
  unfold JsString.slice. cbn [clamp_index]. 
  replace (clamp_index (Z.of_nat (String.length text)) 0) with 0
    by (unfold clamp_index; simpl; lia).
  simpl Z.to_nat. rewrite length_substring_0. unfold clamp_index.
  destruct (e <? 0) eqn:He; [apply Z.ltb_lt in He|apply Z.ltb_ge in He]; lia.
Qed.

(** X12. When the suffix is no longer than [length], the result of [truncate]
    is no longer than [length]: a text that fits is returned as it is, a
    longer one gives exactly [length] characters, the first
    [length - suffix.length] of the text and the suffix. *)
Theorem truncate_fits :
  ∀ text length suffix,
    Z.of_nat (String.length suffix) <= length ->
    Z.of_nat (String.length (truncate text length suffix)) <= length
    ∧ (Z.of_nat (String.length text) <= length ->
       truncate text length suffix = text)
    ∧ (length < Z.of_nat (String.length text) ->
       Z.of_nat (String.length (truncate text length suffix)) = length
       ∧ truncate text length suffix
         = String.substring 0
             (Z.to_nat (length - Z.of_nat (String.length suffix))) text
           +:+ suffix).
Proof.
  intros text length suffix Hs. unfold truncate.
  destruct (Z.of_nat (String.length text) <=? length) eqn:Hfit.
  - apply Z.leb_le in Hfit. split; [exact Hfit|]. split; [reflexivity|lia].
  - apply Z.leb_gt in Hfit.
    assert (Z.of_nat (String.length
               (JsString.slice text 0 (length - Z.of_nat (String.length suffix))
                +:+ suffix)) = length) as Hlen.
    { rewrite length_append, Nat2Z.inj_add, length_slice_0.
      unfold clamp_index.
      replace (length - Z.of_nat (String.length suffix) <? 0) with false
        by (symmetry; apply Z.ltb_ge; lia). lia. }
    split; [lia|]. split; [lia|]. intros _. split; [exact Hlen|].
    f_equal. unfold JsString.slice, clamp_index.
    replace (length - Z.of_nat (String.length suffix) <? 0) with false
      by (symmetry; apply Z.ltb_ge; lia).
    simpl (0 <? 0). cbv iota.
    replace (Z.min 0 (Z.of_nat (String.length text))) with 0 by lia.
    simpl Z.to_nat. f_equal.
    rewrite Z.sub_0_r, Z.max_l by lia. f_equal. lia.
Qed.

(** X13. When the suffix is longer than [length], a text longer than [length]
    comes back longer than [length]: the result is the text without its
    last [suffix.length - length] characters (nothing of the text when it
    has no more than that), followed by the whole suffix. *)
Theorem truncate_overflows :
  ∀ text length suffix,
    length < Z.of_nat (String.length suffix) ->
    length < Z.of_nat (String.length text) ->
    truncate text length suffix
    = String.substring 0
        (Z.to_nat (Z.of_nat (String.length text)
                   - (Z.of_nat (String.length suffix) - length))) text
      +:+ suffix
    ∧ Z.of_nat (String.length (truncate text length suffix))
      = Z.max 0 (Z.of_nat (String.length text)
                 - (Z.of_nat (String.length suffix) - length))
        + Z.of_nat (String.length suffix)
    ∧ length < Z.of_nat (String.length (truncate text length suffix)).
Proof.
  intros text length suffix Hs Ht.
  assert (truncate text length suffix
          = String.substring 0
              (Z.to_nat (Z.of_nat (String.length text)
                         - (Z.of_nat (String.length suffix) - length))) text
            +:+ suffix) as Heq.
  { unfold truncate.
    replace (Z.of_nat (String.length text) <=? length) with false
      by (symmetry; apply Z.leb_gt; lia).
    f_equal. unfold JsString.slice, clamp_index.
    replace (length - Z.of_nat (String.length suffix) <? 0) with true
      by (symmetry; apply Z.ltb_lt; lia).
    simpl (0 <? 0). cbv iota.
    replace (Z.min 0 (Z.of_nat (String.length text))) with 0 by lia.
    simpl Z.to_nat. f_equal. lia. }
  split; [exact Heq|]. rewrite Heq.
  rewrite length_append, Nat2Z.inj_add, length_substring_0. lia.
Qed.

End Truncate.

Lemma truncate_fits_witness :
  Z.of_nat (String.length Collections.default_suffix) <= 8
  ∧ Collections.truncate "Accra to Kumasi" 8 Collections.default_suffix
    = "Accra..."
  ∧ Collections.truncate "Tema" 8 Collections.default_suffix = "Tema".
Proof.
  assert (Z.of_nat (String.length Collections.default_suffix) <= 8) as H
    by (simpl; lia).
  split; [exact H|].
  destruct (truncate_fits "Accra to Kumasi" 8 Collections.default_suffix H)
    as (_ & _ & Hlong).
  destruct (truncate_fits "Tema" 8 Collections.default_suffix H)
    as (_ & Hshort & _).
  split.
  - rewrite (proj2 (Hlong ltac:(simpl; lia))). reflexivity.
  - apply Hshort. simpl. lia.
Defined.

Lemma truncate_overflows_witness :
  2 < Z.of_nat (String.length Collections.default_suffix)
  ∧ 2 < Z.of_nat (String.length "abcdef")
  ∧ Collections.truncate "abcdef" 2 Collections.default_suffix = "abcde..."
  ∧ Collections.truncate "ab" 1 "-----" = "-----".
Proof.
  assert (2 < Z.of_nat (String.length Collections.default_suffix)) as H1
    by (simpl; lia).
  assert (2 < Z.of_nat (String.length "abcdef")) as H2 by (simpl; lia).
  split; [exact H1|]. split; [exact H2|]. split.
  - rewrite (proj1 (truncate_overflows "abcdef" 2 Collections.default_suffix
                      H1 H2)).
    reflexivity.
  - rewrite (proj1 (truncate_overflows "ab" 1 "-----"
                      ltac:(simpl; lia) ltac:(simpl; lia))).
    reflexivity.
Defined.

(** ** Regular expressions: the matcher and the strings of an expression *)

Section RegexSound.
Import Regex.

Lemma append_eq_nil s1 s2 :
  s1 +:+ s2 = EmptyString -> s1 = EmptyString ∧ s2 = EmptyString.
Proof. destruct s1; [now rewrite append_nil_l|discriminate]. Qed.

Lemma lang_nil_nullable r s :
  lang r s -> s = EmptyString -> nullable r = true.
Proof.
  induction 1 as [|m c Hc|r1 r2 s1 s2 H1 IH1 H2 IH2|r1 r2 s H IH|r1 r2 s H IH
                 |r|r s1 s2 H1 IH1 H2 IH2]; intros Hs; simpl;
    try reflexivity; try discriminate.
  - apply append_eq_nil in Hs as [-> ->]. now rewrite IH1, IH2.
  - now rewrite IH.
  - rewrite IH by assumption. apply orb_true_r.
Qed.

Lemma nullable_lang r : nullable r = true <-> lang r EmptyString.
Proof.
  split; [|intros H; now apply (lang_nil_nullable r EmptyString)].
  induction r as [| |m|r1 IH1 r2 IH2|r1 IH1 r2 IH2|r IH]; simpl;
    try discriminate.
  - intros _. constructor.
  - intros [H1 H2]%andb_true_iff.
    change EmptyString with (EmptyString +:+ EmptyString). constructor; auto.
  - intros [H|H]%orb_true_iff; [apply lang_alt_l|apply lang_alt_r]; auto.
  - intros _. constructor.
Qed.

Lemma derive_sound c r : ∀ s, lang (derive c r) s -> lang r (String c s).
Proof.
  induction r as [| |m|r1 IH1 r2 IH2|r1 IH1 r2 IH2|r IH]; intros s; simpl.
  - inversion 1.
  - inversion 1.
  - destruct (m c) eqn:Hc; inversion 1; subst. now constructor.
  - destruct (nullable r1) eqn:Hn; intros H.
    + inversion H as [| | | ? ? ? Hl | ? ? ? Hr | |]; subst.
      * inversion Hl as [| |? ? s1 s2 H1 H2| | | |]; subst.
        rewrite <- append_cons. constructor; auto.
      * change (String c s) with (EmptyString +:+ String c s).
        constructor; [now apply nullable_lang|auto].
    + inversion H as [| |? ? s1 s2 H1 H2| | | |]; subst.
      rewrite <- append_cons. constructor; auto.
  - inversion 1; subst; [apply lang_alt_l|apply lang_alt_r]; auto.
  - intros H. inversion H as [| |? ? s1 s2 H1 H2| | | |]; subst.
    rewrite <- append_cons. constructor; auto.
Qed.

Lemma derive_complete c r t :
  lang r t -> ∀ s, t = String c s -> lang (derive c r) s.
Proof.
  induction 1 as [|m c' Hc|r1 r2 s1 s2 H1 IH1 H2 IH2|r1 r2 t H IH|r1 r2 t H IH
                 |r|r s1 s2 H1 IH1 H2 IH2]; intros s Hs; simpl.
  - discriminate.
  - injection Hs as -> <-. rewrite Hc. constructor.
  - destruct s1 as [|c1 s1].
    + rewrite append_nil_l in Hs. subst s2.
      rewrite (proj2 (nullable_lang r1) H1). apply lang_alt_r. now apply IH2.
    + rewrite append_cons in Hs. injection Hs as -> <-.
      assert (lang (Seq (derive c r1) r2) (s1 +:+ s2)) as Hseq
        by (constructor; [now apply IH1|assumption]).
      destruct (nullable r1); [now apply lang_alt_l|assumption].
  - apply lang_alt_l. now apply IH.
  - apply lang_alt_r. now apply IH.
  - discriminate.
  - destruct s1 as [|c1 s1].
    + rewrite append_nil_l in Hs. now apply IH2.
    + rewrite append_cons in Hs. injection Hs as -> <-.
      constructor; [now apply IH1|assumption].
Qed.

(** The matcher decides the strings of the expression. *)
Lemma test_lang s : ∀ r, test r s = true <-> lang r s.
Proof.
  induction s as [|c s IH]; intros r; simpl.
  - apply nullable_lang.
  - rewrite IH. split; [apply derive_sound|].
    intros H. now apply (derive_complete c r (String c s)).
Qed.

Lemma lang_Class member s :
  lang (Class member) s <-> ∃ c, s = String c EmptyString ∧ member c = true.
Proof.
  split; [inversion 1; subst; eauto|]. intros (c & -> & H). now constructor.
Qed.

Lemma lang_Seq r1 r2 s :
  lang (Seq r1 r2) s <-> ∃ s1 s2, s = s1 +:+ s2 ∧ lang r1 s1 ∧ lang r2 s2.
Proof.
  split; [inversion 1; subst; eauto|]. intros (s1 & s2 & -> & H1 & H2).
  now constructor.
Qed.

Lemma lang_Alt r1 r2 s : lang (Alt r1 r2) s <-> lang r1 s ∨ lang r2 s.
Proof.
  split; [inversion 1; subst; auto|].
  intros [H|H]; [now apply lang_alt_l|now apply lang_alt_r].
Qed.

Lemma lang_Empty s : lang Empty s <-> s = EmptyString.
Proof. split; [now inversion 1|intros ->; constructor]. Qed.

Lemma lang_Opt r s : lang (Opt r) s <-> lang r s ∨ s = EmptyString.
Proof. unfold Opt. now rewrite lang_Alt, lang_Empty. Qed.

(** An expression that begins with a class takes one character of the
    class and goes on. *)
Lemma lang_Seq_Class member r s :
  lang (Seq (Class member) r) s
  <-> ∃ c rest, s = String c rest ∧ member c = true ∧ lang r rest.
Proof.
  rewrite lang_Seq. split.
  - intros (s1 & s2 & -> & (c & -> & Hc)%lang_Class & H2). eauto.
  - intros (c & rest & -> & Hc & Hr). exists (String c EmptyString), rest.
    split; [reflexivity|]. split; [apply lang_Class; eauto|assumption].
Qed.

End RegexSound.

Section RegexClasses.
Import JsString Regex.

Lemma all_chars_cons class c s :
  all_chars class (String c s) = class c && all_chars class s.
Proof. reflexivity. Qed.

Lemma all_chars_app class s1 s2 :
  all_chars class (s1 +:+ s2) = all_chars class s1 && all_chars class s2.
Proof.
  induction s1 as [|c s1 IH]; [reflexivity|].
  rewrite append_cons, !all_chars_cons, IH. now rewrite andb_assoc.
Qed.

Lemma lang_Repeat_Class member n : ∀ s,
  lang (Repeat n (Class member)) s
  <-> String.length s = n ∧ all_chars member s = true.
Proof.
  induction n as [|n IH]; intros s; simpl Repeat.
  - rewrite lang_Empty. split; [now intros ->|]. intros [H _]. now destruct s.
  - rewrite lang_Seq_Class. split.
    + intros (c & rest & -> & Hc & [Hl Ha]%IH). simpl.
      rewrite all_chars_cons, Hc, Ha, Hl. now split.
    + destruct s as [|c rest]; [now intros [? _]|]. simpl.
      rewrite all_chars_cons. intros [[= Hl] [Hc Ha]%andb_true_iff].
      exists c, rest. split; [reflexivity|]. split; [exact Hc|]. now apply IH.
Qed.

Lemma lang_UpTo_Class member n : ∀ s,
  lang (UpTo n (Class member)) s
  <-> (String.length s <= n)%nat ∧ all_chars member s = true.
Proof.
  induction n as [|n IH]; intros s; simpl UpTo.
  - rewrite lang_Empty. split; [now intros ->|]. intros [H _].
    destruct s; [reflexivity|simpl in H; lia].
  - rewrite lang_Opt, lang_Seq_Class. split.
    + intros [(c & rest & -> & Hc & [Hl Ha]%IH)| ->].
      * simpl. rewrite all_chars_cons, Hc, Ha. split; [lia|reflexivity].
      * split; [simpl; lia|reflexivity].
    + destruct s as [|c rest]; [now right|]. simpl.
      rewrite all_chars_cons. intros [Hl [Hc Ha]%andb_true_iff]. left.
      exists c, rest. split; [reflexivity|]. split; [exact Hc|].
      apply IH. split; [lia|exact Ha].
Qed.

Lemma lang_Between_Class member lo hi s :
  (lo <= hi)%nat ->
  lang (Between lo hi (Class member)) s
  <-> (lo <= String.length s <= hi)%nat ∧ all_chars member s = true.
Proof.
  intros Hle. unfold Between. rewrite lang_Seq. split.
  - intros (s1 & s2 & -> & [Hl1 Ha1]%lang_Repeat_Class
            & [Hl2 Ha2]%lang_UpTo_Class).
    rewrite length_append, all_chars_app, Ha1, Ha2. split; [lia|reflexivity].
  - intros [Hl Ha].
    exists (String.substring 0 lo s),
           (String.substring lo (String.length s - lo) s).
    assert (∀ n t, (n <= String.length t)%nat ->
              t = String.substring 0 n t
                  +:+ String.substring n (String.length t - n) t
              ∧ String.length (String.substring 0 n t) = n) as Hcut.
    { clear. induction n as [|n IH]; intros [|c t] Hn; simpl in *;
        try lia; try (split; reflexivity).
      - split; [|reflexivity]. rewrite append_nil_l. f_equal.
        clear. induction t as [|d t IH]; [reflexivity|]. simpl. now f_equal.
      - destruct (IH t ltac:(lia)) as [Heq Hlen].
        rewrite append_cons, <- Heq, Hlen. now split. }
    destruct (Hcut lo s ltac:(lia)) as [Heq Hlen].
    split; [exact Heq|]. rewrite Heq, all_chars_app in Ha.
    apply andb_true_iff in Ha as [Ha1 Ha2].
    split; [now apply lang_Repeat_Class|].
    apply lang_UpTo_Class. split; [|exact Ha2].
    rewrite Heq, length_append, Hlen in Hl. lia.
Qed.

Lemma lang_Star_Class member s :
  lang (Star (Class member)) s <-> all_chars member s = true.
Proof.
  split.
  - remember (Star (Class member)) as r eqn:Hr. intros H.
    induction H as [| | | | | r0 | r0 s1 s2 H1 _ H2 IH2]; try discriminate.
    + reflexivity.
    + injection Hr as ->. apply lang_Class in H1 as (c & -> & Hc).
      rewrite append_cons, append_nil_l, all_chars_cons, Hc. now apply IH2.
  - induction s as [|c s IH]; [constructor|].
    rewrite all_chars_cons. intros [Hc Ha]%andb_true_iff.
    change (String c s) with (String c EmptyString +:+ s).
    constructor; [now constructor|auto].
Qed.

Lemma lang_Plus_Class member s :
  lang (Plus (Class member)) s
  <-> s ≠ EmptyString ∧ all_chars member s = true.
Proof.
  unfold Plus. rewrite lang_Seq_Class. split.
  - intros (c & rest & -> & Hc & Ha%lang_Star_Class).
    split; [discriminate|]. now rewrite all_chars_cons, Hc, Ha.
  - destruct s as [|c rest]; [now intros [? _]|].
    rewrite all_chars_cons. intros [_ [Hc Ha]%andb_true_iff].
    exists c, rest. split; [reflexivity|]. split; [exact Hc|].
    now apply lang_Star_Class.
Qed.

End RegexClasses.

(** ** The validators *)

Section Validators.
Import JsString Regex Validation.

(** X14. [isValidPhone] accepts exactly: an optional plus sign, a digit from 1
    to 9, then 1 to 14 more digits; so 2 to 15 digits in all, the first
    of them not zero, and nothing else. *)
Theorem isValidPhone_digits :
  ∀ phone,
    isValidPhone phone = true
    <-> ∃ first more,
          (phone = String first more ∨ phone = String "+" (String first more))
          ∧ in_range "1" "9" first = true
          ∧ all_chars is_digit more = true
          ∧ (1 <= String.length more <= 14)%nat.
Proof.
  intros phone. unfold isValidPhone, phoneRegex, range, digit.
  rewrite test_lang, lang_Seq. split.
  - intros (sign & body & -> & Hsign & Hbody).
    apply lang_Seq_Class in Hbody as (first & more & -> & Hf & Hm).
    apply lang_Between_Class in Hm as [Hl Ha]; [|lia].
    exists first, more. split; [|auto].
    apply lang_Opt in Hsign as [(c & -> & Hc)%lang_Class| ->].
    + apply Ascii.eqb_eq in Hc. subst c. now right.
    + now left.
  - intros (first & more & Hphone & Hf & Ha & Hl).
    assert (lang (Seq (Class (in_range "1" "9"))
                      (Between 1 14 (Class is_digit))) (String first more))
      as Hbody.
    { apply lang_Seq_Class. exists first, more. split; [reflexivity|].
      split; [exact Hf|]. apply lang_Between_Class; [lia|now split]. }
    destruct Hphone as [-> | ->].
    + exists EmptyString, (String first more). split; [reflexivity|].
      split; [apply lang_Opt; now right|exact Hbody].
    + exists (String "+" EmptyString), (String first more).
      split; [reflexivity|]. split; [|exact Hbody].
      apply lang_Opt. left. apply lang_Class. exists "+"%char. now split.
Qed.

End Validators.

(** ** Digits and numbers *)

Section Digits.
Import JsString Times.

Lemma in_range_nat lo hi c :
  in_range lo hi c = true
  <-> (nat_of_ascii lo <= nat_of_ascii c <= nat_of_ascii hi)%nat.
Proof.
  unfold in_range. rewrite andb_true_iff, !Nat.leb_le. tauto.
Qed.

Lemma is_digit_nat c :
  is_digit c = true <-> (48 <= nat_of_ascii c <= 57)%nat.
Proof.
  unfold is_digit. rewrite andb_true_iff, !Z.leb_le. lia.
Qed.

Lemma nat_of_digit_char d :
  0 <= d <= 9 -> nat_of_ascii (digit_char d) = (48 + Z.to_nat d)%nat.
Proof.
  intros Hd. unfold digit_char. apply nat_ascii_embedding. lia.
Qed.

Lemma digit_char_is_digit d :
  0 <= d <= 9 -> is_digit (digit_char d) = true ∧ digit_value (digit_char d) = d.
Proof.
  intros Hd. split.
  - apply is_digit_nat. rewrite nat_of_digit_char by assumption. lia.
  - unfold digit_value. rewrite nat_of_digit_char by assumption. lia.
Qed.

Lemma digit_value_char c :
  is_digit c = true ->
  0 <= digit_value c <= 9 ∧ digit_char (digit_value c) = c.
Proof.
  intros Hc%is_digit_nat. unfold digit_value, digit_char. split; [lia|].
  replace (48 + Z.to_nat (Z.of_nat (nat_of_ascii c) - 48))%nat
    with (nat_of_ascii c) by lia.
  apply ascii_nat_embedding.
Qed.

Lemma denotes_all_digits ds n : denotes ds n -> all_chars is_digit ds = true.
Proof.
  induction 1 as [c Hc|ds c n Hd IH Hc].
  - now rewrite all_chars_cons, Hc.
  - now rewrite all_chars_app, IH, all_chars_cons, Hc.
Qed.

Lemma denotes_value ds n : denotes ds n -> n = parseInt ds.
Proof.
  intros H. unfold parseInt. rewrite (denotes_parseInt _ _ H). lia.
Qed.

Lemma denotes_functional ds n1 n2 : denotes ds n1 -> denotes ds n2 -> n1 = n2.
Proof. intros H1%denotes_value H2%denotes_value. congruence. Qed.

Lemma denotes_nonneg ds n : denotes ds n -> 0 <= n.
Proof.
  induction 1 as [c Hc|ds c n Hd IH Hc];
    destruct (digit_value_char _ Hc) as [H _]; lia.
Qed.

Lemma denotes_two_digits n :
  0 <= n <= 99 -> denotes (two_digits n) n.
Proof.
  intros Hn. unfold two_digits.
  assert (0 <= n / 10 <= 9) as Hq
    by (pose proof (Z.div_mod n 10); pose proof (Z.mod_pos_bound n 10); lia).
  assert (0 <= n mod 10 <= 9) as Hr by (pose proof (Z.mod_pos_bound n 10); lia).
  destruct (digit_char_is_digit _ Hq) as [Hq1 Hq2].
  destruct (digit_char_is_digit _ Hr) as [Hr1 Hr2].
  change (String (digit_char (n / 10)) (String (digit_char (n mod 10)) EmptyString))
    with (String (digit_char (n / 10)) EmptyString
          +:+ String (digit_char (n mod 10)) EmptyString).
  replace n with (10 * digit_value (digit_char (n / 10))
                  + digit_value (digit_char (n mod 10))) at 3
    by (rewrite Hq2, Hr2; pose proof (Z.div_mod n 10); lia).
  constructor; [now constructor|assumption].
Qed.

Lemma pair_two_digits c1 c2 :
  is_digit c1 = true -> is_digit c2 = true ->
  String c1 (String c2 EmptyString)
  = two_digits (10 * digit_value c1 + digit_value c2).
Proof.
  intros [H1 E1]%digit_value_char [H2 E2]%digit_value_char. unfold two_digits.
  replace ((10 * digit_value c1 + digit_value c2) / 10) with (digit_value c1)
    by (apply Z.div_unique with (r := digit_value c2); lia).
  replace ((10 * digit_value c1 + digit_value c2) mod 10) with (digit_value c2)
    by (apply Z.mod_unique with (q := digit_value c1); lia).
  now rewrite E1, E2.
Qed.

Lemma digits_from_step fuel n tail :
  digits_from (S fuel) n tail
  = if n <? 10 then String (digit_char (n mod 10)) tail
    else digits_from fuel (n / 10) (String (digit_char (n mod 10)) tail).
Proof. reflexivity. Qed.

Lemma digits_from_denotes fuel : ∀ n tail,
  0 <= n < 2 ^ Z.of_nat (S fuel) ->
  ∃ ds, digits_from (S fuel) n tail = ds +:+ tail ∧ denotes ds n.
Proof.
  induction fuel as [|fuel IH]; intros n tail Hn.
  - change (2 ^ Z.of_nat 1) with 2 in Hn. simpl.
    replace (n <? 10) with true by (symmetry; apply Z.ltb_lt; lia).
    exists (String (digit_char (n mod 10)) EmptyString). split; [reflexivity|].
    rewrite Z.mod_small by lia.
    destruct (digit_char_is_digit n ltac:(lia)) as [H1 H2].
    rewrite <- H2 at 2. now constructor.
  - rewrite digits_from_step. destruct (n <? 10) eqn:Hlt.
    + apply Z.ltb_lt in Hlt.
      exists (String (digit_char (n mod 10)) EmptyString).
      split; [reflexivity|]. rewrite Z.mod_small by lia.
      destruct (digit_char_is_digit n ltac:(lia)) as [H1 H2].
      rewrite <- H2 at 2. now constructor.
    + apply Z.ltb_ge in Hlt.
      assert (0 <= n / 10 < 2 ^ Z.of_nat (S fuel)) as Hq.
      { rewrite (Nat2Z.inj_succ (S fuel)), Z.pow_succ_r in Hn by lia.
        pose proof (Z.div_mod n 10). pose proof (Z.mod_pos_bound n 10). lia. }
      destruct (IH (n / 10) (String (digit_char (n mod 10)) tail) Hq)
        as (ds & Hrun & Hd).
      exists (ds +:+ String (digit_char (n mod 10)) EmptyString). split.
      * rewrite Hrun, append_assoc. reflexivity.
      * assert (0 <= n mod 10 <= 9) as Hr
          by (pose proof (Z.mod_pos_bound n 10); lia).
        destruct (digit_char_is_digit _ Hr) as [H1 H2].
        replace n with (10 * (n / 10) + digit_value (digit_char (n mod 10))) at 2
          by (rewrite H2; pose proof (Z.div_mod n 10); lia).
        now constructor.
Qed.

Lemma toString_denotes n : 0 <= n -> denotes (toString n) n.
Proof.
  intros Hn. unfold toString.
  replace (n <? 0) with false by (symmetry; apply Z.ltb_ge; lia).
  destruct (digits_from_denotes (Z.to_nat (Z.log2 n)) n EmptyString)
    as (ds & Hrun & Hd).
  - split; [exact Hn|]. rewrite Nat2Z.inj_succ, Z2Nat.id by apply Z.log2_nonneg.
    destruct (Z.eq_dec n 0) as [->|Hne]; [reflexivity|].
    apply Z.log2_spec. lia.
  - rewrite Hrun, append_nil_r. exact Hd.
Qed.

Lemma toString_negative n :
  n < 0 -> ∃ ds, toString n = String "-" ds ∧ ds ≠ EmptyString.
Proof.
  intros Hn. unfold toString.
  replace (n <? 0) with true by (symmetry; apply Z.ltb_lt; lia).
  destruct (digits_from_denotes (Z.to_nat (Z.log2 (- n))) (- n) EmptyString)
    as (ds & Hrun & Hd).
  - split; [lia|]. rewrite Nat2Z.inj_succ, Z2Nat.id by apply Z.log2_nonneg.
    apply Z.log2_spec. lia.
  - exists ds. rewrite Hrun, append_nil_r. split; [reflexivity|].
    eapply denotes_nonempty, Hd.
Qed.

End Digits.

(** ** Times of day *)

Section TimesOfDay.
Import JsString Regex Validation Times.

Lemma lang_two_classes a b s :
  lang (Seq (Class a) (Class b)) s
  <-> ∃ c1 c2, s = String c1 (String c2 EmptyString)
               ∧ a c1 = true ∧ b c2 = true.
Proof.
  rewrite lang_Seq_Class. split.
  - intros (c1 & rest & -> & H1 & (c2 & -> & H2)%lang_Class). eauto.
  - intros (c1 & c2 & -> & H1 & H2). exists c1, (String c2 EmptyString).
    split; [reflexivity|]. split; [exact H1|]. apply lang_Class. eauto.
Qed.

Lemma isValidTime_chars t :
  isValidTime t = true
  <-> ∃ h1 h2 m1 m2 rest,
        t = String h1 (String h2 (String ":" (String m1 (String m2 rest))))
        ∧ ((in_range "0" "1" h1 = true ∧ in_range "0" "9" h2 = true)
           ∨ (h1 = "2"%char ∧ in_range "0" "3" h2 = true))
        ∧ in_range "0" "5" m1 = true ∧ in_range "0" "9" m2 = true
        ∧ (rest = EmptyString
           ∨ ∃ s1 s2, rest = String ":" (String s1 (String s2 EmptyString))
                      ∧ in_range "0" "5" s1 = true
                      ∧ in_range "0" "9" s2 = true).
Proof.
  unfold isValidTime, timeRegex, range, Char. rewrite test_lang, lang_Seq.
  split.
  - intros (hh & tl & -> & Hh & Htl).
    apply lang_Seq_Class in Htl as (c & tl1 & -> & ->%Ascii.eqb_eq & Htl).
    apply lang_Seq_Class in Htl as (m1 & tl2 & -> & Hm1 & Htl).
    apply lang_Seq_Class in Htl as (m2 & rest & -> & Hm2 & Hrest).
    assert (∃ h1 h2, hh = String h1 (String h2 EmptyString)
              ∧ ((in_range "0" "1" h1 = true ∧ in_range "0" "9" h2 = true)
                 ∨ (h1 = "2"%char ∧ in_range "0" "3" h2 = true)))
      as (h1 & h2 & -> & Hhour).
    { apply lang_Alt in Hh as [(h1 & h2 & -> & H1 & H2)%lang_two_classes
                              |(h1 & h2 & -> & H1 & H2)%lang_two_classes].
      - exists h1, h2. split; [reflexivity|]. now left.
      - exists h1, h2. split; [reflexivity|]. right.
        apply Ascii.eqb_eq in H1. now split. }
    exists h1, h2, m1, m2, rest. split; [reflexivity|].
    split; [exact Hhour|]. split; [exact Hm1|]. split; [exact Hm2|].
    apply lang_Opt in Hrest as [Hs| ->]; [right|now left].
    apply lang_Seq_Class in Hs as (c' & tl' & -> & ->%Ascii.eqb_eq & Hs).
    apply lang_two_classes in Hs as (s1 & s2 & -> & H1 & H2).
    exists s1, s2. now split.
  - intros (h1 & h2 & m1 & m2 & rest & -> & Hhour & Hm1 & Hm2 & Hrest).
    exists (String h1 (String h2 EmptyString)),
           (String ":" (String m1 (String m2 rest))).
    split; [reflexivity|]. split.
    + apply lang_Alt. destruct Hhour as [[H1 H2]|[-> H2]]; [left|right];
        apply lang_two_classes; do 2 eexists; (split; [reflexivity|]).
      * now split.
      * split; [apply Ascii.eqb_refl|exact H2].
    + apply lang_Seq_Class. exists ":"%char, (String m1 (String m2 rest)).
      split; [reflexivity|]. split; [reflexivity|].
      apply lang_Seq_Class. exists m1, (String m2 rest).
      split; [reflexivity|]. split; [exact Hm1|].
      apply lang_Seq_Class. exists m2, rest.
      split; [reflexivity|]. split; [exact Hm2|].
      apply lang_Opt. destruct Hrest as [->|(s1 & s2 & -> & H1 & H2)];
        [now right|left].
      apply lang_Seq_Class. exists ":"%char, (String s1 (String s2 EmptyString)).
      split; [reflexivity|]. split; [reflexivity|].
      apply lang_two_classes. eauto.
Qed.

(** The codes of the digit characters that bound the classes. *)
Ltac digit_codes :=
  change (nat_of_ascii "0") with 48%nat in *;
  change (nat_of_ascii "1") with 49%nat in *;
  change (nat_of_ascii "2") with 50%nat in *;
  change (nat_of_ascii "3") with 51%nat in *;
  change (nat_of_ascii "5") with 53%nat in *;
  change (nat_of_ascii "9") with 57%nat in *.

(** A pair of digit characters within bounds is the two digits of a
    number within bounds. *)
Lemma range_digit lo hi c :
  (48 <= nat_of_ascii lo)%nat -> (nat_of_ascii hi <= 57)%nat ->
  in_range lo hi c = true
  <-> is_digit c = true
      ∧ Z.of_nat (nat_of_ascii lo) - 48 <= digit_value c
        <= Z.of_nat (nat_of_ascii hi) - 48.
Proof.
  intros Hlo Hhi. rewrite in_range_nat, is_digit_nat. unfold digit_value. lia.
Qed.

Lemma two_digits_chars n :
  0 <= n <= 99 ->
  ∃ c1 c2, two_digits n = String c1 (String c2 EmptyString)
           ∧ is_digit c1 = true ∧ is_digit c2 = true
           ∧ digit_value c1 = n / 10 ∧ digit_value c2 = n mod 10.
Proof.
  intros Hn.
  assert (0 <= n / 10 <= 9) as Hq
    by (pose proof (Z.div_mod n 10); pose proof (Z.mod_pos_bound n 10); lia).
  assert (0 <= n mod 10 <= 9) as Hr by (pose proof (Z.mod_pos_bound n 10); lia).
  destruct (digit_char_is_digit _ Hq) as [Hq1 Hq2].
  destruct (digit_char_is_digit _ Hr) as [Hr1 Hr2].
  exists (digit_char (n / 10)), (digit_char (n mod 10)). now repeat split.
Qed.

Lemma hour_pair h1 h2 :
  ((in_range "0" "1" h1 = true ∧ in_range "0" "9" h2 = true)
   ∨ (h1 = "2"%char ∧ in_range "0" "3" h2 = true))
  <-> ∃ h, 0 <= h <= 23 ∧ String h1 (String h2 EmptyString) = two_digits h.
Proof.
  split.
  - intros [[H1 H2]|[-> H2]].
    + apply range_digit in H1 as [D1 B1]; [|digit_codes; lia..].
      apply range_digit in H2 as [D2 B2]; [|digit_codes; lia..].
      digit_codes. exists (10 * digit_value h1 + digit_value h2).
      split; [lia|now apply pair_two_digits].
    + apply range_digit in H2 as [D2 B2]; [|digit_codes; lia..]. digit_codes.
      exists (10 * digit_value "2" + digit_value h2).
      split; [change (digit_value "2") with 2; lia|now apply pair_two_digits].
  - intros (h & Hh & Heq).
    destruct (two_digits_chars h ltac:(lia)) as (c1 & c2 & Hc & D1 & D2 & V1 & V2).
    rewrite Hc in Heq. injection Heq as -> ->.
    assert (h / 10 <= 2 ∧ (h / 10 = 2 -> h mod 10 <= 3) ∧ 0 <= h / 10
            ∧ 0 <= h mod 10 <= 9) as (Q1 & Q2 & Q3 & Q4)
      by (pose proof (Z.div_mod h 10); pose proof (Z.mod_pos_bound h 10); lia).
    destruct (Z.eq_dec (h / 10) 2) as [E|E].
    + right. split.
      * destruct (digit_value_char _ D1) as [_ <-]. now rewrite V1, E.
      * apply range_digit; [digit_codes; lia..|]. split; [exact D2|].
        digit_codes. lia.
    + left. split; apply range_digit; try (digit_codes; lia);
        (split; [assumption|digit_codes; lia]).
Qed.

Lemma minute_pair m1 m2 :
  (in_range "0" "5" m1 = true ∧ in_range "0" "9" m2 = true)
  <-> ∃ m, 0 <= m <= 59 ∧ String m1 (String m2 EmptyString) = two_digits m.
Proof.
  split.
  - intros [H1 H2].
    apply range_digit in H1 as [D1 B1]; [|digit_codes; lia..].
    apply range_digit in H2 as [D2 B2]; [|digit_codes; lia..].
    digit_codes. exists (10 * digit_value m1 + digit_value m2).
    split; [lia|now apply pair_two_digits].
  - intros (m & Hm & Heq).
    destruct (two_digits_chars m ltac:(lia)) as (c1 & c2 & Hc & D1 & D2 & V1 & V2).
    rewrite Hc in Heq. injection Heq as -> ->.
    assert (0 <= m / 10 <= 5 ∧ 0 <= m mod 10 <= 9) as (Q1 & Q2)
      by (pose proof (Z.div_mod m 10); pose proof (Z.mod_pos_bound m 10); lia).
    split; apply range_digit; try (digit_codes; lia);
      (split; [assumption|digit_codes; lia]).
Qed.

Lemma isValidTime_forms :
  ∀ t,
    isValidTime t = true
    <-> ∃ h m,
          0 <= h <= 23 ∧ 0 <= m <= 59
          ∧ (t = clock h m
             ∨ ∃ s, 0 <= s <= 59 ∧ t = clock h m +:+ ":" +:+ two_digits s).
Proof.
  intros t. rewrite isValidTime_chars. split.
  - intros (h1 & h2 & m1 & m2 & rest & -> & Hh & Hm1 & Hm2 & Hrest).
    apply hour_pair in Hh as (h & Hh & Heqh).
    destruct (proj1 (minute_pair m1 m2) (conj Hm1 Hm2)) as (m & Hm & Heqm).
    exists h, m. split; [exact Hh|]. split; [exact Hm|].
    unfold clock. rewrite <- Heqh, <- Heqm.
    destruct Hrest as [->|(s1 & s2 & -> & H1 & H2)]; [now left|right].
    destruct (proj1 (minute_pair s1 s2) (conj H1 H2)) as (s & Hs & Heqs).
    exists s. split; [exact Hs|]. now rewrite <- Heqs.
  - intros (h & m & Hh & Hm & Ht).
    pose proof (proj2 (hour_pair (digit_char (h / 10)) (digit_char (h mod 10)))
                  (ex_intro _ h (conj Hh eq_refl))) as Hhour.
    pose proof (proj2 (minute_pair (digit_char (m / 10)) (digit_char (m mod 10)))
                  (ex_intro _ m (conj Hm eq_refl))) as [Hm1 Hm2].
    exists (digit_char (h / 10)), (digit_char (h mod 10)),
           (digit_char (m / 10)), (digit_char (m mod 10)).
    destruct Ht as [->|(s & Hs & ->)].
    + exists EmptyString. split; [reflexivity|]. repeat split; auto.
    + pose proof (proj2 (minute_pair (digit_char (s / 10)) (digit_char (s mod 10)))
                    (ex_intro _ s (conj Hs eq_refl))) as [Hs1 Hs2].
      exists (String ":" (two_digits s)). split; [reflexivity|].
      repeat split; auto. right. exists (digit_char (s / 10)), (digit_char (s mod 10)).
      now repeat split.
Qed.

(** X15. [isValidTime] accepts exactly the texts [HH:MM] and [HH:MM:SS] of an
    hour from 0 to 23, a minute and a second from 0 to 59, each written
    with two digits; so an accepted text has 5 or 8 characters. *)
Theorem isValidTime_clock :
  ∀ t,
    (isValidTime t = true
     <-> ∃ h m,
           0 <= h <= 23 ∧ 0 <= m <= 59
           ∧ (t = clock h m
              ∨ ∃ s, 0 <= s <= 59 ∧ t = clock h m +:+ ":" +:+ two_digits s))
    ∧ (isValidTime t = true ->
       String.length t = 5%nat ∨ String.length t = 8%nat).
Proof.
  intros t. split; [apply isValidTime_forms|].
  intros (h & m & _ & _ & Ht)%isValidTime_forms.
  destruct Ht as [->|(s & _ & ->)]; [left|right];
    unfold clock, two_digits; rewrite !length_append; reflexivity.
Qed.

End TimesOfDay.

Section TimeRoundTrips.
Import JsString Regex Validation Times.

Lemma all_digits_free s : all_chars is_digit s = true -> free_of ":" s = true.
Proof.
  induction s as [|c s IH]; [reflexivity|].
  rewrite all_chars_cons, free_of_cons. intros [Hc Hs]%andb_true_iff.
  rewrite (IH Hs), andb_true_r. apply negb_true_iff.
  destruct (Ascii.eqb ":" c) eqn:E; [|reflexivity].
  apply Ascii.eqb_eq in E. subst c. discriminate Hc.
Qed.

Lemma padStart_denotes ds n :
  denotes ds n -> denotes (padStart ds 2 "0") n.
Proof.
  intros Hd. unfold padStart.
  destruct (2 <=? String.length ds)%nat eqn:Hlen; [exact Hd|].
  apply Nat.leb_gt in Hlen. pose proof (denotes_nonempty _ _ Hd) as Hne.
  destruct ds as [|c [|d ds]]; [contradiction| |simpl in Hlen; lia].
  simpl. rewrite append_cons, append_nil_l.
  pose proof (denotes_cons "0" _ _ eq_refl Hd) as H.
  change (digit_value "0") with 0 in H. now rewrite Z.mul_0_l, Z.add_0_l in H.
Qed.

Lemma padStart_two_all :
  forallb (fun n => String.eqb (padStart (toString n) 2 "0") (two_digits n))
          (seqZ 0 100) = true.
Proof. vm_compute. reflexivity. Qed.

Lemma padStart_two n :
  0 <= n <= 99 -> padStart (toString n) 2 "0" = two_digits n.
Proof.
  intros Hn. pose proof padStart_two_all as H. rewrite forallb_forall in H.
  apply String.eqb_eq, H, list_elem_of_In, elem_of_seqZ. lia.
Qed.

Lemma minutesToTime_clock m :
  0 <= m < 6000 -> minutesToTime m = clock (m / 60) (m mod 60).
Proof.
  intros Hm. unfold minutesToTime, clock.
  rewrite Z.rem_mod_nonneg by lia.
  pose proof (Z.div_mod m 60). pose proof (Z.mod_pos_bound m 60).
  rewrite !padStart_two by lia. reflexivity.
Qed.

(** The two parts of the text of [minutesToTime], for minutes that are
    not negative. *)
Lemma minutesToTime_parts m :
  0 <= m ->
  ∃ hh mm,
    minutesToTime m = hh +:+ String ":" mm
    ∧ denotes hh (m / 60) ∧ denotes mm (m mod 60).
Proof.
  intros Hm. unfold minutesToTime. rewrite Z.rem_mod_nonneg by lia.
  pose proof (Z.div_mod m 60). pose proof (Z.mod_pos_bound m 60).
  exists (padStart (toString (m / 60)) 2 "0"),
         (padStart (toString (m mod 60)) 2 "0").
  split; [reflexivity|].
  split; apply padStart_denotes, toString_denotes; lia.
Qed.

Lemma split_clock hh mm :
  free_of ":" hh = true -> free_of ":" mm = true ->
  split ":" (hh +:+ String ":" mm) = [hh; mm].
Proof.
  intros Hh Hm. rewrite split_app by assumption. now rewrite split_free.
Qed.

(** X16. [isValidTime] accepts the text of [minutesToTime] exactly for the
    minutes of one day, 0 to 1439. *)
Theorem minutesToTime_valid :
  ∀ minutes,
    isValidTime (minutesToTime minutes) = true <-> 0 <= minutes < 1440.
Proof.
  intros m. rewrite isValidTime_forms. split.
  - intros (h & mi & Hh & Hmi & Ht).
    assert (∃ tail, minutesToTime m = two_digits h +:+ String ":" tail)
      as [tail Heq].
    { destruct Ht as [->|(s & _ & ->)]; unfold clock.
      - eexists. reflexivity.
      - eexists. rewrite append_assoc. reflexivity. }
    pose proof (denotes_two_digits h ltac:(lia)) as Hdh.
    destruct (Z_lt_le_dec m 0) as [Hneg|Hpos].
    + exfalso. unfold minutesToTime in Heq.
      destruct (toString_negative (m / 60)) as (ds & Hs & Hne).
      { pose proof (Z.div_mod m 60). pose proof (Z.mod_pos_bound m 60). lia. }
      rewrite Hs in Heq. unfold padStart in Heq.
      replace (2 <=? String.length (String "-" ds))%nat with true in Heq
        by (destruct ds; [contradiction|reflexivity]).
      unfold two_digits in Heq. rewrite !append_cons in Heq.
      injection Heq as Hc _.
      assert (0 <= h / 10 <= 9) as Hq
        by (pose proof (Z.div_mod h 10); pose proof (Z.mod_pos_bound h 10); lia).
      destruct (digit_char_is_digit _ Hq) as [Hd _]. rewrite <- Hc in Hd.
      discriminate Hd.
    + destruct (minutesToTime_parts m Hpos) as (hh & mm & Hparts & Hhh & Hmm).
      rewrite Hparts in Heq.
      apply append_sep_inj in Heq as [-> _];
        [|now apply all_digits_free, (denotes_all_digits _ (m / 60))
         |now apply all_digits_free, (denotes_all_digits _ h)].
      pose proof (denotes_functional _ _ _ Hhh Hdh).
      pose proof (Z.div_mod m 60). pose proof (Z.mod_pos_bound m 60). lia.
  - intros Hm. exists (m / 60), (m mod 60).
    pose proof (Z.div_mod m 60). pose proof (Z.mod_pos_bound m 60).
    split; [lia|]. split; [lia|]. left. apply minutesToTime_clock. lia.
Qed.

(** [Number] reads a decimal numeral as the integer it writes, as long as
    every such integer is a double: up to 2^53. *)
Variable Number : string -> option Z.
Hypothesis Number_decimal :
  ∀ ds n, denotes ds n -> n <= 2 ^ 53 -> Number ds = Some n.

(** X17. Reading back the text of [minutesToTime] gives the minutes again,
    for every number of minutes from 0 to 2^53, a day or more included:
    up to there the quotient, the remainder, the product and the sum are
    exact in doubles and the numerals are read exactly. *)
Theorem timeToMinutes_minutesToTime :
  ∀ minutes,
    0 <= minutes <= 2 ^ 53 ->
    timeToMinutes Number (minutesToTime minutes) = Some minutes.
Proof.
  intros m [Hm Hmax].
  destruct (minutesToTime_parts m Hm) as (hh & mm & -> & Hhh & Hmm).
  unfold timeToMinutes.
  rewrite split_clock
    by (eapply all_digits_free, denotes_all_digits; eassumption).
  pose proof (Z.div_mod m 60 ltac:(lia)) as Hdiv.
  pose proof (Z.mod_pos_bound m 60 ltac:(lia)) as Hmod.
  simpl. rewrite (Number_decimal _ _ Hhh), (Number_decimal _ _ Hmm) by lia.
  f_equal. lia.
Qed.

(** X18. A text that [isValidTime] accepts reads as a minute of the day, 0
    to 1439, and [minutesToTime] writes that minute as the first five
    characters of the text: seconds are dropped. *)
Theorem minutesToTime_timeToMinutes :
  ∀ t,
    isValidTime t = true ->
    ∃ minutes,
      timeToMinutes Number t = Some minutes
      ∧ 0 <= minutes < 1440
      ∧ minutesToTime minutes = String.substring 0 5 t.
Proof.
  intros t (h & m & Hh & Hm & Ht)%isValidTime_forms.
  exists (h * 60 + m).
  pose proof (denotes_two_digits h ltac:(lia)) as Hdh.
  pose proof (denotes_two_digits m ltac:(lia)) as Hdm.
  assert (free_of ":" (two_digits h) = true) as Fh
    by (eapply all_digits_free, denotes_all_digits; eassumption).
  assert (free_of ":" (two_digits m) = true) as Fm
    by (eapply all_digits_free, denotes_all_digits; eassumption).
  assert (minutesToTime (h * 60 + m) = clock h m) as Hback.
  { rewrite minutesToTime_clock by lia. f_equal.
    - symmetry. apply Z.div_unique with (r := m); lia.
    - symmetry. apply Z.mod_unique with (q := h); lia. }
  split; [|split; [lia|]].
  - unfold timeToMinutes. destruct Ht as [->|(s & Hs & ->)].
    + unfold clock. change (":" +:+ two_digits m) with (String ":" (two_digits m)).
      rewrite split_clock by assumption. simpl.
      now rewrite (Number_decimal _ _ Hdh), (Number_decimal _ _ Hdm) by lia.
    + assert (clock h m +:+ ":" +:+ two_digits s
              = two_digits h
                +:+ String ":" (two_digits m +:+ String ":" (two_digits s)))
        as -> by (unfold clock; rewrite !append_assoc; reflexivity).
      rewrite split_app by assumption. rewrite split_app by assumption.
      simpl.
      now rewrite (Number_decimal _ _ Hdh), (Number_decimal _ _ Hdm) by lia.
  - rewrite Hback. destruct Ht as [->|(s & Hs & ->)]; reflexivity.
Qed.

End TimeRoundTrips.

Lemma timeToMinutes_minutesToTime_witness :
  (∀ ds n, denotes ds n -> n <= 2 ^ 53 -> Some (parseInt ds) = Some n)
  ∧ 0 <= 1500 <= 2 ^ 53
  ∧ Times.timeToMinutes (fun s => Some (parseInt s)) (Times.minutesToTime 1500)
    = Some 1500.
Proof.
  assert (∀ ds n, denotes ds n -> n <= 2 ^ 53 -> Some (parseInt ds) = Some n)
    as H by (intros ds n Hd _; now rewrite <- (denotes_value _ _ Hd)).
  assert (0 <= 1500 <= 2 ^ 53) as Hm by (split; [lia|vm_compute; discriminate]).
  split; [exact H|]. split; [exact Hm|].
  apply (timeToMinutes_minutesToTime (fun s => Some (parseInt s)) H 1500 Hm).
Defined.

Lemma minutesToTime_timeToMinutes_witness :
  Validation.isValidTime "08:30:15" = true
  ∧ ∃ minutes,
      Times.timeToMinutes (fun s => Some (parseInt s)) "08:30:15" = Some minutes
      ∧ 0 <= minutes < 1440
      ∧ Times.minutesToTime minutes = "08:30".
Proof.
  assert (∀ ds n, denotes ds n -> n <= 2 ^ 53 -> Some (parseInt ds) = Some n)
    as H by (intros ds n Hd _; now rewrite <- (denotes_value _ _ Hd)).
  split; [reflexivity|].
  apply (minutesToTime_timeToMinutes (fun s => Some (parseInt s)) H "08:30:15").
  reflexivity.
Defined.

(** ** E-mail addresses and identifiers *)

Section EmailUuid.
Import JsString Regex Validation Times.

Lemma has_char_app class s1 s2 :
  has_char class (s1 +:+ s2) = has_char class s1 || has_char class s2.
Proof.
  unfold has_char. induction s1 as [|c s1 IH]; [reflexivity|].
  rewrite append_cons. simpl. now rewrite IH, orb_assoc.
Qed.

Lemma plain_no_space s :
  all_chars plain s = true ->
  has_char is_space s = false ∧ free_of "@" s = true.
Proof.
  induction s as [|c s IH]; [now split|].
  rewrite all_chars_cons. intros [Hc Hs]%andb_true_iff.
  destruct (IH Hs) as [H1 H2]. unfold plain in Hc.
  apply negb_true_iff, orb_false_iff in Hc as [Hsp Hat].
  split.
  - unfold has_char in *. simpl. now rewrite Hsp, H1.
  - rewrite free_of_cons, H2, Ascii.eqb_sym, Hat. reflexivity.
Qed.

(** X19. [isValidEmail] accepts exactly the texts made of a local part, an at
    sign, and a domain with a dot in it, where the local part, what
    stands before that dot and what stands after it are not empty and
    hold neither white space nor an at sign.  An accepted text has no
    white space and exactly one at sign. *)
Theorem isValidEmail_shape :
  ∀ email,
    (isValidEmail email = true
     <-> ∃ local before after,
           email = local +:+ "@" +:+ before +:+ "." +:+ after
           ∧ local ≠ EmptyString ∧ before ≠ EmptyString
           ∧ after ≠ EmptyString
           ∧ all_chars plain local = true ∧ all_chars plain before = true
           ∧ all_chars plain after = true)
    ∧ (isValidEmail email = true ->
       has_char is_space email = false
       ∧ ∃ local domain, split "@" email = [local; domain]).
Proof.
  intros email.
  assert (isValidEmail email = true
          <-> ∃ local before after,
                email = local +:+ "@" +:+ before +:+ "." +:+ after
                ∧ local ≠ EmptyString ∧ before ≠ EmptyString
                ∧ after ≠ EmptyString
                ∧ all_chars plain local = true ∧ all_chars plain before = true
                ∧ all_chars plain after = true) as Hshape.
  { unfold isValidEmail, emailRegex, not_space_at, Char.
    rewrite test_lang, lang_Seq. split.
    - intros (l & tl & -> & [Hl Al]%lang_Plus_Class & Htl).
      apply lang_Seq_Class in Htl as (c1 & tl1 & -> & ->%Ascii.eqb_eq & Htl).
      apply lang_Seq in Htl as (a & tl2 & -> & [Ha Aa]%lang_Plus_Class & Htl).
      apply lang_Seq_Class in Htl as (c2 & b & -> & ->%Ascii.eqb_eq & Hb).
      apply lang_Plus_Class in Hb as [Hb Ab].
      exists l, a, b. split; [reflexivity|]. now repeat split.
    - intros (l & a & b & -> & Hl & Ha & Hb & Al & Aa & Ab).
      exists l, ("@" +:+ a +:+ "." +:+ b). split; [reflexivity|].
      split; [now apply lang_Plus_Class|].
      apply lang_Seq_Class. exists "@"%char, (a +:+ "." +:+ b).
      split; [reflexivity|]. split; [reflexivity|].
      apply lang_Seq. exists a, ("." +:+ b). split; [reflexivity|].
      split; [now apply lang_Plus_Class|].
      apply lang_Seq_Class. exists "."%char, b.
      split; [reflexivity|]. split; [reflexivity|].
      now apply lang_Plus_Class. }
  split; [exact Hshape|].
  intros (l & a & b & -> & _ & _ & _ & Al & Aa & Ab)%Hshape.
  destruct (plain_no_space _ Al) as [Sl Fl].
  destruct (plain_no_space _ Aa) as [Sa Fa].
  destruct (plain_no_space _ Ab) as [Sb Fb].
  split.
  - rewrite !has_char_app, Sl, Sa, Sb. reflexivity.
  - exists l, (a +:+ "." +:+ b).
    change ("@" +:+ a +:+ "." +:+ b) with (String "@" (a +:+ "." +:+ b)).
    rewrite split_app by assumption. rewrite split_free; [reflexivity|].
    unfold free_of. rewrite !has_char_app.
    unfold free_of in Fa, Fb. apply negb_true_iff in Fa, Fb.
    now rewrite Fa, Fb.
Qed.

Lemma derive_blind f r c : blind_to f r -> derive (f c) r = derive c r.
Proof.
  induction r as [| |m|r1 IH1 r2 IH2|r1 IH1 r2 IH2|r IH]; simpl;
    try reflexivity.
  - intros H. now rewrite H.
  - intros [H1 H2]. now rewrite IH1, IH2.
  - intros [H1 H2]. now rewrite IH1, IH2.
  - intros H. now rewrite IH.
Qed.

Lemma blind_to_derive f r c : blind_to f r -> blind_to f (derive c r).
Proof.
  induction r as [| |m|r1 IH1 r2 IH2|r1 IH1 r2 IH2|r IH]; simpl; auto.
  - intros _. now destruct (m c).
  - intros [H1 H2]. destruct (nullable r1); simpl; auto.
  - intros [H1 H2]. auto.
Qed.

Lemma test_blind f s : ∀ r, blind_to f r -> test r (map_chars f s) = test r s.
Proof.
  induction s as [|c s IH]; intros r Hr; [reflexivity|]. simpl.
  rewrite derive_blind by assumption. apply IH. now apply blind_to_derive.
Qed.

Lemma uuidRegex_blind : blind_to lower_ascii uuidRegex.
Proof.
  assert (∀ c, is_hex (lower_ascii c) = is_hex c) as Hhex.
  { intros c. destruct c as [[] [] [] [] [] [] [] []]; reflexivity. }
  assert (∀ c, is_variant (lower_ascii c) = is_variant c) as Hvar.
  { intros c. destruct c as [[] [] [] [] [] [] [] []]; reflexivity. }
  assert (∀ c, Ascii.eqb "-" (lower_ascii c) = Ascii.eqb "-" c) as Hchar.
  { intros c. destruct c as [[] [] [] [] [] [] [] []]; reflexivity. }
  assert (∀ c, in_range "1" "5" (lower_ascii c) = in_range "1" "5" c) as Hver.
  { intros c. destruct c as [[] [] [] [] [] [] [] []]; reflexivity. }
  unfold uuidRegex, hex, variant, range, Char. simpl.
  repeat split; auto.
Qed.

(** X20. [isValidUUID] accepts exactly 36 characters in five groups of 8, 4,
    4, 4 and 12 hexadecimal digits joined by hyphens, where the third
    group begins with a digit from 1 to 5 and the fourth with 8, 9, a or
    b; upper-case and lower-case letters count the same. *)
Theorem isValidUUID_shape :
  ∀ uuid,
    (isValidUUID uuid = true
     <-> ∃ g1 g2 version g3 variant_char g4 g5,
           uuid = g1 +:+ "-" +:+ g2 +:+ "-" +:+ String version g3
                  +:+ "-" +:+ String variant_char g4 +:+ "-" +:+ g5
           ∧ String.length g1 = 8%nat ∧ String.length g2 = 4%nat
           ∧ String.length g3 = 3%nat ∧ String.length g4 = 3%nat
           ∧ String.length g5 = 12%nat
           ∧ all_chars is_hex (g1 +:+ g2 +:+ g3 +:+ g4 +:+ g5) = true
           ∧ in_range "1" "5" version = true
           ∧ is_variant variant_char = true)
    ∧ (isValidUUID uuid = true -> String.length uuid = 36%nat)
    ∧ isValidUUID (map_chars lower_ascii uuid) = isValidUUID uuid.
Proof.
  intros uuid.
  assert (isValidUUID uuid = true
     <-> ∃ g1 g2 version g3 variant_char g4 g5,
           uuid = g1 +:+ "-" +:+ g2 +:+ "-" +:+ String version g3
                  +:+ "-" +:+ String variant_char g4 +:+ "-" +:+ g5
           ∧ String.length g1 = 8%nat ∧ String.length g2 = 4%nat
           ∧ String.length g3 = 3%nat ∧ String.length g4 = 3%nat
           ∧ String.length g5 = 12%nat
           ∧ all_chars is_hex (g1 +:+ g2 +:+ g3 +:+ g4 +:+ g5) = true
           ∧ in_range "1" "5" version = true
           ∧ is_variant variant_char = true) as Hshape.
  { unfold isValidUUID, uuidRegex, hex, variant, range, Char.
    rewrite test_lang, lang_Seq. split.
    - intros (g1 & tl & -> & [L1 A1]%lang_Repeat_Class & Htl).
      apply lang_Seq_Class in Htl as (c1 & tl1 & -> & ->%Ascii.eqb_eq & Htl).
      apply lang_Seq in Htl as (g2 & tl2 & -> & [L2 A2]%lang_Repeat_Class & Htl).
      apply lang_Seq_Class in Htl as (c2 & tl3 & -> & ->%Ascii.eqb_eq & Htl).
      apply lang_Seq_Class in Htl as (v & tl4 & -> & Hv & Htl).
      apply lang_Seq in Htl as (g3 & tl5 & -> & [L3 A3]%lang_Repeat_Class & Htl).
      apply lang_Seq_Class in Htl as (c3 & tl6 & -> & ->%Ascii.eqb_eq & Htl).
      apply lang_Seq_Class in Htl as (w & tl7 & -> & Hw & Htl).
      apply lang_Seq in Htl as (g4 & tl8 & -> & [L4 A4]%lang_Repeat_Class & Htl).
      apply lang_Seq_Class in Htl as (c4 & g5 & -> & ->%Ascii.eqb_eq & Htl).
      apply lang_Repeat_Class in Htl as [L5 A5].
      exists g1, g2, v, g3, w, g4, g5.
      split; [now rewrite !append_cons|].
      repeat (split; [assumption|]). split; [|now split].
      now rewrite !all_chars_app, A1, A2, A3, A4, A5.
    - intros (g1 & g2 & v & g3 & w & g4 & g5 & -> & L1 & L2 & L3 & L4 & L5
              & A & Hv & Hw).
      rewrite !all_chars_app in A.
      apply andb_true_iff in A as [A1 A]. apply andb_true_iff in A as [A2 A].
      apply andb_true_iff in A as [A3 A]. apply andb_true_iff in A as [A4 A5].
      eexists g1, _. split; [reflexivity|].
      split; [now apply lang_Repeat_Class|].
      apply lang_Seq_Class. eexists "-"%char, _.
      split; [reflexivity|]. split; [reflexivity|].
      apply lang_Seq. eexists g2, _. split; [reflexivity|].
      split; [now apply lang_Repeat_Class|].
      apply lang_Seq_Class. eexists "-"%char, _.
      split; [reflexivity|]. split; [reflexivity|].
      apply lang_Seq_Class. eexists v, _.
      split; [reflexivity|]. split; [exact Hv|].
      apply lang_Seq. eexists g3, _. split; [reflexivity|].
      split; [now apply lang_Repeat_Class|].
      apply lang_Seq_Class. eexists "-"%char, _.
      split; [reflexivity|]. split; [reflexivity|].
      apply lang_Seq_Class. eexists w, _.
      split; [reflexivity|]. split; [exact Hw|].
      apply lang_Seq. eexists g4, _. split; [reflexivity|].
      split; [now apply lang_Repeat_Class|].
      apply lang_Seq_Class. eexists "-"%char, g5.
      split; [reflexivity|]. split; [reflexivity|].
      now apply lang_Repeat_Class. }
  split; [exact Hshape|]. split.
  - intros (g1 & g2 & v & g3 & w & g4 & g5 & -> & L1 & L2 & L3 & L4 & L5 & _)%Hshape.
    rewrite !length_append. simpl String.length. lia.
  - apply test_blind, uuidRegex_blind.
Qed.

End EmailUuid.

(** ** Retrying *)

Section Retrying.
Import Async.
Context {T E : Type}.

Lemma retry_loop_success (fn : nat -> T + E) maxAttempts delayMs value :
  ∀ (k fuel : nat) attempt calls lastError waited,
    (k < fuel)%nat -> attempt + Z.of_nat k <= maxAttempts ->
    (∀ j, (j < k)%nat -> ∃ error, fn (calls + j)%nat = inr error) ->
    fn (calls + k)%nat = inl value ->
    retry_loop fn fuel maxAttempts delayMs attempt calls lastError waited
    = Some (Fulfilled value,
            waited ++ map (Z.mul delayMs) (seqZ attempt (Z.of_nat k))).
Proof.
  induction k as [|k IH]; intros fuel attempt calls lastError waited Hfuel
    Hmax Hfail Hok; (destruct fuel as [|fuel]; [lia|]); simpl retry_loop.
  - replace (attempt <=? maxAttempts) with true by (symmetry; apply Z.leb_le; lia).
    rewrite Nat.add_0_r in Hok. rewrite Hok. simpl. now rewrite app_nil_r.
  - replace (attempt <=? maxAttempts) with true by (symmetry; apply Z.leb_le; lia).
    destruct (Hfail 0%nat ltac:(lia)) as [error He].
    rewrite Nat.add_0_r in He. rewrite He.
    replace (attempt =? maxAttempts) with false by (symmetry; apply Z.eqb_neq; lia).
    rewrite (IH fuel (attempt + 1) (S calls) (Some error)
               (waited ++ [delayMs * attempt])).
    + rewrite (seqZ_cons attempt (Z.of_nat (S k))) by lia.
      replace (Z.pred (Z.of_nat (S k))) with (Z.of_nat k) by lia.
      replace (Z.succ attempt) with (attempt + 1) by lia.
      simpl. now rewrite <- app_assoc.
    + lia.
    + lia.
    + intros j Hj. destruct (Hfail (S j) ltac:(lia)) as [e' He'].
      exists e'. now replace (S calls + j)%nat with (calls + S j)%nat by lia.
    + now replace (S calls + k)%nat with (calls + S k)%nat by lia.
Qed.

Lemma retry_loop_failure (fn : nat -> T + E) maxAttempts delayMs last :
  ∀ (k fuel : nat) attempt calls lastError waited,
    (k < fuel)%nat -> attempt + Z.of_nat k = maxAttempts ->
    (∀ j, (j < k)%nat -> ∃ error, fn (calls + j)%nat = inr error) ->
    fn (calls + k)%nat = inr last ->
    retry_loop fn fuel maxAttempts delayMs attempt calls lastError waited
    = Some (Rejected (Some last),
            waited ++ map (Z.mul delayMs) (seqZ attempt (Z.of_nat k))).
Proof.
  induction k as [|k IH]; intros fuel attempt calls lastError waited Hfuel
    Hmax Hfail Hlast; (destruct fuel as [|fuel]; [lia|]); simpl retry_loop.
  - replace (attempt <=? maxAttempts) with true by (symmetry; apply Z.leb_le; lia).
    rewrite Nat.add_0_r in Hlast. rewrite Hlast.
    replace (attempt =? maxAttempts) with true by (symmetry; apply Z.eqb_eq; lia).
    simpl. now rewrite app_nil_r.
  - replace (attempt <=? maxAttempts) with true by (symmetry; apply Z.leb_le; lia).
    destruct (Hfail 0%nat ltac:(lia)) as [error He].
    rewrite Nat.add_0_r in He. rewrite He.
    replace (attempt =? maxAttempts) with false by (symmetry; apply Z.eqb_neq; lia).
    rewrite (IH fuel (attempt + 1) (S calls) (Some error)
               (waited ++ [delayMs * attempt])).
    + rewrite (seqZ_cons attempt (Z.of_nat (S k))) by lia.
      replace (Z.pred (Z.of_nat (S k))) with (Z.of_nat k) by lia.
      replace (Z.succ attempt) with (attempt + 1) by lia.
      simpl. now rewrite <- app_assoc.
    + lia.
    + lia.
    + intros j Hj. destruct (Hfail (S j) ltac:(lia)) as [e' He'].
      exists e'. now replace (S calls + j)%nat with (calls + S j)%nat by lia.
    + now replace (S calls + k)%nat with (calls + S k)%nat by lia.
Qed.



End Retrying.


(** ** What the generators return *)

Section GeneratorOutputs.
Import JsString Utils AuthUtils.

Lemma hex_of_byte_inj b1 b2 : hex_of_byte b1 = hex_of_byte b2 -> b1 = b2.
Proof.
  pose (dec := fun s : string =>
          find (fun n => match Byte.of_nat n with
                         | Some b => String.eqb (hex_of_byte b) s
                         | None => false
                         end) (seq 0 256) ≫= Byte.of_nat).
  assert (∀ b, dec (hex_of_byte b) = Some b) as Hdec
    by (intros []; vm_compute; reflexivity).
  intros H. apply (f_equal dec) in H. rewrite !Hdec in H. now injection H.
Qed.

Lemma to_hex_cons b bytes :
  to_hex (b :: bytes)
  = String (hex_digit (Byte.to_N b / 16))
      (String (hex_digit (Byte.to_N b mod 16)) (to_hex bytes)).
Proof.
  simpl to_hex. unfold hex_of_byte. now rewrite !append_cons, append_nil_l.
Qed.

Lemma to_hex_inj : ∀ bytes1 bytes2, to_hex bytes1 = to_hex bytes2 -> bytes1 = bytes2.
Proof.
  induction bytes1 as [|b1 r1 IH]; intros [|b2 r2]; rewrite ?to_hex_cons;
    try reflexivity; try discriminate.
  intros [= H1 H2 H3]. f_equal; [|now apply IH].
  apply hex_of_byte_inj. unfold hex_of_byte. now rewrite H1, H2.
Qed.

Lemma to_hex_digits bytes :
  all_chars (fun c => has_char (Ascii.eqb c) hex_digits) (to_hex bytes) = true.
Proof.
  induction bytes as [|b bytes IH]; [reflexivity|].
  rewrite to_hex_cons, !all_chars_cons, IH, andb_true_r.
  destruct b; vm_compute; reflexivity.
Qed.

(** X23. [generateRandomString] returns two characters for each byte that
    [crypto.randomBytes] hands it, each of them one of 0123456789abcdef,
    and loses nothing of the bytes: two runs that return the same string
    were handed the same bytes. *)
Theorem generateRandomString_hex :
  ∀ length secure weak,
    String.length (run (generateRandomString length) secure weak)
    = (2 * List.length (secure length))%nat
    ∧ all_chars (fun c => has_char (Ascii.eqb c) hex_digits)
        (run (generateRandomString length) secure weak) = true
    ∧ (∀ secure' weak',
         run (generateRandomString length) secure weak
         = run (generateRandomString length) secure' weak'
         -> secure length = secure' length).
Proof.
  intros length secure weak. simpl. split; [apply to_hex_length|].
  split; [apply to_hex_digits|]. intros secure' weak'. apply to_hex_inj.
Qed.

(** X24. When [crypto.randomBytes] returns as many bytes as it is asked for,
    the secure token has twice the length asked for, the e-mail
    verification, password reset and CSRF tokens have 64 characters and
    the session identifier has 128. *)
Theorem secure_tokens_length :
  ∀ secure weak,
    (∀ size, List.length (secure size) = size) ->
    (∀ length,
       String.length (run (generateSecureToken length) secure weak)
       = (2 * length)%nat)
    ∧ String.length (run generateEmailVerificationToken secure weak) = 64%nat
    ∧ String.length (run generatePasswordResetToken secure weak) = 64%nat
    ∧ String.length (run generateSessionId secure weak) = 128%nat
    ∧ String.length (run generateCsrfToken secure weak) = 64%nat.
Proof.
  intros secure weak Hsize.
  assert (∀ length,
            String.length (run (generateRandomString length) secure weak)
            = (2 * length)%nat) as H.
  { intros length. simpl. now rewrite to_hex_length, Hsize. }
  split; [exact H|]. repeat split; apply H.
Qed.

Lemma append_index_digit code i :
  0 <= i < 10 ->
  ∃ c, append_index code "0123456789" i = code +:+ String c EmptyString
       ∧ is_digit c = true.
Proof.
  intros Hi. unfold append_index.
  replace (i <? 0) with false by (symmetry; apply Z.ltb_ge; lia).
  assert (i = 0 ∨ i = 1 ∨ i = 2 ∨ i = 3 ∨ i = 4 ∨ i = 5 ∨ i = 6 ∨ i = 7
          ∨ i = 8 ∨ i = 9) as Hcases by lia.
  repeat (destruct Hcases as [->|Hcases]; [eexists; split; reflexivity|]).
  subst i. eexists; split; reflexivity.
Qed.

Lemma generateVerificationCode_loop_digits secure :
  ∀ remaining code weak,
    (∀ r, r ∈ weak -> random_answer r) ->
    ∃ tail,
      run (generateVerificationCode_loop remaining code) secure weak
      = code +:+ tail
      ∧ String.length tail = remaining
      ∧ all_chars is_digit tail = true.
Proof.
  induction remaining as [|n IH]; intros code weak Hweak.
  - exists EmptyString. simpl. now rewrite append_nil_r.
  - simpl generateVerificationCode_loop.
    assert (∀ r rest, random_answer r ->
              (∀ r', r' ∈ rest -> random_answer r') ->
              ∃ tail,
                run (generateVerificationCode_loop n
                       (append_index code "0123456789"
                          (floor_double
                             (nearest_double (r * inject_Z 10))))) secure rest
                = code +:+ tail
                ∧ String.length tail = S n
                ∧ all_chars is_digit tail = true) as Hstep.
    { intros r rest [H0 H1] Hrest.
      assert (0 <= floor_double (nearest_double (r * inject_Z 10)) < 10)
        as Hdigit by (pose proof (floor_times_10 r H0 H1); lia).
      destruct (append_index_digit code _ Hdigit) as (c & -> & Hc).
      destruct (IH (code +:+ String c EmptyString) rest Hrest)
        as (tail & -> & Hlen & Hall).
      exists (String c tail). rewrite append_assoc, append_cons, append_nil_l.
      split; [reflexivity|]. split; [simpl; now rewrite Hlen|].
      now rewrite all_chars_cons, Hc, Hall. }
    destruct weak as [|r rest].
    + apply (Hstep 0%Q []); [split; [apply Qle_refl|discriminate]|].
      intros r' Hr'. now apply elem_of_nil in Hr'.
    + apply (Hstep r rest); [apply Hweak, list_elem_of_here|].
      intros r' Hr'. apply Hweak. now apply list_elem_of_further.
Qed.

(** X25. When the answers of [Math.random] are in its range, from 0 to the
    largest double below 1, [generateVerificationCode] returns exactly
    as many characters as asked for, all of them decimal digits: the
    product by 10, rounded to a double, stays below 10.  The phone
    verification code is made of 6 digits. *)
Theorem generateVerificationCode_digits :
  ∀ secure weak,
    (∀ r, r ∈ weak -> random_answer r) ->
    (∀ length,
       String.length (run (generateVerificationCode length) secure weak)
       = length
       ∧ all_chars is_digit (run (generateVerificationCode length) secure weak)
         = true)
    ∧ String.length (run generatePhoneVerificationCode secure weak) = 6%nat
    ∧ all_chars is_digit (run generatePhoneVerificationCode secure weak) = true.
Proof.
  intros secure weak Hweak.
  assert (∀ length,
       String.length (run (generateVerificationCode length) secure weak)
       = length
       ∧ all_chars is_digit (run (generateVerificationCode length) secure weak)
         = true) as H.
  { intros length. unfold generateVerificationCode.
    destruct (generateVerificationCode_loop_digits secure length "" weak Hweak)
      as (tail & -> & Hlen & Hall).
    now rewrite append_nil_l. }
  split; [exact H|]. apply (H 6%nat).
Qed.

End GeneratorOutputs.

Lemma secure_tokens_length_witness :
  String.length
    (Utils.run AuthUtils.generateSessionId
       (fun size => repeat Byte.x2a size) []) = 128%nat.
Proof.
  apply (secure_tokens_length (fun size => repeat Byte.x2a size) []).
  intros size. apply repeat_length.
Defined.

(** The answers are doubles: the one nearest to 0.7, whose product by
    10 is rounded up to 7, one half, the largest double below 1, zero,
    a quarter and an eighth. *)
Lemma generateVerificationCode_digits_witness :
  Utils.run AuthUtils.generatePhoneVerificationCode (fun _ => [])
    Scenarios.random_answers = "759021"
  ∧ String.length
      (Utils.run AuthUtils.generatePhoneVerificationCode (fun _ => [])
         Scenarios.random_answers) = 6%nat.
Proof.
  split; [vm_compute; reflexivity|].
  apply (generateVerificationCode_digits (fun _ => [])
           Scenarios.random_answers).
  intros r Hr. unfold Scenarios.random_answers in Hr.
  repeat (apply elem_of_cons in Hr as [->|Hr];
          [split; vm_compute; discriminate|]).
  now apply elem_of_nil in Hr.
Defined.

(** ** Expiry as the clock moves *)

Section ExpiryOverTime.
Import AuthUtils.

(** X26. As the clock moves forward the time to expiry never grows, a token
    that is expired stays expired and a token that should be refreshed
    still should; and an expired token should be refreshed under every
    threshold that is not negative. *)
Theorem expiry_monotone :
  ∀ now later payload thresholdSeconds,
    now <= later ->
    getTimeToExpiry later payload <= getTimeToExpiry now payload
    ∧ (isTokenExpired now payload = true -> isTokenExpired later payload = true)
    ∧ (shouldRefreshToken now payload thresholdSeconds = true ->
       shouldRefreshToken later payload thresholdSeconds = true)
    ∧ (0 <= thresholdSeconds -> isTokenExpired now payload = true ->
       shouldRefreshToken now payload thresholdSeconds = true).
Proof.
  intros now later payload thresholdSeconds Hle.
  unfold shouldRefreshToken, isTokenExpired, getTimeToExpiry.
  rewrite !Z.ltb_lt, !Z.leb_le. lia.
Qed.

End ExpiryOverTime.

Lemma expiry_monotone_witness :
  AuthUtils.getTimeToExpiry 1800 Examples.expiring_payload
  <= AuthUtils.getTimeToExpiry 1000 Examples.expiring_payload.
Proof.
  apply (expiry_monotone 1000 1800 Examples.expiring_payload 300). lia.
Defined.

(** ** What an accepted token has passed *)

Section Accepted.
Import AuthUtils.
Variable crypto : Jwt.Crypto.

(** X27. A token that [verifyAccessToken] accepts has a signature that
    [jws.verify] accepts under the access secret, which is not empty, by
    the algorithm that its header names; that algorithm is one that
    [jwt.verify] allows for the kind of key the secret is, one of HS256,
    HS384, HS512 when the secret is no key material of an asymmetric
    key.  The result is the payload of the token; it is not expired and
    not used too early, and it carries the configured audience and issuer
    when these are not empty. *)
Theorem verifyAccessToken_sound :
  ∀ c now token decoded,
    verifyAccessToken crypto (Some c) now token = Returned (Some decoded) ->
    ∃ header signature alg,
      token = Jwt.Jws header decoded signature
      ∧ signature ≠ "" ∧ accessTokenSecret c ≠ ""
      ∧ prop "alg" header = Some (JStr alg)
      ∧ alg ∈ Jwt.algorithms_of crypto (accessTokenSecret c)
      ∧ (Jwt.createPublicKey crypto (accessTokenSecret c) = None ->
         alg ∈ ["HS256"; "HS384"; "HS512"])
      ∧ Jwt.key_valid crypto alg (accessTokenSecret c) = true
      ∧ Jwt.jws_verify crypto alg (accessTokenSecret c) header decoded
          signature = true
      ∧ (∀ e, prop "exp" decoded = Some (JNum e) -> now < e)
      ∧ (∀ nbf, prop "nbf" decoded = Some (JNum nbf) -> nbf <= now)
      ∧ (audience c ≠ "" ->
         Jwt.audience_matches (audience c) (prop "aud" decoded) = true)
      ∧ (issuer c ≠ "" -> prop "iss" decoded = Some (JStr (issuer c))).
Proof.
  intros c now token decoded. rewrite verifyAccessToken_eq.
  destruct (Jwt.verify crypto now token (accessTokenSecret c)
              (verify_options c)) as [d|e] eqn:Hv; [|discriminate].
  intros [= ->].
  destruct (verify_Returned crypto _ _ _ _ _ Hv)
    as (h & g & a & -> & Hg & Hs & Ha & Hin & Hkey & Hsig & Hnbf & _ & Hexp
        & Haud & Hiss).
  exists h, g, a. do 5 (split; [assumption || reflexivity|]).
  split; [|now repeat split].
  intros Hsecret. unfold Jwt.algorithms_of in Hin. now rewrite Hsecret in Hin.
Qed.

(** X28. A token that [verifyRefreshToken] accepts has a signature that
    [jws.verify] accepts under the refresh secret, which is not empty, by
    the algorithm that its header names; it is not expired, its payload
    has the claim [type] equal to "refresh" and the configured issuer when
    that is not empty, and the result holds that claim and the [sub] of
    the payload, which may be [undefined]. *)
Theorem verifyRefreshToken_sound :
  ∀ c now token claims,
    verifyRefreshToken crypto (Some c) now token = Returned (Some claims) ->
    ∃ header payload signature alg,
      token = Jwt.Jws header payload signature
      ∧ signature ≠ "" ∧ refreshTokenSecret c ≠ ""
      ∧ prop "alg" header = Some (JStr alg)
      ∧ alg ∈ Jwt.algorithms_of crypto (refreshTokenSecret c)
      ∧ Jwt.key_valid crypto alg (refreshTokenSecret c) = true
      ∧ Jwt.jws_verify crypto alg (refreshTokenSecret c) header payload
          signature = true
      ∧ prop "type" payload = Some (JStr "refresh")
      ∧ refresh_type claims = Some (JStr "refresh")
      ∧ refresh_sub claims = prop "sub" payload
      ∧ (∀ e, prop "exp" payload = Some (JNum e) -> now < e)
      ∧ (issuer c ≠ "" -> prop "iss" payload = Some (JStr (issuer c))).
Proof.
  intros c now token claims. rewrite verifyRefreshToken_eq.
  destruct (Jwt.verify crypto now token (refreshTokenSecret c)
              (verify_options c)) as [d|e] eqn:Hv; [|discriminate].
  destruct (is_string "refresh" (prop "type" d)) eqn:Ht; [|discriminate].
  intros [= <-].
  destruct (verify_Returned crypto _ _ _ _ _ Hv)
    as (h & g & a & -> & Hg & Hs & Ha & Hin & Hkey & Hsig & _ & _ & Hexp
        & _ & Hiss).
  assert (prop "type" d = Some (JStr "refresh")) as Htype.
  { unfold is_string in Ht.
    destruct (prop "type" d) as [[| | |t| | |]|]; try discriminate.
    apply String.eqb_eq in Ht. now subst t. }
  exists h, d, g, a. simpl. now repeat split.
Qed.

(** X29. A token that both verifiers accept, at any two times, carries one
    signature that [jws.verify] accepts under the access secret and under
    the refresh secret, by the same algorithm, and its payload has the
    claim [type] equal to "refresh": the two secrets keep the two kinds
    of token apart as far as no signature verifies under both. *)
Theorem accepted_by_both :
  ∀ c now now' token decoded claims,
    verifyAccessToken crypto (Some c) now token = Returned (Some decoded) ->
    verifyRefreshToken crypto (Some c) now' token = Returned (Some claims) ->
    ∃ header signature alg,
      token = Jwt.Jws header decoded signature
      ∧ Jwt.jws_verify crypto alg (accessTokenSecret c) header decoded
          signature = true
      ∧ Jwt.jws_verify crypto alg (refreshTokenSecret c) header decoded
          signature = true
      ∧ prop "type" decoded = Some (JStr "refresh").
Proof.
  intros c now now' token decoded claims.
  rewrite verifyAccessToken_eq, verifyRefreshToken_eq.
  destruct (Jwt.verify crypto now token (accessTokenSecret c) _) as [d|]
    eqn:Ha; [|discriminate].
  intros [= ->].
  destruct (Jwt.verify crypto now' token (refreshTokenSecret c) _) as [d'|]
    eqn:Hr; [|discriminate].
  destruct (is_string "refresh" (prop "type" d')) eqn:Ht; [|discriminate].
  intros _.
  destruct (verify_Returned crypto _ _ _ _ _ Ha)
    as (h & g & a & -> & _ & _ & Halg & _ & _ & Hsig & _).
  destruct (verify_Returned crypto _ _ _ _ _ Hr)
    as (h' & g' & a' & [= <- <- <-] & _ & _ & Halg' & _ & _ & Hsig' & _).
  rewrite Halg in Halg'. injection Halg' as <-.
  exists h, g, a. split; [reflexivity|]. split; [exact Hsig|].
  split; [exact Hsig'|].
  unfold is_string in Ht.
  destruct (prop "type" decoded) as [[| | |t| | |]|]; try discriminate.
  apply String.eqb_eq in Ht. now subst t.
Qed.

End Accepted.

Lemma verifyAccessToken_sound_witness :
  AuthUtils.verifyAccessToken Examples.sample_crypto
    (Some Scenarios.separate_config) 1500 Scenarios.separate_access_token
  = Returned (Some Scenarios.access_claims)
  ∧ ∃ header signature alg,
      Scenarios.separate_access_token
      = Jwt.Jws header Scenarios.access_claims signature
      ∧ alg ∈ ["HS256"; "HS384"; "HS512"]
      ∧ Jwt.jws_verify Examples.sample_crypto alg "access-secret" header
          Scenarios.access_claims signature = true
      ∧ prop "iss" Scenarios.access_claims = Some (JStr "transport-auth").
Proof.
  split; [reflexivity|].
  destruct (verifyAccessToken_sound Examples.sample_crypto
              Scenarios.separate_config 1500
              Scenarios.separate_access_token Scenarios.access_claims eq_refl)
    as (header & signature & alg & Htoken & _ & _ & _ & _ & Halg & _ & Hsig
        & _ & _ & _ & Hiss).
  exists header, signature, alg. split; [exact Htoken|].
  split; [exact (Halg eq_refl)|]. split; [exact Hsig|].
  apply Hiss. discriminate.
Defined.

Lemma verifyRefreshToken_sound_witness :
  AuthUtils.verifyRefreshToken Examples.sample_crypto
    (Some Scenarios.separate_config) 2000 Scenarios.separate_refresh_token
  = Returned (Some {| AuthUtils.refresh_sub := Some (JStr "user-1");
                      AuthUtils.refresh_type := Some (JStr "refresh") |})
  ∧ ∃ header payload signature,
      Scenarios.separate_refresh_token = Jwt.Jws header payload signature
      ∧ prop "type" payload = Some (JStr "refresh").
Proof.
  split; [reflexivity|].
  destruct (verifyRefreshToken_sound Examples.sample_crypto
              Scenarios.separate_config 2000
              Scenarios.separate_refresh_token _ eq_refl)
    as (header & payload & signature & alg & Htoken & _ & _ & _ & _ & _ & _
        & Htype & _).
  exists header, payload, signature. split; [exact Htoken|exact Htype].
Defined.

Lemma accepted_by_both_witness :
  AuthUtils.verifyAccessToken Examples.sample_crypto
    (Some Examples.shared_secret_config) 2000 Examples.refresh_token
  = Returned (Some Scenarios.refresh_claims)
  ∧ AuthUtils.verifyRefreshToken Examples.sample_crypto
      (Some Examples.shared_secret_config) 3000 Examples.refresh_token
    = Returned (Some {| AuthUtils.refresh_sub := Some (JStr "user-1");
                        AuthUtils.refresh_type := Some (JStr "refresh") |})
  ∧ ∃ header signature alg,
      Examples.refresh_token
      = Jwt.Jws header Scenarios.refresh_claims signature
      ∧ Jwt.jws_verify Examples.sample_crypto alg "one-secret" header
          Scenarios.refresh_claims signature = true.
Proof.
  split; [reflexivity|]. split; [reflexivity|].
  destruct (accepted_by_both Examples.sample_crypto
              Examples.shared_secret_config 2000 3000 Examples.refresh_token
              Scenarios.refresh_claims _ eq_refl eq_refl)
    as (header & signature & alg & Htoken & Hsig & _).
  exists header, signature, alg. split; [exact Htoken|exact Hsig].
Defined.
